(** * AsyncConsoleEnhancer (enhanced-console.js): model and properties

    The enhancer class of [enhanced-console.js] is embedded as a
    transition system over an explicit enhancer state.  Every [async]
    function of the source is cut at its [await]s: the synchronous piece up
    to the first [await] is a state transformer, each resumption is an
    event of the machine.  What the platform decides (the outcome of a
    cache read, of a network fetch, of a cache write, the stack captured by
    [new Error().stack]) is carried by the event that consumes it.

    The host is a browser: [window] and [fetch] exist, native console
    functions print and return, [consumer.destroy()] returns.  The regular
    expression of [getOriginalLocation] and the source-map library
    ([new sourceMap.SourceMapConsumer(...)], [originalPositionFor]) are
    parameters.  Consecutive [await]s between which the code reads or
    writes no field of the instance are one step.  A run is any sequence of
    enabled events; the order in which the JavaScript job queues would
    deliver them is not imposed, so what holds of every run holds of every
    execution. *)

From stdpp Require Import gmap strings list fin_maps pretty.
From Stdlib Require Import ZArith Lia.

Set Warnings "-register-all".

Local Open Scope string_scope.
Local Open Scope list_scope.
Local Open Scope Z_scope.

(** ** JavaScript data *)

(** Values that can be passed to a console method. *)
Inductive value : Type :=
  | VUndefined
  | VNull
  | VBool (b : bool)
  | VNum (n : Z)
  | VStr (s : string)
  | VObj (fields : list (string * value))
  | VFunc (id : nat).

(** [typeof v === 'string'] *)
Definition typeof_string (v : value) : bool :=
  match v with VStr _ => true | _ => false end.

(** [typeof v === 'object' && v !== null] *)
Definition typeof_object_nonnull (v : value) : bool :=
  match v with VObj _ => true | _ => false end.

(** [String(v)] for the values a location can take: a captured stack line
    is a string, or [undefined] when the stack has fewer than three lines. *)
Definition to_js_string (v : value) : string :=
  match v with
  | VStr s => s
  | VUndefined => "undefined"
  | VNull => "null"
  | VBool true => "true"
  | VBool false => "false"
  | _ => "[object]"
  end.

(** [args[args.length - 1]]: the last element, [undefined] on an empty array. *)
Definition last_arg (args : list value) : value :=
  List.last args VUndefined.

(** Function references held by the console object.  A wrapper is the arrow
    function created by [enhance()]; [cid] is the identity of the closure,
    [method] and [original] are the variables it closes over.  A missing
    console property reads as [FUndefined]. *)
Inductive fn : Type :=
  | FUndefined
  | Native (name : string)
  | Wrapper (cid : nat) (method : string) (original : fn).

Global Instance fn_eq_dec : EqDecision fn.
Proof. solve_decision. Defined.

(** A function that can be applied without a [TypeError]: a native console
    function, or a wrapper around one. *)
Fixpoint callable (f : fn) : bool :=
  match f with
  | FUndefined => false
  | Native _ => true
  | Wrapper _ _ original => callable original
  end.

Definition is_wrapper (f : fn) : bool :=
  match f with Wrapper _ _ _ => true | _ => false end.

Definition Consumer := nat.

(** ** Options (constructor, lines 19-35) *)

Record Options := mkOptions {
  batchSize : Z;
  flushInterval : Z;
  maxQueueSize : Z;
  sourceMapEnabled : bool;
  useCache : bool;
  cacheKey : string;
  idleTimeout : Z
}.

(** The caller-supplied overrides; [None] is an absent (or nullish) field. *)
Record OptionsArg := mkOptionsArg {
  a_batchSize : option Z;
  a_flushInterval : option Z;
  a_maxQueueSize : option Z;
  a_sourceMapEnabled : option bool;
  a_useCache : option bool;
  a_cacheKey : option string;
  a_idleTimeout : option Z
}.

Definition no_options : OptionsArg :=
  mkOptionsArg None None None None None None None.

(** [options.x ?? d] *)
Definition merge_options (o : OptionsArg) : Options :=
  {| batchSize := default 10 (a_batchSize o);
     flushInterval := default 1000 (a_flushInterval o);
     maxQueueSize := default 1000 (a_maxQueueSize o);
     sourceMapEnabled := default true (a_sourceMapEnabled o);
     useCache := default true (a_useCache o);
     cacheKey := default "source-map-cache" (a_cacheKey o);
     idleTimeout := default 1000 (a_idleTimeout o) |}.

(** ** Platform *)

(** How [scheduleQueueProcessing] can go: [requestIdleCallback] is in
    [window], it is not (the microtask branch), or the platform call
    throws. *)
Inductive SchedKind := SchedIdle | SchedMicrotask | SchedThrows.

Record Platform := mkPlatform {
  sched : SchedKind;
  hasCaches : bool            (* 'caches' in window *)
}.

(** [new Error().stack.split('\n')[2]]: it throws when [stack] is not a
    string, else it is the third line, [undefined] when there is none. *)
Inductive Capture :=
  | CaptureThrows
  | Captured (line : option string).

(** The captures of one event, by closure identity of the wrapper that
    performs them. *)
Definition CaptureOracle := nat -> Capture.

(** ** Log entries and enhancer state *)

Record LogEntry := mkEntry {
  e_method : string;
  e_args : list value;
  e_stack : option string
}.

(** A call that reached a native console function. *)
Record Emitted := mkEmitted {
  em_fn : string;
  em_args : list value
}.

(** Outcome of a promise of [loadSourceMap]'s inner function. *)
Inductive LoadResult :=
  | LResolved (c : option Consumer)
  | LRejected.

Inductive LoadPhase :=
  | LFetching                   (* before the parsed map is known *)
  | LWriting (c : Consumer)     (* map parsed and cached, cache.put pending *)
  | LSettled (r : LoadResult).

Record Load := mkLoad {
  l_url : string;
  l_phase : LoadPhase
}.

(** A frame matched by the regular expression of [getOriginalLocation]. *)
Record FrameMatch := mkMatch {
  m_fnName : string;
  m_fileUrl : string;
  m_line : string;
  m_column : string
}.

(** Where a [processLogEntry] call is suspended. *)
Inductive TaskStatus :=
  | TLocation (loc : value)                  (* getOriginalLocation returned *)
  | TLocationThrew                           (* getOriginalLocation rejected *)
  | TConsumer (m : FrameMatch) (c : Consumer)       (* cache hit *)
  | TWaitLoad (m : FrameMatch) (load : nat)         (* awaiting a load *)
  | TDone
  | TRejected.

Record Task := mkTask {
  t_drain : nat;
  t_entry : LogEntry;
  t_status : TaskStatus
}.

(** A [processQueue] call that took a batch. *)
Inductive DrainStatus :=
  | DRunning
  | DResolved
  | DRejected.

(** A [cleanup] call. *)
Inductive CleanupStatus :=
  | CAwait (d : option nat)   (* awaiting processQueue(); [None]: it returned at its guard *)
  | CDone
  | CThrew.

Record State := mkState {
  (* fields of the instance *)
  options : Options;
  sourceMapCache : gmap string Consumer;
  logQueue : list LogEntry;
  isProcessing : bool;
  originalMethods : gmap string fn;
  pendingSourceMaps : gmap string nat;
  flushIntervalId : option nat;
  (* the host *)
  console : gmap string fn;
  intervals : list nat;           (* timers set and not cleared *)
  scheduled : nat;                (* callbacks of scheduleQueueProcessing not yet run *)
  nextId : nat;                   (* allocation counter: closures, timers *)
  loads : list Load;
  tasks : list Task;
  drains : list DrainStatus;
  cleanups : list CleanupStatus;
  destroyed : list Consumer;
  output : list Emitted
}.

(** Field updates. *)
Definition set_sourceMapCache v (s : State) : State :=
  let 'mkState o a b c d e f g h i j k l m n p q := s in mkState o v b c d e f g h i j k l m n p q.
Definition set_logQueue v (s : State) : State :=
  let 'mkState o a b c d e f g h i j k l m n p q := s in mkState o a v c d e f g h i j k l m n p q.
Definition set_isProcessing v (s : State) : State :=
  let 'mkState o a b c d e f g h i j k l m n p q := s in mkState o a b v d e f g h i j k l m n p q.
Definition set_originalMethods v (s : State) : State :=
  let 'mkState o a b c d e f g h i j k l m n p q := s in mkState o a b c v e f g h i j k l m n p q.
Definition set_pendingSourceMaps v (s : State) : State :=
  let 'mkState o a b c d e f g h i j k l m n p q := s in mkState o a b c d v f g h i j k l m n p q.
Definition set_flushIntervalId v (s : State) : State :=
  let 'mkState o a b c d e f g h i j k l m n p q := s in mkState o a b c d e v g h i j k l m n p q.
Definition set_console v (s : State) : State :=
  let 'mkState o a b c d e f g h i j k l m n p q := s in mkState o a b c d e f v h i j k l m n p q.
Definition set_intervals v (s : State) : State :=
  let 'mkState o a b c d e f g h i j k l m n p q := s in mkState o a b c d e f g v i j k l m n p q.
Definition set_scheduled v (s : State) : State :=
  let 'mkState o a b c d e f g h i j k l m n p q := s in mkState o a b c d e f g h v j k l m n p q.
Definition set_nextId v (s : State) : State :=
  let 'mkState o a b c d e f g h i j k l m n p q := s in mkState o a b c d e f g h i v k l m n p q.
Definition set_loads v (s : State) : State :=
  let 'mkState o a b c d e f g h i j k l m n p q := s in mkState o a b c d e f g h i j v l m n p q.
Definition set_tasks v (s : State) : State :=
  let 'mkState o a b c d e f g h i j k l m n p q := s in mkState o a b c d e f g h i j k v m n p q.
Definition set_drains v (s : State) : State :=
  let 'mkState o a b c d e f g h i j k l m n p q := s in mkState o a b c d e f g h i j k l v n p q.
Definition set_cleanups v (s : State) : State :=
  let 'mkState o a b c d e f g h i j k l m n p q := s in mkState o a b c d e f g h i j k l m v p q.
Definition set_destroyed v (s : State) : State :=
  let 'mkState o a b c d e f g h i j k l m n p q := s in mkState o a b c d e f g h i j k l m n v q.
Definition set_output v (s : State) : State :=
  let 'mkState o a b c d e f g h i j k l m n p q := s in mkState o a b c d e f g h i j k l m n p v.

(** The constructor (lines 19-35), on a host whose console is [c]. *)
Definition new_enhancer (oa : OptionsArg) (c : gmap string fn) : State :=
  {| options := merge_options oa;
     sourceMapCache := ∅; logQueue := []; isProcessing := false;
     originalMethods := ∅; pendingSourceMaps := ∅; flushIntervalId := None;
     console := c; intervals := []; scheduled := 0%nat; nextId := 0%nat;
     loads := []; tasks := []; drains := []; cleanups := [];
     destroyed := []; output := [] |}.

(** Normal completion or a thrown exception. *)
Inductive Completion := Normal | Throw.

(** [console[method]] *)
Definition console_get (c : gmap string fn) (method : string) : fn :=
  default FUndefined (c !! method).

Definition queue_full_marker : string :=
  String (Ascii.ascii_of_nat 10) "(Queue full - using original console)".

Definition newline : string := String (Ascii.ascii_of_nat 10) "".

(** Results of the platform's I/O during a load. *)
Inductive CacheRead :=
  | CacheReadThrows            (* caches.open or cache.match rejects *)
  | CacheMiss                  (* cache.match gives undefined *)
  | CacheHitBad                (* a stored response that does not parse *)
  | CacheHit (c : Consumer).   (* a stored response parsed into a consumer *)

Inductive NetFetch :=
  | FetchRejects               (* network error *)
  | FetchNotOk                 (* response.ok is false *)
  | FetchOkBad                 (* response.json() or the parse rejects *)
  | FetchOk (c : Consumer).    (* ok response parsed into a consumer *)

Inductive CacheWrite :=
  | CacheWriteOk
  | CacheWriteThrows.          (* caches.open or cache.put rejects *)

(** The answer of [consumer.originalPositionFor]. *)
Record Position := mkPosition {
  p_source : option string;
  p_line : Z;
  p_column : Z;
  p_name : option string
}.

Inductive PosResult :=
  | PosThrows
  | Pos (p : Position).

(** What [await this.getOriginalLocation(stack)] gives. *)
Inductive LocResult :=
  | LocOk (loc : value)
  | LocThrew.

(** An [Error] object, as passed to [console.error] by the catch blocks. *)
Definition error_object : value := VObj [("name", VStr "Error")].

Definition frame_value (frame : option string) : value :=
  match frame with Some f => VStr f | None => VUndefined end.

(** A truthy string: neither null/undefined nor empty. *)
Definition truthy (o : option string) : option string :=
  match o with
  | Some "" => None
  | _ => o
  end.

(** Events of the machine: calls of the application and resumptions of
    suspended functions. *)
Inductive Event :=
  | EvCall (method : string) (args : list value)  (* the application calls console[method] *)
  | EvEnhance
  | EvCleanup
  | EvCleanupResume (k : nat)
  | EvScheduled                                   (* a scheduled callback runs processQueue *)
  | EvInterval (id : nat)                         (* a flush timer fires *)
  | EvLoadIO (l : nat) (cr : CacheRead) (nf : NetFetch)
  | EvLoadWrite (l : nat) (w : CacheWrite)
  | EvTask (k : nat)
  | EvDrain (d : nat).

Definition is_enhance (ev : Event) : bool :=
  match ev with EvEnhance => true | _ => false end.

Definition is_cleanup (ev : Event) : bool :=
  match ev with EvCleanup | EvCleanupResume _ => true | _ => false end.

(** ** Sample hosts, used by the examples *)

Definition native_console : gmap string fn :=
  list_to_map [("log", Native "log"); ("warn", Native "warn");
               ("error", Native "error"); ("info", Native "info");
               ("debug", Native "debug")].

Definition browser : Platform := mkPlatform SchedIdle true.
Definition browser_no_idle : Platform := mkPlatform SchedMicrotask true.
Definition broken_scheduler : Platform := mkPlatform SchedThrows true.

Definition frame_a : string := "    at f (http://h/a.js:1:2)".
Definition frame_b : string := "    at g (http://h/b.js:3:4)".

(** A matcher that knows the two sample frames. *)
Definition sample_match (frame : string) : option FrameMatch :=
  if bool_decide (frame = frame_a) then Some (mkMatch "f" "http://h/a.js" "1" "2")
  else if bool_decide (frame = frame_b) then Some (mkMatch "g" "http://h/b.js" "3" "4")
  else None.

Definition sample_position (c : Consumer) (line column : string) : PosResult :=
  Pos (mkPosition (Some "app.ts") 12 5 (Some "main")).

Definition cap_a : CaptureOracle := fun _ => Captured (Some frame_a).
Definition cap_b : CaptureOracle := fun _ => Captured (Some frame_b).
Definition cap_none : CaptureOracle := fun _ => Captured None.
Definition cap_throws : CaptureOracle := fun _ => CaptureThrows.

Definition two_slots : OptionsArg :=
  mkOptionsArg None None (Some 2) (Some false) None None None.

Definition fill_two : list (Event * CaptureOracle) :=
  [(EvEnhance, cap_a); (EvCall "log" [VStr "a"], cap_a);
   (EvCall "warn" [VStr "b"], cap_a); (EvCall "log" [VStr "c"], cap_a)].

(** A log call whose frame names a.js, then the drain that starts its load. *)
Definition start_load_a : list (Event * CaptureOracle) :=
  [(EvEnhance, cap_a); (EvCall "log" [VStr "a"], cap_a); (EvScheduled, cap_a)].

Definition url_a : string := "http://h/a.js".

Definition no_source_maps : OptionsArg :=
  mkOptionsArg None None None (Some false) None None None.

(** batchSize 1, as in the development configuration of demo.js. *)
Definition one_per_batch : OptionsArg :=
  mkOptionsArg (Some 1) None None (Some false) None None None.

(** Two log calls, then [cleanup()] and the resumptions it awaits: the
    entries of the batch it took, the end of that drain, its own. *)
Definition two_logs_then_cleanup : list (Event * CaptureOracle) :=
  [(EvCall "log" [VStr "a"], cap_a); (EvCall "log" [VStr "b"], cap_b);
   (EvCleanup, cap_a); (EvTask 0%nat, cap_a); (EvTask 1%nat, cap_a);
   (EvDrain 0%nat, cap_a); (EvCleanupResume 0%nat, cap_a)].

Definition two_logs_then_cleanup_batch1 : list (Event * CaptureOracle) :=
  [(EvCall "log" [VStr "a"], cap_a); (EvCall "log" [VStr "b"], cap_b);
   (EvCleanup, cap_a); (EvTask 0%nat, cap_a);
   (EvDrain 0%nat, cap_a); (EvCleanupResume 0%nat, cap_a)].

Definition url_b : string := "http://h/b.js".

(** A drain of two entries (a.js, b.js) is in progress when [cleanup()] is
    called; the map of b.js is then refused, its entry finds the registry
    empty and is rejected, the drain ends, and the next drain resolves
    a.js again while the first load of a.js is still waiting. *)
Definition cleanup_during_drain : list (Event * CaptureOracle) :=
  [(EvEnhance, cap_a);
   (EvCall "log" [VStr "a"], cap_a); (EvCall "log" [VStr "x"], cap_b);
   (EvScheduled, cap_a);
   (EvCall "log" [VStr "c"], cap_a);
   (EvCleanup, cap_a); (EvCleanupResume 0%nat, cap_a);
   (EvLoadIO 1%nat CacheMiss FetchNotOk, cap_a);
   (EvTask 1%nat, cap_a); (EvDrain 0%nat, cap_a);
   (EvScheduled, cap_a)].

(** A log call whose stack has no third line, then the drain. *)
Definition start_without_frame : list (Event * CaptureOracle) :=
  [(EvEnhance, cap_none); (EvCall "log" [VStr "a"], cap_none); (EvScheduled, cap_none)].

(** a.js answers 404: its entry resumes with no consumer. *)
Definition map_not_found : list (Event * CaptureOracle) :=
  start_load_a ++ [(EvLoadIO 0%nat CacheMiss FetchNotOk, cap_a); (EvTask 0%nat, cap_a)].

(** The same calls where drains are scheduled as microtasks: the callbacks
    of the two log calls find the drain of [cleanup] in progress, and the
    drain scheduled at its end starts before [cleanup] resumes. *)
Definition two_logs_then_cleanup_microtask : list (Event * CaptureOracle) :=
  [(EvCall "log" [VStr "a"], cap_a); (EvCall "log" [VStr "b"], cap_b);
   (EvCleanup, cap_a); (EvScheduled, cap_a); (EvScheduled, cap_a);
   (EvTask 0%nat, cap_a); (EvDrain 0%nat, cap_a); (EvScheduled, cap_a);
   (EvCleanupResume 0%nat, cap_a); (EvTask 1%nat, cap_a); (EvDrain 1%nat, cap_a)].

(** Two log calls queued, source maps disabled, nothing drained yet. *)
Definition two_logs_queued : list (Event * CaptureOracle) :=
  [(EvEnhance, cap_a); (EvCall "log" [VStr "a"], cap_a); (EvCall "warn" [VStr "b"], cap_b)].

(** One consumer cached for a.js, one load of b.js in flight. *)
Definition cached_a_loading_b : State :=
  set_sourceMapCache {[url_a := 7%nat]}
    (set_loads [mkLoad url_b LFetching] (new_enhancer no_options native_console)).

Section Enhancer.

Variable P : Platform.

(** The regular expression match of line 107 and the source-map library
    are the platform's. *)
Variable frame_match : string -> option FrameMatch.
Variable originalPositionFor : Consumer -> string -> string -> PosResult.

(** ** scheduleQueueProcessing (lines 182-191) *)
Definition scheduleQueueProcessing (s : State) : State * Completion :=
  match sched P with
  | SchedIdle => (set_scheduled (S (scheduled s)) s, Normal)
  | SchedMicrotask => (set_scheduled (S (scheduled s)) s, Normal)
  | SchedThrows => (s, Throw)
  end.

(** ** Applying a console function: [f.apply(console, args)]

    A native function prints and returns.  A wrapper runs the arrow
    function of [enhance] (lines 214-230): the [try] block first, and the
    [catch] block when it throws. *)
Fixpoint call_fn (cap : CaptureOracle) (f : fn) (args : list value) (s : State)
  : State * Completion :=
  match f with
  | FUndefined => (s, Throw)
  | Native name => (set_output (output s ++ [mkEmitted name args]) s, Normal)
  | Wrapper cid method original =>
      let attempt :=
        match cap cid with
        | CaptureThrows => (s, Throw)
        | Captured stack =>
            if maxQueueSize (options s) <=? Z.of_nat (length (logQueue s))
            then call_fn cap original (args ++ [VStr queue_full_marker]) s
            else scheduleQueueProcessing
                   (set_logQueue (logQueue s ++ [mkEntry method args stack]) s)
        end in
      match attempt with
      | (s', Normal) => (s', Normal)
      | (s', Throw) => call_fn cap original args s'
      end
  end.

(** ** enhance (lines 209-235) *)
Definition methods : list string := ["log"; "warn"; "error"; "info"; "debug"].

Definition enhance_method (s : State) (method : string) : State :=
  let original := console_get (console s) method in
  let s1 := set_originalMethods (<[method := original]> (originalMethods s)) s in
  let cid := nextId s1 in
  set_nextId (S cid)
    (set_console (<[method := Wrapper cid method original]> (console s1)) s1).

(** setupInterval (lines 197-203) *)
Definition setupInterval (s : State) : State :=
  let id := nextId s in
  set_nextId (S id)
    (set_flushIntervalId (Some id) (set_intervals (id :: intervals s) s)).

Definition enhance (s : State) : State :=
  setupInterval (foldl enhance_method s methods).

(** ** loadSourceMap (lines 42-97) *)

(** What the caller of [loadSourceMap] awaits: a cached consumer, or the
    promise of a load. *)
Inductive LoadCall :=
  | LCHit (c : Consumer)
  | LCPending (load : nat).

(** The synchronous part: the two lookups, and otherwise the start of the
    inner function (suspended at its first [await]) and its registration. *)
Definition loadSourceMap_start (fileUrl : string) (s : State) : State * LoadCall :=
  match sourceMapCache s !! fileUrl with
  | Some c => (s, LCHit c)
  | None =>
      match pendingSourceMaps s !! fileUrl with
      | Some l => (s, LCPending l)
      | None =>
          let l := length (loads s) in
          let s1 := set_loads (loads s ++ [mkLoad fileUrl LFetching]) s in
          (set_pendingSourceMaps (<[fileUrl := l]> (pendingSourceMaps s1)) s1,
           LCPending l)
      end
  end.

Definition settle_load (l : nat) (r : LoadResult) (s : State) : State :=
  match loads s !! l with
  | Some ld => set_loads (<[l := mkLoad (l_url ld) (LSettled r)]> (loads s)) s
  | None => s
  end.

(** [finally] (line 91), then the promise settles. *)
Definition load_finally (fileUrl : string) (l : nat) (r : LoadResult) (s : State) : State :=
  settle_load l r
    (set_pendingSourceMaps (delete fileUrl (pendingSourceMaps s)) s).

(** [catch] (lines 87-89) and [finally]. *)
Definition load_catch (cap : CaptureOracle) (fileUrl : string) (l : nat) (s : State) : State :=
  match call_fn cap (console_get (console s) "error")
          [VStr "Error loading source map:"; error_object] s with
  | (s1, Normal) => load_finally fileUrl l (LResolved None) s1
  | (s1, Throw) => load_finally fileUrl l LRejected s1
  end.

Definition cache_usable (s : State) : bool :=
  useCache (options s) && hasCaches P.

(** Lines 67-75, and the test of line 78. *)
Definition load_network (cap : CaptureOracle) (fileUrl : string) (l : nat)
    (nf : NetFetch) (s : State) : State :=
  match nf with
  | FetchOk c =>
      let s1 := set_sourceMapCache (<[fileUrl := c]> (sourceMapCache s)) s in
      if cache_usable s1
      then set_loads (<[l := mkLoad fileUrl (LWriting c)]> (loads s1)) s1
      else load_finally fileUrl l (LResolved (Some c)) s1
  | _ => load_catch cap fileUrl l s
  end.

(** The load up to the parsed map (lines 54-75). *)
Definition load_io (cap : CaptureOracle) (l : nat) (cr : CacheRead) (nf : NetFetch)
    (s : State) : option State :=
  match loads s !! l with
  | Some (mkLoad fileUrl LFetching) =>
      if cache_usable s then
        match cr with
        | CacheHit c =>
            Some (load_finally fileUrl l (LResolved (Some c))
                    (set_sourceMapCache (<[fileUrl := c]> (sourceMapCache s)) s))
        | CacheMiss => Some (load_network cap fileUrl l nf s)
        | _ => Some (load_catch cap fileUrl l s)
        end
      else Some (load_network cap fileUrl l nf s)
  | _ => None
  end.

(** The write into the platform cache (lines 78-86). *)
Definition load_write (cap : CaptureOracle) (l : nat) (w : CacheWrite) (s : State)
  : option State :=
  match loads s !! l with
  | Some (mkLoad fileUrl (LWriting c)) =>
      match w with
      | CacheWriteOk => Some (load_finally fileUrl l (LResolved (Some c)) s)
      | CacheWriteThrows => Some (load_catch cap fileUrl l s)
      end
  | _ => None
  end.

(** ** getOriginalLocation (lines 104-122) *)

(** Up to [await this.loadSourceMap(fileUrl)]. *)
Definition getOriginalLocation_start (frame : option string) (s : State)
  : State * TaskStatus :=
  if negb (sourceMapEnabled (options s)) then (s, TLocation (frame_value frame))
  else
    match frame with
    | None => (s, TLocationThrew)
    | Some f =>
        match frame_match f with
        | None => (s, TLocation (VStr f))
        | Some m =>
            match loadSourceMap_start (m_fileUrl m) s with
            | (s', LCHit c) => (s', TConsumer m c)
            | (s', LCPending l) => (s', TWaitLoad m l)
            end
        end
    end.

(** From the consumer on. *)
Definition getOriginalLocation_finish (frame : option string) (m : FrameMatch)
    (consumer : option Consumer) : LocResult :=
  match consumer with
  | None => LocOk (frame_value frame)
  | Some c =>
      match originalPositionFor c (m_line m) (m_column m) with
      | PosThrows => LocThrew
      | Pos original =>
          match truthy (p_source original) with
          | None => LocOk (frame_value frame)
          | Some source =>
              LocOk (VStr ("    at " +:+ default (m_fnName m) (truthy (p_name original))
                           +:+ " (" +:+ source +:+ ":" +:+ pretty (p_line original)
                           +:+ ":" +:+ pretty (p_column original) +:+ ")"))
          end
      end
  end.

(** ** processLogEntry (lines 132-152) *)

(** The argument pushed onto [enhancedArgs] (lines 138-145). *)
Definition location_arg (args : list value) (originalLocation : value) : value :=
  let lastArg := last_arg args in
  if typeof_string lastArg then VStr (newline +:+ to_js_string originalLocation)
  else if typeof_object_nonnull lastArg then VObj [("location", originalLocation)]
  else originalLocation.

(** [this.originalMethods.get(method).apply(console, args)] *)
Definition registry_apply (cap : CaptureOracle) (method : string) (args : list value)
    (s : State) : State * Completion :=
  match originalMethods s !! method with
  | Some f => call_fn cap f args s
  | None => (s, Throw)
  end.

(** Up to [await this.getOriginalLocation(stack)]: a new suspended task. *)
Definition processLogEntry_start (d : nat) (s : State) (entry : LogEntry) : State :=
  let '(s1, st) := getOriginalLocation_start (e_stack entry) s in
  set_tasks (tasks s1 ++ [mkTask d entry st]) s1.

(** From the location on: the rest of the [try] block, and the [catch]. *)
Definition processLogEntry_finish (cap : CaptureOracle) (entry : LogEntry)
    (r : LocResult) (s : State) : State * Completion :=
  let attempt :=
    match r with
    | LocOk originalLocation =>
        registry_apply cap (e_method entry)
          (e_args entry ++ [location_arg (e_args entry) originalLocation]) s
    | LocThrew => (s, Throw)
    end in
  match attempt with
  | (s', Normal) => (s', Normal)
  | (s', Throw) => registry_apply cap (e_method entry) (e_args entry) s'
  end.

(** What a suspended task resumes with, when it can resume. *)
Definition task_location (t : Task) (s : State) : option LocResult :=
  match t_status t with
  | TLocation loc => Some (LocOk loc)
  | TLocationThrew => Some LocThrew
  | TConsumer m c => Some (getOriginalLocation_finish (e_stack (t_entry t)) m (Some c))
  | TWaitLoad m l =>
      match loads s !! l with
      | Some (mkLoad _ (LSettled (LResolved oc))) =>
          Some (getOriginalLocation_finish (e_stack (t_entry t)) m oc)
      | Some (mkLoad _ (LSettled LRejected)) => Some LocThrew
      | _ => None
      end
  | TDone | TRejected => None
  end.

Definition set_task_status (k : nat) (t : Task) (st : TaskStatus) (s : State) : State :=
  set_tasks (<[k := mkTask (t_drain t) (t_entry t) st]> (tasks s)) s.

Definition task_step (cap : CaptureOracle) (k : nat) (s : State) : option State :=
  match tasks s !! k with
  | Some t =>
      match task_location t s with
      | Some r =>
          match processLogEntry_finish cap (t_entry t) r s with
          | (s', Normal) => Some (set_task_status k t TDone s')
          | (s', Throw) => Some (set_task_status k t TRejected s')
          end
      | None => None
      end
  | None => None
  end.

(** ** processQueue (lines 158-176) *)

Inductive QueueCall :=
  | QGuard              (* returned at line 159 *)
  | QDrain (d : nat).   (* suspended at [await Promise.all(...)] *)

Definition processQueue_start (s : State) : State * QueueCall :=
  if isProcessing s || (length (logQueue s) =? 0)%nat then (s, QGuard)
  else
    let s1 := set_isProcessing true s in
    let n := Z.to_nat (batchSize (options s1)) in
    let batch := take n (logQueue s1) in
    let s2 := set_logQueue (drop n (logQueue s1)) s1 in
    let d := length (drains s2) in
    let s3 := set_drains (drains s2 ++ [DRunning]) s2 in
    (foldl (processLogEntry_start d) s3 batch, QDrain d).

Definition tasks_of (d : nat) (s : State) : list Task :=
  filter (fun t => t_drain t = d) (tasks s).

Definition is_done (t : Task) : bool :=
  match t_status t with TDone => true | _ => false end.

Definition is_rejected (t : Task) : bool :=
  match t_status t with TRejected => true | _ => false end.

(** [Promise.all]: rejected as soon as one promise is, fulfilled when all are. *)
Inductive AllResult := AllPending | AllFulfilled | AllRejected.

Definition promise_all (ts : list Task) : AllResult :=
  if existsb is_rejected ts then AllRejected
  else if forallb is_done ts then AllFulfilled
  else AllPending.

Definition settle_drain (d : nat) (st : DrainStatus) (s : State) : State :=
  set_drains (<[d := st]> (drains s)) s.

(** After [Promise.all] settled: [catch], [finally], lines 172-175. *)
Definition processQueue_finish (cap : CaptureOracle) (d : nat) (all : AllResult)
    (s : State) : State :=
  let '(s1, r1) :=
    match all with
    | AllRejected =>
        call_fn cap (console_get (console s) "error")
          [VStr "Error processing log queue:"; error_object] s
    | _ => (s, Normal)
    end in
  let s2 := set_isProcessing false s1 in
  match r1 with
  | Throw => settle_drain d DRejected s2
  | Normal =>
      if (0 <? length (logQueue s2))%nat then
        match scheduleQueueProcessing s2 with
        | (s3, Normal) => settle_drain d DResolved s3
        | (s3, Throw) => settle_drain d DRejected s3
        end
      else settle_drain d DResolved s2
  end.

Definition drain_step (cap : CaptureOracle) (d : nat) (s : State) : option State :=
  match drains s !! d with
  | Some DRunning =>
      match promise_all (tasks_of d s) with
      | AllPending => None
      | all => Some (processQueue_finish cap d all s)
      end
  | _ => None
  end.

(** ** cleanup (lines 240-260) *)

Definition clearInterval (id : option nat) (s : State) : State :=
  match id with
  | Some i => set_intervals (filter (fun j => j ≠ i) (intervals s)) s
  | None => s
  end.

(** Lines 256-258: every entry of the registry is written back. *)
Definition restore_console (registry c : gmap string fn) : gmap string fn :=
  map_fold (fun method original acc => <[method := original]> acc) c registry.

(** Lines 248-259, which run without suspension. *)
Definition cleanup_finish (s : State) : State :=
  let s1 := set_destroyed (destroyed s ++ (map_to_list (sourceMapCache s)).*2) s in
  let s2 := set_sourceMapCache ∅ s1 in
  let s3 := set_pendingSourceMaps ∅ s2 in
  let s4 := set_console (restore_console (originalMethods s3) (console s3)) s3 in
  set_originalMethods ∅ s4.

(** Up to [await this.processQueue()], or to the end when the queue is empty. *)
Definition cleanup_start (s : State) : State :=
  let s1 := clearInterval (flushIntervalId s) s in
  if (0 <? length (logQueue s1))%nat then
    match processQueue_start s1 with
    | (s2, QGuard) => set_cleanups (cleanups s2 ++ [CAwait None]) s2
    | (s2, QDrain d) => set_cleanups (cleanups s2 ++ [CAwait (Some d)]) s2
    end
  else
    let s2 := cleanup_finish s1 in
    set_cleanups (cleanups s2 ++ [CDone]) s2.

Definition set_cleanup (k : nat) (st : CleanupStatus) (s : State) : State :=
  set_cleanups (<[k := st]> (cleanups s)) s.

(** The resumption after [await this.processQueue()]. *)
Definition cleanup_resume (k : nat) (s : State) : option State :=
  match cleanups s !! k with
  | Some (CAwait None) => Some (set_cleanup k CDone (cleanup_finish s))
  | Some (CAwait (Some d)) =>
      match drains s !! d with
      | Some DResolved => Some (set_cleanup k CDone (cleanup_finish s))
      | Some DRejected => Some (set_cleanup k CThrew s)
      | _ => None
      end
  | _ => None
  end.

(** ** The machine *)

(** One event; [None] when it is not enabled in [s]. *)
Definition step (cap : CaptureOracle) (ev : Event) (s : State) : option State :=
  match ev with
  | EvCall method args =>
      Some (call_fn cap (console_get (console s) method) args s).1
  | EvEnhance => Some (enhance s)
  | EvCleanup => Some (cleanup_start s)
  | EvCleanupResume k => cleanup_resume k s
  | EvScheduled =>
      match scheduled s with
      | S n => Some (processQueue_start (set_scheduled n s)).1
      | O => None
      end
  | EvInterval id =>
      if bool_decide (id ∈ intervals s) then
        if (0 <? length (logQueue s))%nat then Some (processQueue_start s).1
        else Some s
      else None
  | EvLoadIO l cr nf => load_io cap l cr nf s
  | EvLoadWrite l w => load_write cap l w s
  | EvTask k => task_step cap k s
  | EvDrain d => drain_step cap d s
  end.

(** A run: events with the captures made during each. *)
Fixpoint run (evs : list (Event * CaptureOracle)) (s : State) : option State :=
  match evs with
  | [] => Some s
  | (ev, cap) :: rest =>
      match step cap ev s with
      | Some s' => run rest s'
      | None => None
      end
  end.

(** ** Predicates used by the statements *)

(** [s'] differs from [s] at most in the queue, the count of scheduled
    callbacks and the output. *)
Definition only_queue (s s' : State) : Prop :=
  s' = set_output (output s') (set_scheduled (scheduled s') (set_logQueue (logQueue s') s)).

(** The extra argument as the interface describes it: chosen by the last
    original argument. *)
Definition described_extra (args : list value) (location : value) : value :=
  match last args with
  | Some (VStr _) => VStr (newline +:+ to_js_string location)
  | Some (VObj _) => VObj [("location", location)]
  | _ => location
  end.

(** [s'] has the registry, the console, the options, the timers and the
    cleanup calls of [s]. *)
Definition keeps_host (s s' : State) : Prop :=
  originalMethods s' = originalMethods s
  /\ console s' = console s
  /\ options s' = options s
  /\ intervals s' = intervals s
  /\ flushIntervalId s' = flushIntervalId s
  /\ nextId s' = nextId s
  /\ cleanups s' = cleanups s.

(** Events other than [enhance] and those of [cleanup]. *)
Definition quiet (ev : Event) : bool :=
  negb (is_enhance ev) && negb (is_cleanup ev).

(** The queue holds at most [maxQueueSize] entries. *)
Definition queue_bounded (s : State) : Prop :=
  Z.of_nat (length (logQueue s)) <= maxQueueSize (options s).

(** A projection of the state that console calls cannot change. *)
Definition call_frame {A} (proj : State -> A) : Prop :=
  (forall v s, proj (set_logQueue v s) = proj s)
  /\ (forall v s, proj (set_output v s) = proj s)
  /\ (forall v s, proj (set_scheduled v s) = proj s).

(** A projection that starting or finishing a drain cannot change. *)
Definition drain_frame {A} (proj : State -> A) : Prop :=
  (forall v s, proj (set_isProcessing v s) = proj s)
  /\ (forall v s, proj (set_drains v s) = proj s).

Definition tasks_frame {A} (proj : State -> A) : Prop :=
  forall v s, proj (set_tasks v s) = proj s.

Definition loads_frame {A} (proj : State -> A) : Prop :=
  (forall v s, proj (set_loads v s) = proj s)
  /\ (forall v s, proj (set_pendingSourceMaps v s) = proj s).

(** The console of the pre-install state is back, or still on record:
    the registry maps the five methods to [orig], or the registry is empty
    and the console holds [orig] again. *)
Definition console_restored (orig : string -> fn) (s : State) : Prop :=
  originalMethods s = ∅
  /\ forall m, m ∈ methods -> console_get (console s) m = orig m.

Definition console_on_record (orig : string -> fn) (s : State) : Prop :=
  forall m, m ∈ methods -> originalMethods s !! m = Some (orig m).

(** A cleanup started at index [n0] or later that completed has restored
    the console. *)
Definition cleanup_inv (n0 : nat) (orig : string -> fn) (s : State) : Prop :=
  (console_on_record orig s \/ console_restored orig s)
  /\ forall k, (n0 <= k)%nat -> cleanups s !! k = Some CDone -> console_restored orig s.

(** The flush timer of the instance is not running. *)
Definition timer_cleared (s : State) : Prop :=
  forall i, flushIntervalId s = Some i -> i ∉ intervals s.

(** A load whose promise has not settled. *)
Definition in_flight (ph : LoadPhase) : bool :=
  match ph with LSettled _ => false | _ => true end.

(** Every load in flight is the one registered for its URL. *)
Definition loads_registered (s : State) : Prop :=
  forall l u ph,
    loads s !! l = Some (mkLoad u ph) -> in_flight ph = true ->
    pendingSourceMaps s !! u = Some l.

Definition cache_frame {A} (proj : State -> A) : Prop :=
  forall v s, proj (set_sourceMapCache v s) = proj s.

(** As long as [console.error] returns and no drain started since index
    [d0] is rejected, no cleanup started since index [n0] throws. *)
Definition no_throw_inv (n0 d0 : nat) (s : State) : Prop :=
  callable (console_get (console s) "error") = true
  /\ (d0 <= length (drains s))%nat
  /\ (forall d, (d0 <= d)%nat -> drains s !! d <> Some DRejected)
  /\ (forall k d, (n0 <= k)%nat -> cleanups s !! k = Some (CAwait (Some d)) -> (d0 <= d)%nat)
  /\ (forall k, (n0 <= k)%nat -> cleanups s !! k <> Some CThrew).


(** The task a log entry becomes when source maps are disabled: its
    location is its own frame. *)
Definition raw_task (d : nat) (entry : LogEntry) : Task :=
  mkTask d entry (TLocation (frame_value (e_stack entry))).

(** A task that never consulted a source map. *)
Definition task_is_raw (t : Task) : Prop :=
  t_status t = TLocation (frame_value (e_stack (t_entry t)))
  \/ t_status t = TDone \/ t_status t = TRejected.

(** Source maps are disabled and nothing of the resolver has been used. *)
Definition resolver_unused (s : State) : Prop :=
  sourceMapEnabled (options s) = false
  /\ loads s = [] /\ pendingSourceMaps s = ∅ /\ sourceMapCache s = ∅
  /\ Forall task_is_raw (tasks s).

(** How many drains are running. *)
Fixpoint count_running (l : list DrainStatus) : nat :=
  match l with
  | [] => 0
  | DRunning :: l' => S (count_running l')
  | _ :: l' => count_running l'
  end.

(** The in-progress flag counts the running drains. *)
Definition one_drain_inv (s : State) : Prop :=
  count_running (drains s) = if isProcessing s then 1%nat else 0%nat.

(** The name of the native function registered for a method. *)
Definition native_name (registry : gmap string fn) (method : string) : string :=
  match registry !! method with
  | Some (Native name) => name
  | _ => ""
  end.

(** What a native registered method prints for an entry whose location is
    its own frame. *)
Definition raw_emission (registry : gmap string fn) (entry : LogEntry) : Emitted :=
  mkEmitted (native_name registry (e_method entry))
    (e_args entry ++ [location_arg (e_args entry) (frame_value (e_stack entry))]).

Definition done_task (d : nat) (entry : LogEntry) : Task := mkTask d entry TDone.

(** The registry holds a native function for the method of every entry. *)
Definition natively_registered (registry : gmap string fn) (entries : list LogEntry) : Prop :=
  Forall (fun e => exists name, registry !! e_method e = Some (Native name)) entries.

(** The resumptions of [n] tasks from index [k0] on, in order. *)
Definition task_events (cap : CaptureOracle) (k0 n : nat) : list (Event * CaptureOracle) :=
  (fun i => (EvTask (k0 + i), cap)) <$> seq 0 n.

(** Every task belongs to a drain that exists. *)
Definition tasks_of_known_drains (s : State) : Prop :=
  Forall (fun t => (t_drain t < length (drains s))%nat) (tasks s).

(** The read of the platform cache did not give a consumer. *)
Definition cache_read_fails (cr : CacheRead) : bool :=
  match cr with CacheHit _ => false | _ => true end.

(** The fetch did not give a consumer. *)
Definition fetch_fails (nf : NetFetch) : bool :=
  match nf with FetchOk _ => false | _ => true end.

(** The entry a call event leaves in the queue, when the console holds a
    wrapper for the method and the stack is captured. *)
Definition queued_entry (c : gmap string fn) (e : Event * CaptureOracle) : option LogEntry :=
  match e with
  | (EvCall m args, cap) =>
      match console_get c m with
      | Wrapper cid method _ =>
          match cap cid with
          | Captured stack => Some (mkEntry method args stack)
          | CaptureThrows => None
          end
      | _ => None
      end
  | _ => None
  end.

(** The location [getOriginalLocation] builds from a position of the map. *)
Definition rewritten_location (fnName source : string) (line column : Z) : value :=
  VStr ("    at " +:+ fnName +:+ " (" +:+ source +:+ ":" +:+ pretty line +:+ ":"
        +:+ pretty column +:+ ")").

(** The entries accepted so far, in the order of acceptance: those handed
    to [processLogEntry], then those still in the queue. *)
Definition intake (s : State) : list LogEntry :=
  (t_entry <$> tasks s) ++ logQueue s.

(** * Properties *)

(** ** What a console call can change *)

Lemma only_queue_refl s : only_queue s s.
Proof. by destruct s. Qed.

Lemma only_queue_trans s1 s2 s3 : only_queue s1 s2 -> only_queue s2 s3 -> only_queue s1 s3.
Proof. unfold only_queue. intros H1 H2. rewrite H2, H1. by destruct s1. Qed.

Lemma schedule_only_queue s : only_queue s (scheduleQueueProcessing s).1.
Proof. unfold scheduleQueueProcessing. destruct (sched P), s; reflexivity. Qed.

Lemma call_fn_only_queue cap f : forall args s, only_queue s (call_fn cap f args s).1.
Proof.
  induction f as [|name|cid method original IH]; intros args s; cbn [call_fn].
  - apply only_queue_refl.
  - by destruct s.
  - assert (Hq : forall st, only_queue s
              (scheduleQueueProcessing (set_logQueue (logQueue s ++ [mkEntry method args st]) s)).1).
    { intros st. eapply only_queue_trans; [|apply schedule_only_queue]. by destruct s. }
    destruct (cap cid) as [|stack]; [apply IH|].
    destruct (maxQueueSize (options s) <=? Z.of_nat (length (logQueue s))).
    + pose proof (IH (args ++ [VStr queue_full_marker]) s) as H1.
      destruct (call_fn cap original (args ++ [VStr queue_full_marker]) s) as [s1 []];
        [exact H1|]. eapply only_queue_trans; [exact H1|apply IH].
    + pose proof (Hq stack) as H1.
      destruct (scheduleQueueProcessing _) as [s1 []];
        [exact H1|]. eapply only_queue_trans; [exact H1|apply IH].
Qed.

(** A callable function never throws. *)
Lemma call_fn_callable cap f :
  forall args s, callable f = true -> (call_fn cap f args s).2 = Normal.
Proof.
  induction f as [|name|cid method original IH]; intros args s Hc; cbn [call_fn].
  - discriminate.
  - reflexivity.
  - cbn in Hc.
    destruct (cap cid) as [|stack]; [by apply IH|].
    destruct (maxQueueSize (options s) <=? Z.of_nat (length (logQueue s))).
    + pose proof (IH (args ++ [VStr queue_full_marker]) s Hc) as H1.
      destruct (call_fn cap original (args ++ [VStr queue_full_marker]) s) as [s1 []];
        [reflexivity|discriminate].
    + destruct (scheduleQueueProcessing _) as [s1 []]; [reflexivity|by apply IH].
Qed.

(** ** The interception wrapper (lines 214-230) *)

(** C7. A call of an installed wrapper never throws to the application: when
    the stack capture throws, or when the entry was pushed and scheduling
    throws, the wrapper ends by applying the saved original to the
    caller's arguments, unmodified. *)
Theorem wrapper_never_throws cap cid method original args s :
  callable original = true ->
  (call_fn cap (Wrapper cid method original) args s).2 = Normal
  /\ (cap cid = CaptureThrows ->
      call_fn cap (Wrapper cid method original) args s = call_fn cap original args s)
  /\ (forall stack, cap cid = Captured stack ->
      Z.of_nat (length (logQueue s)) < maxQueueSize (options s) ->
      sched P = SchedThrows ->
      call_fn cap (Wrapper cid method original) args s
      = call_fn cap original args
          (set_logQueue (logQueue s ++ [mkEntry method args stack]) s)).
Proof.
  intros Hc. split; [by apply call_fn_callable|]. split.
  - intros Hcap. cbn [call_fn]. by rewrite Hcap.
  - intros stack Hcap Hlen Hs. cbn [call_fn]. rewrite Hcap.
    destruct (Z.leb_spec (maxQueueSize (options s)) (Z.of_nat (length (logQueue s)))); [lia|].
    unfold scheduleQueueProcessing. by rewrite Hs.
Qed.

(** ** processLogEntry (lines 132-152) *)

Lemma last_arg_last (args : list value) :
  last_arg args = default VUndefined (last args).
Proof.
  unfold last_arg. induction args as [|a [|b args] IH]; [done..|].
  exact IH.
Qed.

Lemma location_arg_described args location :
  location_arg args location = described_extra args location.
Proof.
  unfold location_arg, described_extra. rewrite last_arg_last.
  destruct (last args) as [[]|]; reflexivity.
Qed.

(** C9, as the code has it. When the location of an entry is obtained and
    the registered method returns, processing the entry is one call of the
    registered method on the original arguments followed by exactly one more
    argument, chosen by the last original argument: a string gets the
    newline and the location as a new string, an object gets the object
    holding the location, anything else (and an empty argument list) gets
    the location itself. When obtaining the location throws, the [catch]
    calls the registered method on the original arguments alone; this is
    what happens to every entry whose stack line is undefined while source
    maps are enabled. When the registered method throws on the extended
    arguments, the [catch] calls it again on the original arguments. *)
Theorem processLogEntry_appends_location cap entry r f s :
  originalMethods s !! e_method entry = Some f ->
  match r with
  | LocOk location =>
      length (e_args entry ++ [described_extra (e_args entry) location])
      = S (length (e_args entry))
      /\ ((call_fn cap f (e_args entry ++ [described_extra (e_args entry) location]) s).2
          = Normal ->
          processLogEntry_finish cap entry r s
          = call_fn cap f (e_args entry ++ [described_extra (e_args entry) location]) s
          /\ forall name, f = Native name ->
               output (processLogEntry_finish cap entry r s).1
               = output s ++ [mkEmitted name
                                (e_args entry
                                 ++ [described_extra (e_args entry) location])])
      /\ ((call_fn cap f (e_args entry ++ [described_extra (e_args entry) location]) s).2
          = Throw ->
          processLogEntry_finish cap entry r s
          = call_fn cap f (e_args entry)
              (call_fn cap f
                 (e_args entry ++ [described_extra (e_args entry) location]) s).1)
  | LocThrew =>
      processLogEntry_finish cap entry r s = call_fn cap f (e_args entry) s
      /\ forall name, f = Native name ->
           output (processLogEntry_finish cap entry r s).1
           = output s ++ [mkEmitted name (e_args entry)]
  end
  /\ (sourceMapEnabled (options s) = true -> e_stack entry = None ->
      forall d k t,
        tasks (processLogEntry_start d s entry) !! k = Some t -> t_entry t = entry ->
        (length (tasks s) <= k)%nat ->
        task_location t (processLogEntry_start d s entry) = Some LocThrew).
Proof.
  intros Hf. split.
  - destruct r as [location|].
    + assert (He : processLogEntry_finish cap entry (LocOk location) s
        = match call_fn cap f
                  (e_args entry ++ [described_extra (e_args entry) location]) s with
          | (s', Normal) => (s', Normal)
          | (s', Throw) => registry_apply cap (e_method entry) (e_args entry) s'
          end).
      { unfold processLogEntry_finish, registry_apply at 1.
        by rewrite Hf, location_arg_described. }
      split; [rewrite length_app; cbn; lia|]. split.
      * intros Hn. rewrite He.
        destruct (call_fn cap f _ s) as [s1 []] eqn:E; [|discriminate].
        split; [reflexivity|]. intros name ->. cbn in E. injection E as <-.
        by destruct s.
      * intros Ht. rewrite He.
        pose proof (call_fn_only_queue cap f
                      (e_args entry ++ [described_extra (e_args entry) location]) s)
          as Hq.
        destruct (call_fn cap f _ s) as [s1 []]; [discriminate|].
        cbn in Hq |- *. unfold registry_apply.
        assert (originalMethods s1 = originalMethods s) as ->
          by (rewrite Hq; by destruct s).
        by rewrite Hf.
    + assert (He : processLogEntry_finish cap entry LocThrew s
                   = call_fn cap f (e_args entry) s).
      { unfold processLogEntry_finish, registry_apply. by rewrite Hf. }
      split; [exact He|]. intros name ->. rewrite He. cbn. by destruct s.
  - intros Hen Hst d k t Hk Het Hle.
    unfold processLogEntry_start, getOriginalLocation_start in Hk.
    rewrite Hen, Hst in Hk. cbn in Hk.
    replace (tasks (set_tasks (tasks s ++ [mkTask d entry TLocationThrew]) s))
      with (tasks s ++ [mkTask d entry TLocationThrew]) in Hk by (by destruct s).
    rewrite lookup_app_r in Hk by exact Hle.
    destruct (k - length (tasks s))%nat as [|n]; [|cbn in Hk; discriminate].
    injection Hk as <-. reflexivity.
Qed.

(** ** enhance (lines 209-235) *)

Lemma methods_cases (m : string) :
  m ∈ methods -> m = "log" \/ m = "warn" \/ m = "error" \/ m = "info" \/ m = "debug".
Proof. unfold methods. rewrite !elem_of_cons, elem_of_nil. tauto. Qed.

(** After [enhance], the registry holds what the console held and the
    console holds a new wrapper around it. *)
Lemma enhance_spec s m :
  m ∈ methods ->
  originalMethods (enhance s) !! m = Some (console_get (console s) m)
  /\ exists cid, (nextId s <= cid)%nat
     /\ console (enhance s) !! m = Some (Wrapper cid m (console_get (console s) m)).
Proof.
  intros Hm. destruct s. unfold enhance, setupInterval, methods, enhance_method, console_get.
  cbn.
  destruct (methods_cases m Hm) as [->|[->|[->|[->| ->]]]];
    repeat (rewrite lookup_insert_eq || (rewrite lookup_insert_ne by done));
    (split; [reflexivity|]); eexists; (split; [|reflexivity]); lia.
Qed.

Lemma enhance_other s m :
  m ∉ methods ->
  originalMethods (enhance s) !! m = originalMethods s !! m
  /\ console (enhance s) !! m = console s !! m.
Proof.
  intros Hm. destruct s. unfold enhance, setupInterval, methods, enhance_method, console_get.
  cbn. unfold methods in Hm. rewrite !not_elem_of_cons in Hm.
  destruct Hm as (? & ? & ? & ? & ? & _).
  by repeat (rewrite lookup_insert_ne by done).
Qed.

(** ** Events that leave the registry and the console alone *)

Lemma keeps_host_refl s : keeps_host s s.
Proof. by repeat split. Qed.

Lemma keeps_host_trans s1 s2 s3 :
  keeps_host s1 s2 -> keeps_host s2 s3 -> keeps_host s1 s3.
Proof.
  unfold keeps_host. intros (?&?&?&?&?&?&?) (?&?&?&?&?&?&?).
  repeat split; congruence.
Qed.

Lemma only_queue_keeps_host s s' : only_queue s s' -> keeps_host s s'.
Proof. unfold only_queue. intros ->. by destruct s. Qed.

Lemma call_fn_keeps_host cap f args s : keeps_host s (call_fn cap f args s).1.
Proof. apply only_queue_keeps_host, call_fn_only_queue. Qed.

Lemma loadSourceMap_start_keeps_host u s : keeps_host s (loadSourceMap_start u s).1.
Proof.
  unfold loadSourceMap_start. repeat case_match; by destruct s.
Qed.

Lemma getOriginalLocation_start_keeps_host frame s :
  keeps_host s (getOriginalLocation_start frame s).1.
Proof.
  unfold getOriginalLocation_start.
  destruct (negb _); [apply keeps_host_refl|].
  destruct frame as [f|]; [|apply keeps_host_refl].
  destruct (frame_match f) as [m|]; [|apply keeps_host_refl].
  pose proof (loadSourceMap_start_keeps_host (m_fileUrl m) s) as H.
  by destruct (loadSourceMap_start _ s) as [s' []].
Qed.

Lemma processLogEntry_start_keeps_host d s entry :
  keeps_host s (processLogEntry_start d s entry).
Proof.
  unfold processLogEntry_start.
  pose proof (getOriginalLocation_start_keeps_host (e_stack entry) s) as H.
  destruct (getOriginalLocation_start _ s) as [s1 st]. cbn in H.
  eapply keeps_host_trans; [exact H|]. by destruct s1.
Qed.

Lemma foldl_keeps_host {A} (f : State -> A -> State) (l : list A) :
  (forall s a, keeps_host s (f s a)) -> forall s, keeps_host s (foldl f s l).
Proof.
  intros Hf. induction l as [|a l IH]; intros s; cbn.
  - apply keeps_host_refl.
  - eapply keeps_host_trans; [apply Hf|apply IH].
Qed.

Lemma processQueue_start_keeps_host s : keeps_host s (processQueue_start s).1.
Proof.
  unfold processQueue_start. case_match; [apply keeps_host_refl|]. cbn.
  eapply keeps_host_trans;
    [|apply foldl_keeps_host; intros; apply processLogEntry_start_keeps_host].
  by destruct s.
Qed.

Lemma load_finally_keeps_host u l r s : keeps_host s (load_finally u l r s).
Proof.
  unfold load_finally, settle_load. destruct s; cbn. by case_match.
Qed.

Lemma load_catch_keeps_host cap u l s : keeps_host s (load_catch cap u l s).
Proof.
  unfold load_catch.
  pose proof (call_fn_keeps_host cap (console_get (console s) "error")
                [VStr "Error loading source map:"; error_object] s) as H.
  destruct (call_fn _ _ _ s) as [s1 []]; cbn in H;
    (eapply keeps_host_trans; [exact H|apply load_finally_keeps_host]).
Qed.

Lemma load_network_keeps_host cap u l nf s : keeps_host s (load_network cap u l nf s).
Proof.
  unfold load_network. destruct nf; try apply load_catch_keeps_host.
  case_match.
  - by destruct s.
  - eapply keeps_host_trans; [|apply load_finally_keeps_host]. by destruct s.
Qed.

Lemma load_io_keeps_host cap l cr nf s s' :
  load_io cap l cr nf s = Some s' -> keeps_host s s'.
Proof.
  unfold load_io. intros H.
  destruct (loads s !! l) as [[u []]|]; try discriminate.
  destruct (cache_usable s).
  - destruct cr; injection H as <-;
      try apply load_catch_keeps_host; try apply load_network_keeps_host.
    eapply keeps_host_trans; [|apply load_finally_keeps_host]. by destruct s.
  - injection H as <-. apply load_network_keeps_host.
Qed.

Lemma load_write_keeps_host cap l w s s' :
  load_write cap l w s = Some s' -> keeps_host s s'.
Proof.
  unfold load_write. intros H.
  destruct (loads s !! l) as [[u []]|]; try discriminate.
  destruct w; injection H as <-;
    [apply load_finally_keeps_host|apply load_catch_keeps_host].
Qed.

Lemma registry_apply_only_queue cap m args s :
  only_queue s (registry_apply cap m args s).1.
Proof.
  unfold registry_apply. destruct (originalMethods s !! m).
  - apply call_fn_only_queue.
  - apply only_queue_refl.
Qed.

Lemma processLogEntry_finish_only_queue cap entry r s :
  only_queue s (processLogEntry_finish cap entry r s).1.
Proof.
  unfold processLogEntry_finish. destruct r as [loc|].
  - pose proof (registry_apply_only_queue cap (e_method entry)
                  (e_args entry ++ [location_arg (e_args entry) loc]) s) as H.
    destruct (registry_apply _ _ _ s) as [s1 []]; [exact H|].
    eapply only_queue_trans; [exact H|apply registry_apply_only_queue].
  - apply registry_apply_only_queue.
Qed.

Lemma task_step_keeps_host cap k s s' :
  task_step cap k s = Some s' -> keeps_host s s'.
Proof.
  unfold task_step. intros H.
  destruct (tasks s !! k) as [t|]; [|discriminate].
  destruct (task_location t s) as [r|]; [|discriminate].
  pose proof (only_queue_keeps_host _ _ (processLogEntry_finish_only_queue cap (t_entry t) r s)) as Hq.
  destruct (processLogEntry_finish _ _ _ s) as [s1 []]; injection H as <-;
    (eapply keeps_host_trans; [exact Hq|]); by destruct s1.
Qed.

Lemma schedule_keeps_host s : keeps_host s (scheduleQueueProcessing s).1.
Proof. apply only_queue_keeps_host, schedule_only_queue. Qed.

Lemma processQueue_finish_keeps_host cap d all s :
  keeps_host s (processQueue_finish cap d all s).
Proof.
  unfold processQueue_finish.
  assert (H : keeps_host s
    (match all with
     | AllRejected => call_fn cap (console_get (console s) "error")
                        [VStr "Error processing log queue:"; error_object] s
     | _ => (s, Normal)
     end).1).
  { destruct all; try apply keeps_host_refl. apply call_fn_keeps_host. }
  destruct (match all with AllRejected => _ | _ => _ end) as [s1 r1]. cbn in H.
  eapply keeps_host_trans; [exact H|].
  destruct r1.
  - case_match.
    + pose proof (schedule_keeps_host (set_isProcessing false s1)) as H2.
      destruct (scheduleQueueProcessing _) as [s3 []]; cbn in H2;
        (eapply keeps_host_trans; [|eapply keeps_host_trans; [exact H2|]]);
        first [by destruct s1|by destruct s3].
    + by destruct s1.
  - by destruct s1.
Qed.

Lemma drain_step_keeps_host cap d s s' :
  drain_step cap d s = Some s' -> keeps_host s s'.
Proof.
  unfold drain_step. intros H.
  destruct (drains s !! d) as [[]|]; try discriminate.
  destruct (promise_all _); try discriminate; injection H as <-;
    apply processQueue_finish_keeps_host.
Qed.

(** Every event but [enhance] and the two of [cleanup] keeps the registry
    and the console. *)
Lemma step_keeps_host cap ev s s' :
  is_enhance ev = false -> is_cleanup ev = false ->
  step cap ev s = Some s' -> keeps_host s s'.
Proof.
  intros He Hc H. destruct ev; try discriminate; cbn in H.
  - injection H as <-. apply call_fn_keeps_host.
  - destruct (scheduled s) as [|n] eqn:E; [discriminate|]. injection H as <-.
    eapply keeps_host_trans; [|apply processQueue_start_keeps_host]. by destruct s.
  - case_match; [|discriminate]. case_match; injection H as <-.
    + apply processQueue_start_keeps_host.
    + apply keeps_host_refl.
  - by eapply load_io_keeps_host.
  - by eapply load_write_keeps_host.
  - by eapply task_step_keeps_host.
  - by eapply drain_step_keeps_host.
Qed.

(** ** Runs *)

Lemma run_invariant (allowed : Event -> bool) (Inv : State -> Prop) :
  (forall cap ev s s', allowed ev = true -> step cap ev s = Some s' -> Inv s -> Inv s') ->
  forall evs s s',
    Forall (fun e => allowed e.1 = true) evs ->
    run evs s = Some s' -> Inv s -> Inv s'.
Proof.
  intros Hstep. induction evs as [|[ev cap] evs IH]; intros s s' Hall Hrun Hinv.
  - by injection Hrun as <-.
  - cbn in Hrun. destruct (step cap ev s) as [s1|] eqn:E; [|discriminate].
    inversion Hall as [|? ? Hev Hrest]; subst.
    eapply IH; [exact Hrest|exact Hrun|]. by eapply Hstep.
Qed.

Lemma run_app evs1 evs2 s :
  run (evs1 ++ evs2) s = run evs1 s ≫= run evs2.
Proof.
  revert s. induction evs1 as [|[ev cap] evs1 IH]; intros s; cbn; [done|].
  destruct (step cap ev s); cbn; [apply IH|done].
Qed.

Lemma quiet_run_keeps_host evs s s' :
  Forall (fun e => quiet e.1 = true) evs -> run evs s = Some s' -> keeps_host s s'.
Proof.
  intros Hall Hrun.
  apply (run_invariant quiet (keeps_host s)) with (evs := evs) (s := s);
    [|done|done|apply keeps_host_refl].
  intros cap ev s1 s2 Hq Hs Hk. eapply keeps_host_trans; [exact Hk|].
  unfold quiet in Hq. apply andb_prop in Hq as [H1 H2].
  apply negb_true_iff in H1, H2. by eapply step_keeps_host.
Qed.

(** C2, as the code has it. [enhance] records whatever the console holds when
    it is called.  After one call the registry maps each method to the
    pre-install function, and keeps doing so through every event other than
    [enhance] and [cleanup]; a second [enhance] then replaces that mapping
    with the wrapper installed by the first. *)
Theorem registry_tracks_last_enhance s m evs s' :
  m ∈ methods ->
  Forall (fun e => quiet e.1 = true) evs ->
  run evs (enhance s) = Some s' ->
  originalMethods s' !! m = Some (console_get (console s) m)
  /\ exists cid,
       originalMethods (enhance s') !! m
       = Some (Wrapper cid m (console_get (console s) m)).
Proof.
  intros Hm Hq Hrun.
  destruct (quiet_run_keeps_host evs _ _ Hq Hrun) as (Hreg & Hcon & _).
  destruct (enhance_spec s m Hm) as (H1 & cid & _ & H2).
  split; [by rewrite Hreg|].
  exists cid. destruct (enhance_spec s' m Hm) as (H3 & _).
  rewrite H3. unfold console_get at 1. by rewrite Hcon, H2.
Qed.

(** ** The bound of the queue *)

Lemma schedule_queue s :
  logQueue (scheduleQueueProcessing s).1 = logQueue s
  /\ options (scheduleQueueProcessing s).1 = options s.
Proof. unfold scheduleQueueProcessing. by destruct (sched P), s. Qed.

Lemma call_fn_bounded cap f :
  forall args s, queue_bounded s -> queue_bounded (call_fn cap f args s).1.
Proof.
  induction f as [|name|cid method original IH]; intros args s Hb; cbn [call_fn].
  - exact Hb.
  - by destruct s.
  - destruct (cap cid) as [|stack]; [by apply IH|].
    destruct (Z.leb_spec (maxQueueSize (options s)) (Z.of_nat (length (logQueue s)))) as [Hfull|Hroom].
    + pose proof (IH (args ++ [VStr queue_full_marker]) s Hb) as H1.
      destruct (call_fn cap original (args ++ [VStr queue_full_marker]) s) as [s1 []];
        [exact H1|by apply IH].
    + assert (H1 : queue_bounded
        (scheduleQueueProcessing
           (set_logQueue (logQueue s ++ [mkEntry method args stack]) s)).1).
      { unfold queue_bounded.
        destruct (schedule_queue (set_logQueue (logQueue s ++ [mkEntry method args stack]) s))
          as [-> ->].
        destruct s; cbn in *. rewrite length_app. cbn. lia. }
      destruct (scheduleQueueProcessing _) as [s1 []]; [exact H1|by apply IH].
Qed.

Lemma registry_apply_bounded cap m args s :
  queue_bounded s -> queue_bounded (registry_apply cap m args s).1.
Proof.
  unfold registry_apply. destruct (originalMethods s !! m); [apply call_fn_bounded|done].
Qed.

Lemma processLogEntry_finish_bounded cap entry r s :
  queue_bounded s -> queue_bounded (processLogEntry_finish cap entry r s).1.
Proof.
  intros Hb. unfold processLogEntry_finish. destruct r as [loc|].
  - pose proof (registry_apply_bounded cap (e_method entry)
                  (e_args entry ++ [location_arg (e_args entry) loc]) s Hb) as H.
    destruct (registry_apply _ _ _ s) as [s1 []]; [exact H|].
    by apply registry_apply_bounded.
  - by apply registry_apply_bounded.
Qed.

(** [s'] has the queue and the options of [s]. *)
Lemma same_queue_bounded s s' :
  logQueue s' = logQueue s -> options s' = options s ->
  queue_bounded s -> queue_bounded s'.
Proof. unfold queue_bounded. by intros -> ->. Qed.

Lemma loadSourceMap_start_queue u s :
  logQueue (loadSourceMap_start u s).1 = logQueue s.
Proof. unfold loadSourceMap_start. repeat case_match; by destruct s. Qed.

Lemma getOriginalLocation_start_queue frame s :
  logQueue (getOriginalLocation_start frame s).1 = logQueue s.
Proof.
  unfold getOriginalLocation_start.
  destruct (negb _); [done|]. destruct frame as [f|]; [|done].
  destruct (frame_match f) as [m|]; [|done].
  pose proof (loadSourceMap_start_queue (m_fileUrl m) s) as H.
  by destruct (loadSourceMap_start _ s) as [s' []].
Qed.

Lemma processLogEntry_start_queue d s entry :
  logQueue (processLogEntry_start d s entry) = logQueue s.
Proof.
  unfold processLogEntry_start.
  pose proof (getOriginalLocation_start_queue (e_stack entry) s) as H.
  destruct (getOriginalLocation_start _ s) as [s1 st]. cbn in H.
  rewrite <- H. by destruct s1.
Qed.

Lemma foldl_processLogEntry_start_queue d batch :
  forall s, logQueue (foldl (processLogEntry_start d) s batch) = logQueue s.
Proof.
  induction batch as [|e batch IH]; intros s; cbn; [done|].
  by rewrite IH, processLogEntry_start_queue.
Qed.

(** [processQueue] removes the first [batchSize] entries of the queue. *)
Lemma processQueue_start_queue s :
  logQueue (processQueue_start s).1 = logQueue s
  \/ logQueue (processQueue_start s).1
     = drop (Z.to_nat (batchSize (options s))) (logQueue s).
Proof.
  unfold processQueue_start. case_match; [by left|right]. cbn.
  rewrite foldl_processLogEntry_start_queue. by destruct s.
Qed.

Lemma processQueue_start_bounded s :
  queue_bounded s -> queue_bounded (processQueue_start s).1.
Proof.
  unfold queue_bounded. intros Hb.
  destruct (processQueue_start_keeps_host s) as (_ & _ & -> & _).
  destruct (processQueue_start_queue s) as [-> | ->]; [done|].
  rewrite length_drop. lia.
Qed.

Lemma load_finally_bounded u l r s :
  queue_bounded s -> queue_bounded (load_finally u l r s).
Proof.
  apply same_queue_bounded; unfold load_finally, settle_load; destruct s; cbn;
    by case_match.
Qed.

Lemma load_catch_bounded cap u l s :
  queue_bounded s -> queue_bounded (load_catch cap u l s).
Proof.
  intros Hb. unfold load_catch.
  pose proof (call_fn_bounded cap (console_get (console s) "error")
                [VStr "Error loading source map:"; error_object] s Hb) as H.
  destruct (call_fn _ _ _ s) as [s1 []]; by apply load_finally_bounded.
Qed.

Lemma load_network_bounded cap u l nf s :
  queue_bounded s -> queue_bounded (load_network cap u l nf s).
Proof.
  intros Hb. unfold load_network. destruct nf; try by apply load_catch_bounded.
  case_match.
  - revert Hb. apply same_queue_bounded; by destruct s.
  - apply load_finally_bounded. revert Hb. apply same_queue_bounded; by destruct s.
Qed.

Lemma load_io_bounded cap l cr nf s s' :
  load_io cap l cr nf s = Some s' -> queue_bounded s -> queue_bounded s'.
Proof.
  unfold load_io. intros H Hb.
  destruct (loads s !! l) as [[u []]|]; try discriminate.
  destruct (cache_usable s).
  - destruct cr; injection H as <-;
      try (by apply load_catch_bounded); try (by apply load_network_bounded).
    apply load_finally_bounded. revert Hb. apply same_queue_bounded; by destruct s.
  - injection H as <-. by apply load_network_bounded.
Qed.

Lemma load_write_bounded cap l w s s' :
  load_write cap l w s = Some s' -> queue_bounded s -> queue_bounded s'.
Proof.
  unfold load_write. intros H Hb.
  destruct (loads s !! l) as [[u []]|]; try discriminate.
  destruct w; injection H as <-;
    [by apply load_finally_bounded|by apply load_catch_bounded].
Qed.

Lemma task_step_bounded cap k s s' :
  task_step cap k s = Some s' -> queue_bounded s -> queue_bounded s'.
Proof.
  unfold task_step. intros H Hb.
  destruct (tasks s !! k) as [t|]; [|discriminate].
  destruct (task_location t s) as [r|]; [|discriminate].
  pose proof (processLogEntry_finish_bounded cap (t_entry t) r s Hb) as Hq.
  destruct (processLogEntry_finish _ _ _ s) as [s1 []]; injection H as <-;
    revert Hq; apply same_queue_bounded; by destruct s1.
Qed.

Lemma processQueue_finish_bounded cap d all s :
  queue_bounded s -> queue_bounded (processQueue_finish cap d all s).
Proof.
  intros Hb. unfold processQueue_finish.
  assert (H : queue_bounded
    (match all with
     | AllRejected => call_fn cap (console_get (console s) "error")
                        [VStr "Error processing log queue:"; error_object] s
     | _ => (s, Normal)
     end).1).
  { destruct all; try exact Hb. by apply call_fn_bounded. }
  destruct (match all with AllRejected => _ | _ => _ end) as [s1 r1]. cbn in H.
  assert (H2 : queue_bounded (set_isProcessing false s1)).
  { revert H. apply same_queue_bounded; by destruct s1. }
  assert (Hd : forall st s0, queue_bounded s0 -> queue_bounded (settle_drain d st s0)).
  { intros st s0. apply same_queue_bounded; by destruct s0. }
  destruct r1; [|by apply Hd].
  case_match; [|by apply Hd].
  destruct (schedule_queue (set_isProcessing false s1)) as [Hq Ho].
  destruct (scheduleQueueProcessing _) as [s3 []]; cbn in Hq, Ho;
    apply Hd; revert H2; by apply same_queue_bounded.
Qed.

Lemma drain_step_bounded cap d s s' :
  drain_step cap d s = Some s' -> queue_bounded s -> queue_bounded s'.
Proof.
  unfold drain_step. intros H Hb.
  destruct (drains s !! d) as [[]|]; try discriminate.
  destruct (promise_all _); try discriminate; injection H as <-;
    by apply processQueue_finish_bounded.
Qed.

Lemma enhance_queue s :
  logQueue (enhance s) = logQueue s /\ options (enhance s) = options s.
Proof. by destruct s. Qed.

Lemma cleanup_finish_queue s :
  logQueue (cleanup_finish s) = logQueue s /\ options (cleanup_finish s) = options s.
Proof. by destruct s. Qed.

Lemma cleanup_start_bounded s : queue_bounded s -> queue_bounded (cleanup_start s).
Proof.
  intros Hb. unfold cleanup_start.
  assert (H1 : queue_bounded (clearInterval (flushIntervalId s) s)).
  { revert Hb. apply same_queue_bounded; unfold clearInterval;
      destruct (flushIntervalId s); by destruct s. }
  case_match.
  - pose proof (processQueue_start_bounded _ H1) as H2.
    destruct (processQueue_start _) as [s2 []]; cbn in H2; revert H2;
      apply same_queue_bounded; by destruct s2.
  - destruct (cleanup_finish_queue (clearInterval (flushIntervalId s) s)) as [Hq Ho].
    revert H1. apply same_queue_bounded; [rewrite <- Hq|rewrite <- Ho];
      by destruct (cleanup_finish _).
Qed.

Lemma cleanup_resume_bounded k s s' :
  cleanup_resume k s = Some s' -> queue_bounded s -> queue_bounded s'.
Proof.
  unfold cleanup_resume. intros H Hb.
  assert (Hf : queue_bounded (set_cleanup k CDone (cleanup_finish s))).
  { destruct (cleanup_finish_queue s) as [Hq Ho].
    revert Hb. apply same_queue_bounded; [rewrite <- Hq|rewrite <- Ho];
      by destruct (cleanup_finish _). }
  destruct (cleanups s !! k) as [[[d|]| |]|]; try discriminate.
  - destruct (drains s !! d) as [[]|]; try discriminate; injection H as <-; [done|].
    revert Hb. apply same_queue_bounded; by destruct s.
  - by injection H as <-.
Qed.

(** Every event preserves the bound of the queue. *)
Lemma step_bounded cap ev s s' :
  step cap ev s = Some s' -> queue_bounded s -> queue_bounded s'.
Proof.
  intros H Hb. destruct ev; cbn in H.
  - injection H as <-. by apply call_fn_bounded.
  - injection H as <-. destruct (enhance_queue s) as [Hq Ho].
    revert Hb. by apply same_queue_bounded.
  - injection H as <-. by apply cleanup_start_bounded.
  - by eapply cleanup_resume_bounded.
  - destruct (scheduled s) as [|n] eqn:E; [discriminate|]. injection H as <-.
    apply processQueue_start_bounded. revert Hb. apply same_queue_bounded; by destruct s.
  - case_match; [|discriminate]. case_match; injection H as <-; [|done].
    by apply processQueue_start_bounded.
  - by eapply load_io_bounded.
  - by eapply load_write_bounded.
  - by eapply task_step_bounded.
  - by eapply drain_step_bounded.
Qed.

Lemma cleanup_start_options s : options (cleanup_start s) = options s.
Proof.
  unfold cleanup_start.
  assert (H1 : options (clearInterval (flushIntervalId s) s) = options s).
  { unfold clearInterval. destruct (flushIntervalId s); by destruct s. }
  case_match.
  - destruct (processQueue_start_keeps_host (clearInterval (flushIntervalId s) s))
      as (_ & _ & Ho & _).
    destruct (processQueue_start _) as [s2 []]; cbn in Ho; rewrite <- H1, <- Ho;
      by destruct s2.
  - rewrite <- H1. by destruct (clearInterval _ s).
Qed.

Lemma cleanup_resume_options k s s' :
  cleanup_resume k s = Some s' -> options s' = options s.
Proof.
  unfold cleanup_resume. intros H.
  destruct (cleanups s !! k) as [[[d|]| |]|]; try discriminate.
  - destruct (drains s !! d) as [[]|]; try discriminate; injection H as <-;
      by destruct s.
  - injection H as <-. by destruct s.
Qed.

Lemma step_options cap ev s s' : step cap ev s = Some s' -> options s' = options s.
Proof.
  intros H.
  destruct (is_enhance ev) eqn:He; [destruct ev; try discriminate|].
  { cbn [step] in H. injection H as <-. apply enhance_queue. }
  destruct (is_cleanup ev) eqn:Hc; [destruct ev; try discriminate|].
  { cbn [step] in H. injection H as <-. apply cleanup_start_options. }
  { by eapply cleanup_resume_options. }
  by destruct (step_keeps_host cap ev s s' He Hc H) as (_ & _ & Ho & _).
Qed.

Lemma run_options evs s s' : run evs s = Some s' -> options s' = options s.
Proof.
  intros Hrun.
  apply (run_invariant (fun _ => true) (fun s1 => options s1 = options s))
    with (evs := evs) (s := s); [|by apply Forall_forall|done|done].
  intros cap ev s1 s2 _ Hs <-. by eapply step_options.
Qed.

Lemma run_bounded evs s s' : run evs s = Some s' -> queue_bounded s -> queue_bounded s'.
Proof.
  intros Hrun.
  apply (run_invariant (fun _ => true) queue_bounded) with (evs := evs);
    [|by apply Forall_forall|done].
  intros cap ev s1 s2 _. apply step_bounded.
Qed.

(** A call made on a full queue stores nothing. *)
Lemma call_fn_full cap f :
  forall args s,
    maxQueueSize (options s) <= Z.of_nat (length (logQueue s)) ->
    logQueue (call_fn cap f args s).1 = logQueue s.
Proof.
  induction f as [|name|cid method original IH]; intros args s Hfull; cbn [call_fn].
  - done.
  - by destruct s.
  - destruct (cap cid) as [|stack]; [by apply IH|].
    destruct (Z.leb_spec (maxQueueSize (options s)) (Z.of_nat (length (logQueue s))));
      [|lia].
    pose proof (IH (args ++ [VStr queue_full_marker]) s Hfull) as H1.
    pose proof (call_fn_keeps_host cap original (args ++ [VStr queue_full_marker]) s)
      as (_ & _ & Ho & _).
    destruct (call_fn cap original (args ++ [VStr queue_full_marker]) s) as [s1 []];
      [exact H1|].
    cbn in H1, Ho. rewrite <- H1. apply IH. rewrite H1, Ho. exact Hfull.
Qed.

(** C4. From construction on, after any events, the queue holds at most
    [maxQueueSize] entries; and a call of a wrapper on a queue at capacity
    stores no entry and is the call of the saved original on the caller's
    arguments followed by the queue-full marker. *)
Theorem queue_never_exceeds_maxQueueSize oa c evs s :
  0 <= maxQueueSize (merge_options oa) ->
  run evs (new_enhancer oa c) = Some s ->
  Z.of_nat (length (logQueue s)) <= maxQueueSize (merge_options oa)
  /\ forall cap cid method original args stack,
       cap cid = Captured stack ->
       callable original = true ->
       maxQueueSize (merge_options oa) <= Z.of_nat (length (logQueue s)) ->
       call_fn cap (Wrapper cid method original) args s
       = call_fn cap original (args ++ [VStr queue_full_marker]) s
       /\ logQueue (call_fn cap (Wrapper cid method original) args s).1 = logQueue s
       /\ (forall name, original = Native name ->
           output (call_fn cap (Wrapper cid method original) args s).1
           = output s ++ [mkEmitted name (args ++ [VStr queue_full_marker])]).
Proof.
  intros Hmax Hrun.
  pose proof (run_options _ _ _ Hrun) as Ho. cbn in Ho.
  split.
  - rewrite <- Ho. apply (run_bounded _ _ _ Hrun). exact Hmax.
  - intros cap cid method original args stack Hcap Hc Hfull. rewrite <- Ho in Hfull.
    assert (He : call_fn cap (Wrapper cid method original) args s
                 = call_fn cap original (args ++ [VStr queue_full_marker]) s).
    { cbn [call_fn]. rewrite Hcap.
      destruct (Z.leb_spec (maxQueueSize (options s)) (Z.of_nat (length (logQueue s))));
        [|lia].
      pose proof (call_fn_callable cap original (args ++ [VStr queue_full_marker]) s Hc) as Hn.
      by destruct (call_fn cap original _ s) as [s1 []]. }
    split; [exact He|]. split; [by apply call_fn_full|].
    intros name ->. rewrite He. cbn. by destruct s.
Qed.

(** ** Frames: what each piece of the code leaves alone *)

Section Frames.

Context {A : Type} (proj : State -> A).

Lemma only_queue_frame s s' : call_frame proj -> only_queue s s' -> proj s' = proj s.
Proof. intros (Hq & Ho & Hs) ->. by rewrite Ho, Hs, Hq. Qed.

Lemma call_fn_frame cap f args s :
  call_frame proj -> proj (call_fn cap f args s).1 = proj s.
Proof. intros H. eapply only_queue_frame; [done|apply call_fn_only_queue]. Qed.

Lemma schedule_frame s :
  call_frame proj -> proj (scheduleQueueProcessing s).1 = proj s.
Proof. intros H. eapply only_queue_frame; [done|apply schedule_only_queue]. Qed.

Lemma processLogEntry_finish_frame cap entry r s :
  call_frame proj -> proj (processLogEntry_finish cap entry r s).1 = proj s.
Proof.
  intros H. eapply only_queue_frame; [done|apply processLogEntry_finish_only_queue].
Qed.

Lemma task_step_frame cap k s s' :
  call_frame proj -> tasks_frame proj ->
  task_step cap k s = Some s' -> proj s' = proj s.
Proof.
  intros Hc Ht H. unfold task_step in H.
  destruct (tasks s !! k) as [t|]; [|discriminate].
  destruct (task_location t s) as [r|]; [|discriminate].
  pose proof (processLogEntry_finish_frame cap (t_entry t) r s Hc) as Hq.
  destruct (processLogEntry_finish _ _ _ s) as [s1 []]; injection H as <-;
    unfold set_task_status; by rewrite Ht.
Qed.

Lemma processQueue_finish_frame cap d all s :
  call_frame proj -> drain_frame proj ->
  proj (processQueue_finish cap d all s) = proj s.
Proof.
  intros Hc [Hi Hd]. unfold processQueue_finish.
  assert (H : proj
    (match all with
     | AllRejected => call_fn cap (console_get (console s) "error")
                        [VStr "Error processing log queue:"; error_object] s
     | _ => (s, Normal)
     end).1 = proj s).
  { destruct all; try done. by apply call_fn_frame. }
  destruct (match all with AllRejected => _ | _ => _ end) as [s1 r1]. cbn in H.
  rewrite <- H. unfold settle_drain.
  destruct r1; [|by rewrite Hd, Hi].
  case_match; [|by rewrite Hd, Hi].
  pose proof (schedule_frame (set_isProcessing false s1) Hc) as H2.
  destruct (scheduleQueueProcessing _) as [s3 []]; cbn in H2;
    by rewrite Hd, H2, Hi.
Qed.

Lemma drain_step_frame cap d s s' :
  call_frame proj -> drain_frame proj ->
  drain_step cap d s = Some s' -> proj s' = proj s.
Proof.
  intros Hc Hd H. unfold drain_step in H.
  destruct (drains s !! d) as [[]|]; try discriminate.
  destruct (promise_all _); try discriminate; injection H as <-;
    by apply processQueue_finish_frame.
Qed.

Lemma loadSourceMap_start_frame u s :
  loads_frame proj -> proj (loadSourceMap_start u s).1 = proj s.
Proof.
  intros [Hl Hp]. unfold loadSourceMap_start. repeat case_match; try done.
  cbn. by rewrite Hp, Hl.
Qed.

Lemma processLogEntry_start_frame d s entry :
  loads_frame proj -> tasks_frame proj ->
  proj (processLogEntry_start d s entry) = proj s.
Proof.
  intros Hl Ht. unfold processLogEntry_start, getOriginalLocation_start.
  destruct (negb _); [by rewrite Ht|].
  destruct (e_stack entry) as [f|]; [|by rewrite Ht].
  destruct (frame_match f) as [m|]; [|by rewrite Ht].
  pose proof (loadSourceMap_start_frame (m_fileUrl m) s Hl) as H.
  destruct (loadSourceMap_start _ s) as [s' []]; by rewrite Ht.
Qed.

Lemma processQueue_start_frame s :
  call_frame proj -> drain_frame proj -> loads_frame proj -> tasks_frame proj ->
  proj (processQueue_start s).1 = proj s.
Proof.
  intros (Hq & _ & _) [Hi Hd] Hl Ht. unfold processQueue_start.
  case_match; [done|]. cbn.
  transitivity (proj (set_drains (drains (set_logQueue
     (drop (Z.to_nat (batchSize (options (set_isProcessing true s))))
        (logQueue (set_isProcessing true s))) (set_isProcessing true s)) ++ [DRunning])
     (set_logQueue (drop (Z.to_nat (batchSize (options (set_isProcessing true s))))
        (logQueue (set_isProcessing true s))) (set_isProcessing true s)))).
  - generalize (take (Z.to_nat (batchSize (options (set_isProcessing true s))))
                  (logQueue (set_isProcessing true s))).
    intros batch. generalize (set_drains (drains (set_logQueue
     (drop (Z.to_nat (batchSize (options (set_isProcessing true s))))
        (logQueue (set_isProcessing true s))) (set_isProcessing true s)) ++ [DRunning])
     (set_logQueue (drop (Z.to_nat (batchSize (options (set_isProcessing true s))))
        (logQueue (set_isProcessing true s))) (set_isProcessing true s))) as s0.
    generalize (length (drains (set_logQueue (drop (Z.to_nat (batchSize (options (set_isProcessing true s))))
        (logQueue (set_isProcessing true s))) (set_isProcessing true s)))) as d.
    intros d s0. revert s0. induction batch as [|e batch IH]; intros s0; cbn; [done|].
    by rewrite IH, processLogEntry_start_frame.
  - by rewrite Hd, Hq, Hi.
Qed.

Lemma load_finally_frame u l r s :
  loads_frame proj -> proj (load_finally u l r s) = proj s.
Proof.
  intros [Hl Hp]. unfold load_finally, settle_load.
  case_match; by rewrite ?Hl, Hp.
Qed.

Lemma load_catch_frame cap u l s :
  call_frame proj -> loads_frame proj -> proj (load_catch cap u l s) = proj s.
Proof.
  intros Hc Hl. unfold load_catch.
  pose proof (call_fn_frame cap (console_get (console s) "error")
                [VStr "Error loading source map:"; error_object] s Hc) as H.
  destruct (call_fn _ _ _ s) as [s1 []]; cbn in H; by rewrite load_finally_frame.
Qed.

Lemma load_write_frame cap l w s s' :
  call_frame proj -> loads_frame proj ->
  load_write cap l w s = Some s' -> proj s' = proj s.
Proof.
  intros Hc Hl H. unfold load_write in H.
  destruct (loads s !! l) as [[u []]|]; try discriminate.
  destruct w; injection H as <-;
    [by apply load_finally_frame|by apply load_catch_frame].
Qed.

End Frames.

(** ** loadSourceMap (lines 42-97) *)

Lemma loads_frames :
  call_frame loads /\ drain_frame loads /\ tasks_frame loads.
Proof. repeat split; intros v s; by destruct s. Qed.

Lemma cache_frames :
  call_frame sourceMapCache /\ drain_frame sourceMapCache
  /\ tasks_frame sourceMapCache /\ loads_frame sourceMapCache.
Proof. repeat split; intros v s; by destruct s. Qed.


Lemma settle_load_lookup l u ph r s :
  loads s !! l = Some (mkLoad u ph) ->
  loads (settle_load l r s) !! l = Some (mkLoad u (LSettled r)).
Proof.
  intros H. unfold settle_load. rewrite H. destruct s; cbn in *.
  apply list_lookup_insert_eq. by eapply lookup_lt_Some.
Qed.

Lemma load_finally_result u l ph r s :
  loads s !! l = Some (mkLoad u ph) ->
  loads (load_finally u l r s) !! l = Some (mkLoad u (LSettled r))
  /\ pendingSourceMaps (load_finally u l r s) !! u = None
  /\ sourceMapCache (load_finally u l r s) = sourceMapCache s.
Proof.
  intros H. unfold load_finally. split; [|split].
  - eapply settle_load_lookup. by destruct s.
  - unfold settle_load. case_match; destruct s; cbn; apply lookup_delete_eq.
  - unfold settle_load. case_match; by destruct s.
Qed.

Lemma load_catch_result cap u l ph s :
  loads s !! l = Some (mkLoad u ph) ->
  callable (console_get (console s) "error") = true ->
  loads (load_catch cap u l s) !! l = Some (mkLoad u (LSettled (LResolved None)))
  /\ pendingSourceMaps (load_catch cap u l s) !! u = None
  /\ sourceMapCache (load_catch cap u l s) = sourceMapCache s.
Proof.
  intros H Hc. unfold load_catch.
  pose proof (call_fn_callable cap _ [VStr "Error loading source map:"; error_object] s Hc) as Hn.
  pose proof (call_fn_only_queue cap (console_get (console s) "error")
                [VStr "Error loading source map:"; error_object] s) as Hq.
  destruct (call_fn _ _ _ s) as [s1 r]. cbn in Hn, Hq. subst r.
  assert (H1 : loads s1 !! l = Some (mkLoad u ph)).
  { rewrite Hq. by destruct s. }
  destruct (load_finally_result u l ph (LResolved None) s1 H1) as (? & ? & ->).
  repeat split; try done. rewrite Hq. by destruct s.
Qed.

(** The fetch gave a parsed map and the platform cache is usable: the
    consumer is cached in memory and the load goes on to the write. *)
Lemma load_io_fetch_ok cap l u c s :
  loads s !! l = Some (mkLoad u LFetching) ->
  cache_usable s = true ->
  exists s1,
    load_io cap l CacheMiss (FetchOk c) s = Some s1
    /\ sourceMapCache s1 !! u = Some c
    /\ loads s1 !! l = Some (mkLoad u (LWriting c))
    /\ console s1 = console s
    /\ forall l', l' <> l -> loads s1 !! l' = loads s !! l'.
Proof.
  intros Hl Hu.
  assert (Hu' : cache_usable (set_sourceMapCache (<[u:=c]> (sourceMapCache s)) s) = true).
  { rewrite <- Hu. by destruct s. }
  eexists. split; [|split; [|split; [|split]]].
  - unfold load_io. rewrite Hl, Hu. unfold load_network. by rewrite Hu'.
  - destruct s; cbn. apply lookup_insert_eq.
  - destruct s; cbn in *. apply list_lookup_insert_eq. by eapply lookup_lt_Some.
  - by destruct s.
  - intros l' Hne. destruct s; cbn. by apply list_lookup_insert_ne.
Qed.



(** C3, as the code has it. A load whose cache read missed and whose fetch
    gave a parsed map returns the consumer when no platform-cache write is
    attempted or when the write succeeds; when the write throws, the same
    [catch] as for a failed fetch runs and the load resolves to null. *)
Theorem network_load_result cap1 cap2 l u c cr w s :
  loads s !! l = Some (mkLoad u LFetching) ->
  callable (console_get (console s) "error") = true ->
  (cache_usable s = false ->
   exists s1, load_io cap1 l cr (FetchOk c) s = Some s1
     /\ loads s1 !! l = Some (mkLoad u (LSettled (LResolved (Some c)))))
  /\ (cache_usable s = true ->
      exists s1 s2, load_io cap1 l CacheMiss (FetchOk c) s = Some s1
        /\ load_write cap2 l w s1 = Some s2
        /\ loads s2 !! l
           = Some (mkLoad u (LSettled (LResolved
                     match w with CacheWriteOk => Some c | CacheWriteThrows => None end)))).
Proof.
  intros Hl Hc. split; intros Hu.
  - eexists. unfold load_io. rewrite Hl, Hu. split; [reflexivity|].
    unfold load_network.
    replace (cache_usable (set_sourceMapCache (<[u:=c]> (sourceMapCache s)) s))
      with false by (rewrite <- Hu; by destruct s).
    eapply load_finally_result. destruct s; exact Hl.
  - destruct (load_io_fetch_ok cap1 l u c s Hl Hu) as (s1 & E1 & _ & Hl1 & Hcon & _).
    destruct w.
    + exists s1, (load_finally u l (LResolved (Some c)) s1).
      split; [exact E1|]. split; [unfold load_write; by rewrite Hl1|].
      by eapply load_finally_result.
    + exists s1, (load_catch cap2 u l s1).
      split; [exact E1|]. split; [unfold load_write; by rewrite Hl1|].
      eapply load_catch_result; [exact Hl1|by rewrite Hcon].
Qed.

(** ** cleanup (lines 240-260) *)

Lemma restore_console_lookup registry c m :
  restore_console registry c !! m
  = match registry !! m with Some f => Some f | None => c !! m end.
Proof.
  unfold restore_console.
  apply (map_fold_weak_ind
    (fun acc reg => acc !! m = match reg !! m with Some f => Some f | None => c !! m end)).
  - by rewrite lookup_empty.
  - intros i x reg acc Hi IH.
    destruct (decide (i = m)) as [->|Hne].
    + by rewrite !lookup_insert_eq.
    + by rewrite !lookup_insert_ne.
Qed.

Lemma restore_console_empty c : restore_console ∅ c = c.
Proof. apply map_eq. intros m. by rewrite restore_console_lookup, lookup_empty. Qed.

Lemma cleanup_finish_host s :
  originalMethods (cleanup_finish s) = ∅
  /\ console (cleanup_finish s) = restore_console (originalMethods s) (console s)
  /\ cleanups (cleanup_finish s) = cleanups s.
Proof. by destruct s. Qed.

Lemma cleanup_finish_restores orig s :
  console_on_record orig s \/ console_restored orig s ->
  console_restored orig (cleanup_finish s).
Proof.
  destruct (cleanup_finish_host s) as (Hr & Hc & _).
  intros [Hrec|[Hemp Hcon]]; (split; [exact Hr|]); intros m Hm;
    unfold console_get; rewrite Hc.
  - by rewrite restore_console_lookup, (Hrec m Hm).
  - rewrite Hemp, restore_console_empty. by apply Hcon.
Qed.

Lemma console_restored_same orig s s' :
  originalMethods s' = originalMethods s -> console s' = console s ->
  console_restored orig s -> console_restored orig s'.
Proof.
  intros Hr Hc [H1 H2]. split; [by rewrite Hr|].
  intros m Hm. rewrite Hc. by apply H2.
Qed.

Lemma cleanup_inv_same n0 orig s s' :
  originalMethods s' = originalMethods s -> console s' = console s ->
  cleanups s' = cleanups s ->
  cleanup_inv n0 orig s -> cleanup_inv n0 orig s'.
Proof.
  intros Hr Hc Hcl [HJ HK]. split.
  - destruct HJ as [Hrec|Hres]; [left|right].
    + intros m Hm. rewrite Hr. by apply Hrec.
    + by eapply console_restored_same.
  - intros k Hle Hd. rewrite Hcl in Hd.
    eapply console_restored_same; [done..|by eapply HK].
Qed.

Lemma keeps_host_cleanup_inv n0 orig s s' :
  keeps_host s s' -> cleanup_inv n0 orig s -> cleanup_inv n0 orig s'.
Proof.
  intros (Hr & Hc & _ & _ & _ & _ & Hcl). by apply cleanup_inv_same.
Qed.

Lemma cleanup_inv_restored n0 orig s :
  console_restored orig s -> cleanup_inv n0 orig s.
Proof. intros H. split; [by right|done]. Qed.

Lemma cleanup_start_inv n0 orig s :
  cleanup_inv n0 orig s -> cleanup_inv n0 orig (cleanup_start s).
Proof.
  intros Hinv. unfold cleanup_start.
  assert (H1 : cleanup_inv n0 orig (clearInterval (flushIntervalId s) s)).
  { revert Hinv. apply cleanup_inv_same; unfold clearInterval;
      destruct (flushIntervalId s); by destruct s. }
  case_match.
  - pose proof (keeps_host_cleanup_inv n0 orig _ _
                  (processQueue_start_keeps_host (clearInterval (flushIntervalId s) s)) H1)
      as [HJ HK].
    assert (Hadd : forall s2 st, st <> CDone ->
              (console_on_record orig s2 \/ console_restored orig s2) ->
              (forall k, (n0 <= k)%nat -> cleanups s2 !! k = Some CDone ->
                         console_restored orig s2) ->
              cleanup_inv n0 orig (set_cleanups (cleanups s2 ++ [st]) s2)).
    { intros s2 st Hst HJ2 HK2.
      assert (Hr : originalMethods (set_cleanups (cleanups s2 ++ [st]) s2) = originalMethods s2)
        by by destruct s2.
      assert (Hc : console (set_cleanups (cleanups s2 ++ [st]) s2) = console s2)
        by by destruct s2.
      assert (Hcl : cleanups (set_cleanups (cleanups s2 ++ [st]) s2) = cleanups s2 ++ [st])
        by by destruct s2.
      split.
      - destruct HJ2 as [Hrec|Hres]; [left|right].
        + intros m Hm. rewrite Hr. by apply Hrec.
        + by eapply console_restored_same.
      - intros k Hle Hd. rewrite Hcl in Hd.
        apply lookup_app_Some in Hd as [Hd|[_ Hd]].
        + eapply console_restored_same; [done..|by eapply HK2].
        + destruct (k - length (cleanups s2))%nat; by simplify_eq/=. }
    destruct (processQueue_start _) as [s2 []]; cbn in HJ, HK; by apply Hadd.
  - apply cleanup_inv_restored.
    eapply console_restored_same;
      [| |apply cleanup_finish_restores; exact (proj1 H1)];
      by destruct (cleanup_finish _).
Qed.

Lemma cleanup_resume_inv n0 orig k s s' :
  cleanup_resume k s = Some s' ->
  cleanup_inv n0 orig s -> cleanup_inv n0 orig s'.
Proof.
  unfold cleanup_resume. intros H [HJ HK].
  assert (Hf : cleanup_inv n0 orig (set_cleanup k CDone (cleanup_finish s))).
  { apply cleanup_inv_restored.
    eapply console_restored_same; [| |by apply cleanup_finish_restores];
      by destruct (cleanup_finish _). }
  destruct (cleanups s !! k) as [[[d|]| |]|] eqn:Ek; try discriminate.
  - destruct (drains s !! d) as [[]|]; try discriminate; injection H as <-; [done|].
    split.
    + destruct HJ as [Hrec|Hres]; [left|right].
      * intros m Hm. rewrite <- (Hrec m Hm). by destruct s.
      * revert Hres. apply console_restored_same; by destruct s.
    + intros k' Hle Hd.
      assert (Hd' : cleanups s !! k' = Some CDone).
      { replace (cleanups (set_cleanup k CThrew s)) with (<[k:=CThrew]> (cleanups s)) in Hd
          by by destruct s.
        destruct (decide (k = k')) as [->|Hne].
        - rewrite list_lookup_insert_eq in Hd by (by eapply lookup_lt_Some). congruence.
        - by rewrite list_lookup_insert_ne in Hd. }
      pose proof (HK k' Hle Hd') as Hres. revert Hres.
      apply console_restored_same; by destruct s.
  - by injection H as <-.
Qed.

Lemma clearInterval_cleared s : timer_cleared (clearInterval (flushIntervalId s) s).
Proof.
  unfold timer_cleared, clearInterval. intros i.
  destruct (flushIntervalId s) as [j|] eqn:E.
  - replace (flushIntervalId (set_intervals (filter (fun j0 => j0 <> j) (intervals s)) s))
      with (flushIntervalId s) by by destruct s.
    rewrite E. intros [= ->].
    replace (intervals (set_intervals (filter (fun j0 => j0 <> i) (intervals s)) s))
      with (filter (fun j0 => j0 <> i) (intervals s)) by by destruct s.
    rewrite list_elem_of_filter. tauto.
  - by rewrite E.
Qed.

Lemma timer_cleared_same s s' :
  intervals s' = intervals s -> flushIntervalId s' = flushIntervalId s ->
  timer_cleared s -> timer_cleared s'.
Proof. unfold timer_cleared. intros -> ->. done. Qed.

Lemma clearInterval_noop s :
  timer_cleared s -> clearInterval (flushIntervalId s) s = s.
Proof.
  unfold timer_cleared, clearInterval. intros H.
  destruct (flushIntervalId s) as [i|]; [|done].
  specialize (H i eq_refl).
  replace (filter (fun j => j <> i) (intervals s)) with (intervals s); [by destruct s|].
  symmetry. clear -H. induction (intervals s) as [|j l IH]; [done|].
  apply not_elem_of_cons in H as [Hne Hl].
  rewrite filter_cons_True by done. by rewrite IH.
Qed.

Lemma cleanup_start_cleared s : timer_cleared (cleanup_start s).
Proof.
  unfold cleanup_start.
  pose proof (clearInterval_cleared s) as H1.
  case_match.
  - pose proof (processQueue_start_keeps_host (clearInterval (flushIntervalId s) s))
      as (_ & _ & _ & Hi & Hf & _).
    destruct (processQueue_start _) as [s2 []]; cbn in Hi, Hf; revert H1;
      apply timer_cleared_same; rewrite <- ?Hi, <- ?Hf; by destruct s2.
  - revert H1. apply timer_cleared_same; by destruct (clearInterval _ s).
Qed.

Lemma cleanup_start_cleanups s :
  exists st, cleanups (cleanup_start s) = cleanups s ++ [st].
Proof.
  unfold cleanup_start.
  assert (H1 : cleanups (clearInterval (flushIntervalId s) s) = cleanups s).
  { unfold clearInterval. destruct (flushIntervalId s); by destruct s. }
  case_match.
  - pose proof (processQueue_start_keeps_host (clearInterval (flushIntervalId s) s))
      as (_ & _ & _ & _ & _ & _ & Hc).
    destruct (processQueue_start _) as [s2 []]; cbn in Hc; eexists;
      rewrite <- H1, <- Hc; by destruct s2.
  - eexists. rewrite <- H1. by destruct (clearInterval _ s).
Qed.

Lemma cleanup_resume_timers k s s' :
  cleanup_resume k s = Some s' ->
  intervals s' = intervals s /\ flushIntervalId s' = flushIntervalId s
  /\ length (cleanups s') = length (cleanups s).
Proof.
  unfold cleanup_resume. intros H.
  assert (Hl : forall st s0, length (cleanups (set_cleanup k st s0)) = length (cleanups s0)).
  { intros st s0. destruct s0; cbn. apply length_insert. }
  destruct (cleanups s !! k) as [[[d|]| |]|]; try discriminate.
  - destruct (drains s !! d) as [[]|]; try discriminate; injection H as <-;
      rewrite Hl; by destruct s.
  - injection H as <-. rewrite Hl. by destruct s.
Qed.

(** Once a cleanup has started after [enhance], the timer stays cleared. *)
Lemma step_timer_inv n0 cap ev s s' :
  is_enhance ev = false -> step cap ev s = Some s' ->
  ((n0 <= length (cleanups s))%nat
   /\ ((n0 < length (cleanups s))%nat -> timer_cleared s)) ->
  (n0 <= length (cleanups s'))%nat
  /\ ((n0 < length (cleanups s'))%nat -> timer_cleared s').
Proof.
  intros He H [Hlen HT].
  destruct (is_cleanup ev) eqn:Hc.
  - destruct ev; try discriminate; cbn in H.
    + injection H as <-. destruct (cleanup_start_cleanups s) as [st Hst].
      rewrite Hst, length_app. cbn. split; [lia|]. intros _. apply cleanup_start_cleared.
    + destruct (cleanup_resume_timers _ _ _ H) as (Hi & Hf & Hl). rewrite Hl.
      split; [done|]. intros Hlt. by eapply timer_cleared_same; [..|apply HT].
  - destruct (step_keeps_host cap ev s s' He Hc H) as (_ & _ & _ & Hi & Hf & _ & Hcl).
    rewrite Hcl. split; [done|]. intros Hlt. by eapply timer_cleared_same; [..|apply HT].
Qed.

Lemma step_cleanup_inv n0 orig cap ev s s' :
  is_enhance ev = false -> step cap ev s = Some s' ->
  cleanup_inv n0 orig s -> cleanup_inv n0 orig s'.
Proof.
  intros He H Hinv.
  destruct (is_cleanup ev) eqn:Hc.
  - destruct ev; try discriminate; cbn in H.
    + injection H as <-. by apply cleanup_start_inv.
    + by eapply cleanup_resume_inv.
  - eapply keeps_host_cleanup_inv; [|exact Hinv]. by eapply step_keeps_host.
Qed.

Lemma enhance_cleanup_inv s0 :
  cleanup_inv (length (cleanups s0)) (console_get (console s0)) (enhance s0).
Proof.
  split.
  - left. intros m Hm. by apply enhance_spec.
  - intros k Hle Hd. apply lookup_lt_Some in Hd.
    replace (cleanups (enhance s0)) with (cleanups s0) in Hd by by destruct s0. lia.
Qed.

Lemma cleanup_finish_noop s :
  sourceMapCache s = ∅ -> pendingSourceMaps s = ∅ -> originalMethods s = ∅ ->
  cleanup_finish s = s.
Proof.
  intros Hc Hp Hr. unfold cleanup_finish. destruct s; cbn in *. subst.
  by rewrite map_to_list_empty, restore_console_empty, app_nil_r.
Qed.

Lemma cleanup_start_registry_empty s :
  originalMethods s = ∅ ->
  console (cleanup_start s) = console s /\ originalMethods (cleanup_start s) = ∅.
Proof.
  intros Hr. unfold cleanup_start.
  assert (H1 : originalMethods (clearInterval (flushIntervalId s) s) = ∅
               /\ console (clearInterval (flushIntervalId s) s) = console s).
  { rewrite <- Hr. unfold clearInterval. destruct (flushIntervalId s); by destruct s. }
  destruct H1 as [H1 H2]. case_match.
  - pose proof (processQueue_start_keeps_host (clearInterval (flushIntervalId s) s))
      as (Ho & Hc & _).
    destruct (processQueue_start _) as [s2 []]; cbn in Ho, Hc;
      rewrite <- H2, <- Hc, <- H1, <- Ho; by destruct s2.
  - destruct (cleanup_finish_host (clearInterval (flushIntervalId s) s)) as (Ho & Hc & _).
    rewrite H1, restore_console_empty, H2 in Hc. rewrite <- Hc, <- Ho.
    by destruct (cleanup_finish _).
Qed.

(** ** One load per URL *)

Lemma loads_registered_same s s' :
  loads s' = loads s -> pendingSourceMaps s' = pendingSourceMaps s ->
  loads_registered s -> loads_registered s'.
Proof. unfold loads_registered. by intros -> ->. Qed.

Lemma pending_frames :
  call_frame pendingSourceMaps /\ drain_frame pendingSourceMaps
  /\ tasks_frame pendingSourceMaps.
Proof. repeat split; intros v s; by destruct s. Qed.

Lemma loadSourceMap_start_registered u s :
  loads_registered s -> loads_registered (loadSourceMap_start u s).1.
Proof.
  intros Hinv. unfold loadSourceMap_start.
  destruct (sourceMapCache s !! u); [done|].
  destruct (pendingSourceMaps s !! u) as [l0|] eqn:Ep; [done|]. cbn.
  intros l u' ph Hl Hf.
  replace (loads (set_pendingSourceMaps _ _)) with (loads s ++ [mkLoad u LFetching]) in Hl
    by by destruct s.
  replace (pendingSourceMaps (set_pendingSourceMaps _ _))
    with (<[u := length (loads s)]> (pendingSourceMaps s)) by by destruct s.
  apply lookup_app_Some in Hl as [Hl|[Hge Hl]].
  - pose proof (Hinv l u' ph Hl Hf) as Hp.
    rewrite lookup_insert_ne; [done|]. intros <-. congruence.
  - destruct (l - length (loads s))%nat eqn:E; [|done].
    cbn in Hl. injection Hl as <- <-.
    replace l with (length (loads s)) by lia. apply lookup_insert_eq.
Qed.

Lemma processLogEntry_start_registered d s entry :
  loads_registered s -> loads_registered (processLogEntry_start d s entry).
Proof.
  intros Hinv. unfold processLogEntry_start, getOriginalLocation_start.
  assert (Ht : forall v s0, loads_registered s0 -> loads_registered (set_tasks v s0)).
  { intros v s0. apply loads_registered_same; by destruct s0. }
  destruct (negb _); [by apply Ht|].
  destruct (e_stack entry) as [f|]; [|by apply Ht].
  destruct (frame_match f) as [m|]; [|by apply Ht].
  pose proof (loadSourceMap_start_registered (m_fileUrl m) s Hinv) as H.
  destruct (loadSourceMap_start _ s) as [s' []]; by apply Ht.
Qed.

Lemma processQueue_start_registered s :
  loads_registered s -> loads_registered (processQueue_start s).1.
Proof.
  intros Hinv. unfold processQueue_start. case_match; [done|]. cbn.
  match goal with |- loads_registered (foldl _ ?s0 ?b) =>
    assert (H0 : loads_registered s0)
      by (revert Hinv; apply loads_registered_same; by destruct s);
    generalize dependent s0; generalize b end.
  intros batch. induction batch as [|e batch IH]; intros s0 H0; cbn; [done|].
  apply IH. by apply processLogEntry_start_registered.
Qed.

Lemma load_finally_registered u l ph r s :
  loads s !! l = Some (mkLoad u ph) -> in_flight ph = true ->
  loads_registered s -> loads_registered (load_finally u l r s).
Proof.
  intros Hl Hf Hinv l' u' ph' Hl' Hf'.
  unfold load_finally, settle_load in *.
  replace (loads (set_pendingSourceMaps (delete u (pendingSourceMaps s)) s))
    with (loads s) in * by by destruct s.
  rewrite Hl in *.
  replace (loads (set_loads _ _)) with (<[l := mkLoad u (LSettled r)]> (loads s)) in Hl'
    by by destruct s.
  replace (pendingSourceMaps (set_loads _ _)) with (delete u (pendingSourceMaps s))
    by by destruct s.
  destruct (decide (l = l')) as [<-|Hne].
  - rewrite list_lookup_insert_eq in Hl' by (by eapply lookup_lt_Some).
    injection Hl' as <- <-. discriminate.
  - rewrite list_lookup_insert_ne in Hl' by done.
    pose proof (Hinv l' u' ph' Hl' Hf') as Hp.
    rewrite lookup_delete_ne; [done|]. intros <-.
    pose proof (Hinv l u ph Hl Hf). congruence.
Qed.

Lemma load_catch_registered cap u l ph s :
  loads s !! l = Some (mkLoad u ph) -> in_flight ph = true ->
  loads_registered s -> loads_registered (load_catch cap u l s).
Proof.
  intros Hl Hf Hinv. unfold load_catch.
  destruct loads_frames as (Hlf & _). destruct pending_frames as (Hpf & _).
  pose proof (call_fn_frame loads cap (console_get (console s) "error")
                [VStr "Error loading source map:"; error_object] s Hlf) as H1.
  pose proof (call_fn_frame pendingSourceMaps cap (console_get (console s) "error")
                [VStr "Error loading source map:"; error_object] s Hpf) as H2.
  destruct (call_fn _ _ _ s) as [s1 []]; cbn in H1, H2;
    (eapply load_finally_registered;
     [by rewrite H1|done|by eapply loads_registered_same]).
Qed.

Lemma load_network_registered cap u l nf s :
  loads s !! l = Some (mkLoad u LFetching) ->
  loads_registered s -> loads_registered (load_network cap u l nf s).
Proof.
  intros Hl Hinv. unfold load_network.
  destruct nf; try by eapply load_catch_registered.
  case_match.
  - intros l' u' ph' Hl' Hf'.
    replace (loads (set_loads _ _)) with (<[l := mkLoad u (LWriting c)]> (loads s)) in Hl'
      by by destruct s.
    replace (pendingSourceMaps (set_loads _ _)) with (pendingSourceMaps s)
      by by destruct s.
    destruct (decide (l = l')) as [<-|Hne].
    + rewrite list_lookup_insert_eq in Hl' by (by eapply lookup_lt_Some).
      injection Hl' as <- <-. by eapply Hinv.
    + rewrite list_lookup_insert_ne in Hl' by done. by eapply Hinv.
  - eapply load_finally_registered; [by destruct s|done|].
    revert Hinv. apply loads_registered_same; by destruct s.
Qed.

Lemma load_io_registered cap l cr nf s s' :
  load_io cap l cr nf s = Some s' -> loads_registered s -> loads_registered s'.
Proof.
  unfold load_io. intros H Hinv.
  destruct (loads s !! l) as [[u []]|] eqn:Hl; try discriminate.
  destruct (cache_usable s).
  - destruct cr; injection H as <-;
      try (by eapply load_catch_registered); try (by eapply load_network_registered).
    eapply load_finally_registered; [by destruct s|done|].
    revert Hinv. apply loads_registered_same; by destruct s.
  - injection H as <-. by eapply load_network_registered.
Qed.

Lemma load_write_registered cap l w s s' :
  load_write cap l w s = Some s' -> loads_registered s -> loads_registered s'.
Proof.
  unfold load_write. intros H Hinv.
  destruct (loads s !! l) as [[u []]|] eqn:Hl; try discriminate.
  destruct w; injection H as <-;
    [by eapply load_finally_registered|by eapply load_catch_registered].
Qed.

Lemma step_registered cap ev s s' :
  is_cleanup ev = false -> step cap ev s = Some s' ->
  loads_registered s -> loads_registered s'.
Proof.
  destruct loads_frames as (Hlc & Hld & Hlt).
  destruct pending_frames as (Hpc & Hpd & Hpt).
  intros Hc H Hinv. destruct ev; try discriminate; cbn in H.
  - injection H as <-. revert Hinv. apply loads_registered_same; by apply call_fn_frame.
  - injection H as <-. revert Hinv. apply loads_registered_same; by destruct s.
  - destruct (scheduled s) as [|n] eqn:E; [discriminate|]. injection H as <-.
    apply processQueue_start_registered. revert Hinv.
    apply loads_registered_same; by destruct s.
  - case_match; [|discriminate]. case_match; injection H as <-; [|done].
    by apply processQueue_start_registered.
  - by eapply load_io_registered.
  - by eapply load_write_registered.
  - revert Hinv. apply loads_registered_same; by eapply task_step_frame.
  - revert Hinv. apply loads_registered_same; by eapply drain_step_frame.
Qed.

(** Whatever [console.error] does, the [catch] and [finally] of a load
    settle it and remove its registration. *)
Lemma load_catch_settles cap u l ph s :
  loads s !! l = Some (mkLoad u ph) ->
  exists r,
    loads (load_catch cap u l s) !! l = Some (mkLoad u (LSettled r))
    /\ pendingSourceMaps (load_catch cap u l s) !! u = None.
Proof.
  intros H. unfold load_catch.
  pose proof (call_fn_only_queue cap (console_get (console s) "error")
                [VStr "Error loading source map:"; error_object] s) as Hq.
  destruct (call_fn _ _ _ s) as [s1 r]. cbn in Hq.
  assert (H1 : loads s1 !! l = Some (mkLoad u ph)).
  { rewrite Hq. by destruct s. }
  destruct r.
  - destruct (load_finally_result u l ph (LResolved None) s1 H1) as (? & ? & _).
    by eexists.
  - destruct (load_finally_result u l ph LRejected s1 H1) as (? & ? & _).
    by eexists.
Qed.

(** The step that ends the reads of a load either settles it, removing
    its registration, or leaves it registered for the write. *)
Lemma load_io_completes cap l u cr nf s :
  loads s !! l = Some (mkLoad u LFetching) ->
  exists s',
    load_io cap l cr nf s = Some s'
    /\ ((exists r, loads s' !! l = Some (mkLoad u (LSettled r))
                   /\ pendingSourceMaps s' !! u = None)
        \/ (exists c, loads s' !! l = Some (mkLoad u (LWriting c))
                      /\ pendingSourceMaps s' = pendingSourceMaps s)).
Proof.
  intros Hl.
  pose proof (load_catch_settles cap u l LFetching s Hl) as Hcatch.
  assert (Hset : forall c,
            loads (set_sourceMapCache (<[u:=c]> (sourceMapCache s)) s) !! l
            = Some (mkLoad u LFetching)) by (intros c; by destruct s).
  assert (Hhit : forall c, exists r,
            loads (load_finally u l (LResolved (Some c))
                     (set_sourceMapCache (<[u:=c]> (sourceMapCache s)) s)) !! l
            = Some (mkLoad u (LSettled r))
            /\ pendingSourceMaps
                 (load_finally u l (LResolved (Some c))
                    (set_sourceMapCache (<[u:=c]> (sourceMapCache s)) s)) !! u = None).
  { intros c.
    destruct (load_finally_result u l LFetching (LResolved (Some c)) _ (Hset c))
      as (? & ? & _). by eexists. }
  assert (Hnet :
    (exists r, loads (load_network cap u l nf s) !! l = Some (mkLoad u (LSettled r))
               /\ pendingSourceMaps (load_network cap u l nf s) !! u = None)
    \/ (exists c, loads (load_network cap u l nf s) !! l = Some (mkLoad u (LWriting c))
                  /\ pendingSourceMaps (load_network cap u l nf s) = pendingSourceMaps s)).
  { unfold load_network. destruct nf as [| | |c]; try (by left).
    destruct (cache_usable _); [right|left; apply Hhit].
    exists c. split; [|by destruct s].
    destruct s; cbn in *. apply list_lookup_insert_eq. by eapply lookup_lt_Some. }
  unfold load_io. rewrite Hl.
  destruct (cache_usable s); [|by eexists].
  destruct cr; eexists; (split; [reflexivity|]); try done; try (by left);
    left; apply Hhit.
Qed.

(** The step after the write settles the load and removes its
    registration, whether the write succeeded or threw. *)
Lemma load_write_completes cap l u c w s :
  loads s !! l = Some (mkLoad u (LWriting c)) ->
  exists s' r,
    load_write cap l w s = Some s'
    /\ loads s' !! l = Some (mkLoad u (LSettled r))
    /\ pendingSourceMaps s' !! u = None.
Proof.
  intros Hl. unfold load_write. rewrite Hl. destruct w.
  - destruct (load_finally_result u l (LWriting c) (LResolved (Some c)) s Hl)
      as (? & ? & _). by eexists _, _.
  - destruct (load_catch_settles cap u l (LWriting c) s Hl) as (r & ? & ?).
    by eexists _, r.
Qed.

(** C5, as the code has it. In every run from construction without
    [cleanup], a URL has at most one load in flight; that load is the one
    registered for the URL; a [loadSourceMap] call for the URL made
    meanwhile starts nothing, and when the cache misses it awaits that same
    load. The load completes in one or two steps, whatever the cache, the
    network and the write answer: the step that ends its reads either
    settles it and removes the registration of the URL, or (a fetched map,
    the platform cache usable) leaves it registered while it writes; the
    step after the write settles it and removes the registration. *)
Theorem one_load_in_flight_per_url oa c evs s :
  Forall (fun e => is_cleanup e.1 = false) evs ->
  run evs (new_enhancer oa c) = Some s ->
  (forall l1 l2 u ph1 ph2,
     loads s !! l1 = Some (mkLoad u ph1) -> in_flight ph1 = true ->
     loads s !! l2 = Some (mkLoad u ph2) -> in_flight ph2 = true ->
     l1 = l2)
  /\ forall l u ph,
       loads s !! l = Some (mkLoad u ph) -> in_flight ph = true ->
       pendingSourceMaps s !! u = Some l
       /\ (loadSourceMap_start u s).1 = s
       /\ (sourceMapCache s !! u = None -> loadSourceMap_start u s = (s, LCPending l))
       /\ forall cap,
            match ph with
            | LFetching =>
                forall cr nf, exists s',
                  step cap (EvLoadIO l cr nf) s = Some s'
                  /\ ((exists r, loads s' !! l = Some (mkLoad u (LSettled r))
                                 /\ pendingSourceMaps s' !! u = None)
                      \/ (exists c', loads s' !! l = Some (mkLoad u (LWriting c'))
                                     /\ pendingSourceMaps s' !! u = Some l))
            | LWriting _ =>
                forall w, exists s' r,
                  step cap (EvLoadWrite l w) s = Some s'
                  /\ loads s' !! l = Some (mkLoad u (LSettled r))
                  /\ pendingSourceMaps s' !! u = None
            | LSettled _ => True
            end.
Proof.
  intros Hev Hrun.
  assert (Hinv : loads_registered s).
  { apply (run_invariant (fun ev => negb (is_cleanup ev)) loads_registered)
      with (evs := evs) (s := new_enhancer oa c);
      [|eapply Forall_impl; [exact Hev|]; intros e He; by rewrite He|exact Hrun|].
    - intros cap ev s1 s2 Ha. apply negb_true_iff in Ha. by apply step_registered.
    - intros l u ph Hl. cbn in Hl. by rewrite lookup_nil in Hl. }
  split.
  - intros l1 l2 u ph1 ph2 H1 F1 H2 F2.
    pose proof (Hinv l1 u ph1 H1 F1). pose proof (Hinv l2 u ph2 H2 F2). congruence.
  - intros l u ph Hl Hf. pose proof (Hinv l u ph Hl Hf) as Hp.
    split; [exact Hp|]. split; [|split].
    + unfold loadSourceMap_start. destruct (sourceMapCache s !! u); [done|]. by rewrite Hp.
    + intros Hc. unfold loadSourceMap_start. by rewrite Hc, Hp.
    + intros cap. destruct ph as [|c'|r0]; [| |done].
      * intros cr nf. cbn [step].
        destruct (load_io_completes cap l u cr nf s Hl) as (s' & E & [Hs|(c' & Hw & Hpe)]).
        -- exists s'. split; [exact E|by left].
        -- exists s'. split; [exact E|]. right. exists c'. by rewrite Hpe.
      * intros w. cbn [step]. exact (load_write_completes cap l u c' w s Hl).
Qed.

(** ** Entries of a batch *)

Lemma task_location_same t s s' :
  loads s' = loads s -> task_location t s' = task_location t s.
Proof. unfold task_location. by intros ->. Qed.

Lemma registry_apply_native cap m name args s :
  originalMethods s !! m = Some (Native name) ->
  registry_apply cap m args s
  = (set_output (output s ++ [mkEmitted name args]) s, Normal).
Proof. intros H. unfold registry_apply. by rewrite H. Qed.

(** C8, as the code has it. Resuming one entry of a batch changes the status
    of that entry only: every other task, the loads they wait for and the
    registry they will use are as before.  An entry whose location
    computation threw is emitted by its registered method on its original
    arguments and ends fulfilled, so the batch is not failed by it.  An
    entry whose map could not be loaded is not a failure: it is emitted
    with the argument built from its unrewritten frame appended. *)
Theorem entry_failure_is_isolated cap k t s s' :
  tasks s !! k = Some t ->
  task_step cap k s = Some s' ->
  (forall j, j <> k -> tasks s' !! j = tasks s !! j)
  /\ loads s' = loads s
  /\ originalMethods s' = originalMethods s
  /\ (forall t', task_location t' s' = task_location t' s)
  /\ forall name,
       originalMethods s !! e_method (t_entry t) = Some (Native name) ->
       (task_location t s = Some LocThrew ->
        output s' = output s ++ [mkEmitted name (e_args (t_entry t))]
        /\ tasks s' !! k = Some (mkTask (t_drain t) (t_entry t) TDone))
       /\ (forall m l u,
             t_status t = TWaitLoad m l ->
             loads s !! l = Some (mkLoad u (LSettled (LResolved None))) ->
             output s'
             = output s ++
               [mkEmitted name
                  (e_args (t_entry t) ++
                   [location_arg (e_args (t_entry t)) (frame_value (e_stack (t_entry t)))])]
             /\ tasks s' !! k = Some (mkTask (t_drain t) (t_entry t) TDone)).
Proof.
  intros Ht Hstep.
  destruct loads_frames as (Hlc & _ & Hlt).
  assert (Hl : loads s' = loads s) by by eapply task_step_frame.
  assert (Hr : originalMethods s' = originalMethods s)
    by by destruct (task_step_keeps_host _ _ _ _ Hstep).
  unfold task_step in Hstep. rewrite Ht in Hstep.
  destruct (task_location t s) as [r|] eqn:Er; [|discriminate].
  assert (Hlen : (k < length (tasks (processLogEntry_finish cap (t_entry t) r s).1))%nat).
  { rewrite (processLogEntry_finish_frame tasks); [by eapply lookup_lt_Some|].
    repeat split; intros v s0; by destruct s0. }
  assert (Hother : forall j, j <> k -> tasks s' !! j = tasks s !! j).
  { intros j Hj.
    assert (Htq : tasks (processLogEntry_finish cap (t_entry t) r s).1 = tasks s).
    { apply (processLogEntry_finish_frame tasks). repeat split; intros v s0; by destruct s0. }
    destruct (processLogEntry_finish _ _ _ s) as [s1 []]; cbn in Htq; injection Hstep as <-;
      unfold set_task_status;
      destruct s1; cbn in *; subst; by rewrite list_lookup_insert_ne. }
  split; [exact Hother|]. split; [exact Hl|]. split; [exact Hr|].
  split; [intros t'; by apply task_location_same|].
  intros name Hname.
  assert (Hdone : forall args s1,
            (s1, Normal) = (set_output (output s ++ [mkEmitted name args]) s, Normal) ->
            Some (set_task_status k t TDone s1) = Some s' ->
            output s' = output s ++ [mkEmitted name args]
            /\ tasks s' !! k = Some (mkTask (t_drain t) (t_entry t) TDone)).
  { intros args s1 [= ->] [= <-]. split; [by destruct s|].
    unfold set_task_status. destruct s; cbn in *.
    apply list_lookup_insert_eq. by eapply lookup_lt_Some. }
  split.
  - intros [= ->]. unfold processLogEntry_finish in Hstep.
    rewrite (registry_apply_native _ _ name) in Hstep by done.
    by eapply Hdone.
  - intros m l u Hst Hload.
    assert (r = LocOk (frame_value (e_stack (t_entry t)))) as ->.
    { unfold task_location in Er. rewrite Hst, Hload in Er. by injection Er as <-. }
    unfold processLogEntry_finish in Hstep.
    rewrite (registry_apply_native _ _ name) in Hstep by done.
    by eapply Hdone.
Qed.

(** ** cleanup does not throw *)

Lemma load_network_frame {A} (proj : State -> A) cap u l nf s :
  call_frame proj -> loads_frame proj -> cache_frame proj ->
  proj (load_network cap u l nf s) = proj s.
Proof.
  intros Hc Hl Hca. unfold load_network.
  destruct nf; try by apply load_catch_frame.
  destruct (cache_usable _).
  - destruct Hl as [Hl _]. by rewrite Hl, Hca.
  - by rewrite load_finally_frame, Hca.
Qed.

Lemma load_io_frame {A} (proj : State -> A) cap l cr nf s s' :
  call_frame proj -> loads_frame proj -> cache_frame proj ->
  load_io cap l cr nf s = Some s' -> proj s' = proj s.
Proof.
  intros Hc Hl Hca H. unfold load_io in H.
  destruct (loads s !! l) as [[u []]|]; try discriminate.
  destruct (cache_usable s); [|injection H as <-; by apply load_network_frame].
  destruct cr; injection H as <-;
    try (by apply load_catch_frame); try (by apply load_network_frame).
  by rewrite load_finally_frame, Hca.
Qed.

Lemma processLogEntry_start_drains d s entry :
  drains (processLogEntry_start d s entry) = drains s.
Proof.
  apply (processLogEntry_start_frame drains); repeat split; intros v s0; by destruct s0.
Qed.

(** What [processQueue] does to the list of drains. *)
Lemma processQueue_start_drains s :
  match processQueue_start s with
  | (s', QGuard) => drains s' = drains s
  | (s', QDrain d) => d = length (drains s) /\ drains s' = drains s ++ [DRunning]
  end.
Proof.
  unfold processQueue_start.
  destruct (isProcessing s || (length (logQueue s) =? 0)%nat); [done|].
  split; [by destruct s|].
  match goal with |- drains (foldl _ ?s0 ?b) = _ =>
    transitivity (drains s0); [|by destruct s];
    generalize s0; generalize b end.
  intros batch. induction batch as [|e batch IH]; intros s0; cbn; [done|].
  by rewrite IH, processLogEntry_start_drains.
Qed.

(** With a [console.error] that returns and a scheduler that does not
    throw, a drain ends resolved. *)
Lemma processQueue_finish_resolved cap d all s :
  callable (console_get (console s) "error") = true ->
  sched P <> SchedThrows ->
  drains (processQueue_finish cap d all s) = <[d := DResolved]> (drains s).
Proof.
  intros Hc Hs. unfold processQueue_finish.
  assert (Hd : call_frame drains) by (repeat split; intros v s0; by destruct s0).
  assert (H : (match all with
     | AllRejected => call_fn cap (console_get (console s) "error")
                        [VStr "Error processing log queue:"; error_object] s
     | _ => (s, Normal)
     end).2 = Normal
     /\ drains (match all with
     | AllRejected => call_fn cap (console_get (console s) "error")
                        [VStr "Error processing log queue:"; error_object] s
     | _ => (s, Normal)
     end).1 = drains s).
  { destruct all; try done. split; [by apply call_fn_callable|by apply call_fn_frame]. }
  destruct (match all with AllRejected => _ | _ => _ end) as [s1 r1].
  cbn in H. destruct H as [-> H1]. rewrite <- H1.
  case_match; [|by destruct s1].
  unfold scheduleQueueProcessing. destruct (sched P); try done; by destruct s1.
Qed.

Lemma drains_frames : call_frame drains /\ tasks_frame drains /\ loads_frame drains
  /\ cache_frame drains.
Proof. repeat split; intros v s; by destruct s. Qed.

(** A quiet event adds drains or resolves one. *)
Lemma quiet_step_drains cap ev s s' :
  is_enhance ev = false -> is_cleanup ev = false ->
  callable (console_get (console s) "error") = true ->
  sched P <> SchedThrows ->
  step cap ev s = Some s' ->
  (length (drains s) <= length (drains s'))%nat
  /\ forall d, drains s' !! d = Some DRejected -> drains s !! d = Some DRejected.
Proof.
  destruct drains_frames as (Hc & Ht & Hl & Hca).
  intros He Hcl Hcall Hs H.
  assert (Hsame : drains s' = drains s ->
    (length (drains s) <= length (drains s'))%nat
    /\ forall d, drains s' !! d = Some DRejected -> drains s !! d = Some DRejected).
  { by intros ->. }
  assert (Hstart : forall s0, drains s0 = drains s ->
    (length (drains s) <= length (drains (processQueue_start s0).1))%nat
    /\ forall d, drains (processQueue_start s0).1 !! d = Some DRejected ->
                 drains s !! d = Some DRejected).
  { intros s0 H0. pose proof (processQueue_start_drains s0) as Hd.
    destruct (processQueue_start s0) as [s1 [|d0]]; cbn.
    - rewrite Hd, H0. done.
    - destruct Hd as [_ ->]. rewrite H0, length_app. split; [lia|].
      intros d Hd. apply lookup_app_Some in Hd as [Hd|[_ Hd]]; [done|].
      destruct (d - length (drains s))%nat; by simplify_eq/=. }
  destruct ev; try discriminate; cbn in H.
  - injection H as <-. apply Hsame. by apply call_fn_frame.
  - destruct (scheduled s) as [|n]; [discriminate|]. injection H as <-.
    apply Hstart. by destruct s.
  - case_match; [|discriminate]. case_match; injection H as <-; [by apply Hstart|done].
  - apply Hsame. by eapply load_io_frame.
  - apply Hsame. by eapply load_write_frame.
  - apply Hsame. by eapply task_step_frame.
  - unfold drain_step in H.
    destruct (drains s !! d) as [[]|]; try discriminate.
    assert (Hfin : forall all,
      (length (drains s) <= length (drains (processQueue_finish cap d all s)))%nat
      /\ forall d', drains (processQueue_finish cap d all s) !! d' = Some DRejected ->
                    drains s !! d' = Some DRejected).
    { intros all. rewrite processQueue_finish_resolved by done.
      rewrite length_insert. split; [done|]. intros d' Hd'.
      apply list_lookup_insert_Some in Hd' as [(_ & ? & _)|[_ ?]]; [discriminate|done]. }
    destruct (promise_all _); try discriminate; injection H as <-; apply Hfin.
Qed.

Lemma no_throw_inv_quiet n0 d0 cap ev s s' :
  sched P <> SchedThrows ->
  is_enhance ev = false -> is_cleanup ev = false ->
  step cap ev s = Some s' ->
  no_throw_inv n0 d0 s -> no_throw_inv n0 d0 s'.
Proof.
  intros Hs He Hc H (I1 & I2 & I3 & I4 & I5).
  destruct (quiet_step_drains cap ev s s' He Hc I1 Hs H) as [Hlen Hrej].
  destruct (step_keeps_host cap ev s s' He Hc H) as (_ & Hcon & _ & _ & _ & _ & Hcl).
  repeat split.
  - by rewrite Hcon.
  - lia.
  - intros d Hd Hr. by eapply I3, Hrej.
  - intros k d. rewrite Hcl. apply I4.
  - intros k. rewrite Hcl. apply I5.
Qed.

Lemma console_restored_error orig s :
  callable (orig "error") = true -> console_restored orig s ->
  callable (console_get (console s) "error") = true.
Proof.
  intros Hc [_ H]. rewrite H; [done|]. unfold methods. set_solver.
Qed.

Lemma no_throw_inv_cleanup_start n0 d0 orig s :
  callable (orig "error") = true ->
  cleanup_inv n0 orig s ->
  no_throw_inv n0 d0 s -> no_throw_inv n0 d0 (cleanup_start s).
Proof.
  intros Horig [HJ _] (I1 & I2 & I3 & I4 & I5). unfold cleanup_start.
  set (s1 := clearInterval (flushIntervalId s) s).
  assert (H1 : console s1 = console s /\ drains s1 = drains s /\ cleanups s1 = cleanups s
               /\ originalMethods s1 = originalMethods s).
  { subst s1. unfold clearInterval. destruct (flushIntervalId s); by destruct s. }
  destruct H1 as (Hc1 & Hd1 & Hcl1 & Hr1).
  assert (Hadd : forall (cl : list CleanupStatus) st k d,
            (forall d', st = CAwait (Some d') -> (d0 <= d')%nat) -> st <> CThrew ->
            (forall k' d', (n0 <= k')%nat -> cl !! k' = Some (CAwait (Some d')) -> (d0 <= d')%nat) ->
            (forall k', (n0 <= k')%nat -> cl !! k' <> Some CThrew) ->
            ((n0 <= k)%nat -> (cl ++ [st]) !! k = Some (CAwait (Some d)) -> (d0 <= d)%nat)
            /\ ((n0 <= k)%nat -> (cl ++ [st]) !! k <> Some CThrew)).
  { intros cl st k d Hst1 Hst2 H4 H5. split; intros Hk Hl.
    - apply lookup_app_Some in Hl as [Hl|[_ Hl]]; [by eapply H4|].
      destruct (k - length cl)%nat; simplify_eq/=. by apply Hst1.
    - apply lookup_app_Some in Hl as [Hl|[_ Hl]]; [by eapply H5|].
      destruct (k - length cl)%nat; by simplify_eq/=. }
  case_match.
  - pose proof (processQueue_start_keeps_host s1) as (_ & Hc2 & _ & _ & _ & _ & Hcl2).
    pose proof (processQueue_start_drains s1) as Hd2.
    destruct (processQueue_start s1) as [s2 [|d]]; cbn in Hc2, Hcl2.
    + repeat split.
      * replace (console (set_cleanups _ s2)) with (console s2) by by destruct s2.
        by rewrite Hc2, Hc1.
      * replace (drains (set_cleanups _ s2)) with (drains s2) by by destruct s2.
        rewrite Hd2, Hd1. done.
      * replace (drains (set_cleanups _ s2)) with (drains s2) by by destruct s2.
        rewrite Hd2, Hd1. done.
      * intros k d. replace (cleanups (set_cleanups _ s2)) with (cleanups s2 ++ [CAwait None])
          by by destruct s2.
        rewrite Hcl2, Hcl1. by apply Hadd.
      * intros k. replace (cleanups (set_cleanups _ s2)) with (cleanups s2 ++ [CAwait None])
          by by destruct s2.
        rewrite Hcl2, Hcl1. by apply (Hadd _ _ k 0%nat).
    + destruct Hd2 as [-> Hd2]. repeat split.
      * replace (console (set_cleanups _ s2)) with (console s2) by by destruct s2.
        by rewrite Hc2, Hc1.
      * replace (drains (set_cleanups _ s2)) with (drains s2) by by destruct s2.
        rewrite Hd2, Hd1, length_app. lia.
      * replace (drains (set_cleanups _ s2)) with (drains s2) by by destruct s2.
        rewrite Hd2, Hd1. intros d Hd Hl.
        apply lookup_app_Some in Hl as [Hl|[_ Hl]]; [by eapply I3|].
        destruct (d - length (drains s))%nat; by simplify_eq/=.
      * intros k d.
        replace (cleanups (set_cleanups _ s2))
          with (cleanups s2 ++ [CAwait (Some (length (drains s1)))]) by by destruct s2.
        rewrite Hcl2, Hcl1. apply Hadd; try done.
        intros d' [= <-]. by rewrite Hd1.
      * intros k.
        replace (cleanups (set_cleanups _ s2))
          with (cleanups s2 ++ [CAwait (Some (length (drains s1)))]) by by destruct s2.
        rewrite Hcl2, Hcl1. apply (Hadd _ _ k 0%nat); try done.
        intros d' [= <-]. by rewrite Hd1.
  - assert (Hres : console_restored orig (cleanup_finish s1)).
    { apply cleanup_finish_restores.
      destruct HJ as [Hrec|[Hemp Hcon]]; [left|right].
      - intros m Hm. rewrite Hr1. by apply Hrec.
      - split; [by rewrite Hr1|]. intros m Hm. rewrite Hc1. by apply Hcon. }
    pose proof (console_restored_error orig _ Horig Hres) as Hcall.
    assert (Hd : drains (cleanup_finish s1) = drains s) by (rewrite <- Hd1; by destruct s1).
    assert (Hcl : cleanups (cleanup_finish s1) = cleanups s) by (rewrite <- Hcl1; by destruct s1).
    repeat split.
    + replace (console (set_cleanups _ (cleanup_finish s1))) with (console (cleanup_finish s1))
        by by destruct (cleanup_finish s1).
      exact Hcall.
    + replace (drains (set_cleanups _ (cleanup_finish s1))) with (drains (cleanup_finish s1))
        by by destruct (cleanup_finish s1).
      by rewrite Hd.
    + replace (drains (set_cleanups _ (cleanup_finish s1))) with (drains (cleanup_finish s1))
        by by destruct (cleanup_finish s1).
      by rewrite Hd.
    + intros k d.
      replace (cleanups (set_cleanups _ (cleanup_finish s1)))
        with (cleanups (cleanup_finish s1) ++ [CDone]) by by destruct (cleanup_finish s1).
      rewrite Hcl. by apply Hadd.
    + intros k.
      replace (cleanups (set_cleanups _ (cleanup_finish s1)))
        with (cleanups (cleanup_finish s1) ++ [CDone]) by by destruct (cleanup_finish s1).
      rewrite Hcl. by apply (Hadd _ _ k 0%nat).
Qed.

Lemma no_throw_inv_cleanup_resume n0 d0 orig k s s' :
  callable (orig "error") = true ->
  cleanup_resume k s = Some s' ->
  cleanup_inv n0 orig s ->
  no_throw_inv n0 d0 s -> no_throw_inv n0 d0 s'.
Proof.
  intros Horig H [HJ _] (I1 & I2 & I3 & I4 & I5). unfold cleanup_resume in H.
  assert (Hins : forall st k' , st <> CThrew ->
            (forall d, st <> CAwait (Some d)) ->
            (forall d, (n0 <= k')%nat ->
               <[k := st]> (cleanups s) !! k' = Some (CAwait (Some d)) -> (d0 <= d)%nat)
            /\ ((n0 <= k')%nat -> <[k := st]> (cleanups s) !! k' <> Some CThrew)).
  { intros st k' Hst1 Hst2. split.
    - intros d Hk Hl.
      apply list_lookup_insert_Some in Hl as [(_ & ? & _)|[_ ?]]; [by edestruct Hst2|].
      by eapply I4.
    - intros Hk Hl.
      apply list_lookup_insert_Some in Hl as [(_ & ? & _)|[_ ?]]; [done|].
      by eapply I5. }
  assert (Hf : no_throw_inv n0 d0 (set_cleanup k CDone (cleanup_finish s))).
  { pose proof (console_restored_error orig _ Horig (cleanup_finish_restores orig s HJ))
      as Hcall.
    unfold set_cleanup.
    replace (cleanups (cleanup_finish s)) with (cleanups s) by by destruct s.
    repeat split.
    - replace (console (set_cleanups _ (cleanup_finish s))) with (console (cleanup_finish s))
        by by destruct (cleanup_finish s).
      exact Hcall.
    - replace (drains (set_cleanups _ (cleanup_finish s))) with (drains s) by by destruct s.
      done.
    - replace (drains (set_cleanups _ (cleanup_finish s))) with (drains s) by by destruct s.
      done.
    - intros k' d.
      replace (cleanups (set_cleanups _ (cleanup_finish s))) with (<[k:=CDone]> (cleanups s))
        by by destruct s.
      by apply Hins.
    - intros k'.
      replace (cleanups (set_cleanups _ (cleanup_finish s))) with (<[k:=CDone]> (cleanups s))
        by by destruct s.
      by apply (Hins CDone k'). }
  destruct (cleanups s !! k) as [[[d|]| |]|] eqn:Ek; try discriminate.
  - destruct (drains s !! d) as [[]|] eqn:Ed; try discriminate; injection H as <-; [done|].
    destruct (decide (n0 <= k)%nat) as [Hk|Hk].
    + exfalso. apply (I3 d); [by eapply I4|done].
    + unfold set_cleanup. repeat split.
      * by destruct s.
      * by destruct s.
      * replace (drains (set_cleanups _ s)) with (drains s) by by destruct s. done.
      * intros k' d' Hk' Hl.
        replace (cleanups (set_cleanups _ s)) with (<[k:=CThrew]> (cleanups s)) in Hl
          by by destruct s.
        apply list_lookup_insert_Some in Hl as [(_ & ? & _)|[_ ?]]; [done|]. by eapply I4.
      * intros k' Hk' Hl.
        replace (cleanups (set_cleanups _ s)) with (<[k:=CThrew]> (cleanups s)) in Hl
          by by destruct s.
        apply list_lookup_insert_Some in Hl as [(-> & _)|[_ ?]]; [lia|]. by eapply I5.
  - by injection H as <-.
Qed.

Lemma step_no_throw_inv n0 d0 orig cap ev s s' :
  sched P <> SchedThrows ->
  callable (orig "error") = true ->
  is_enhance ev = false ->
  step cap ev s = Some s' ->
  cleanup_inv n0 orig s /\ no_throw_inv n0 d0 s ->
  cleanup_inv n0 orig s' /\ no_throw_inv n0 d0 s'.
Proof.
  intros Hs Horig He H [Hci Hnt].
  split; [by eapply step_cleanup_inv|].
  destruct (is_cleanup ev) eqn:Hc.
  - destruct ev; try discriminate; cbn in H.
    + injection H as <-. by eapply no_throw_inv_cleanup_start.
    + by eapply no_throw_inv_cleanup_resume.
  - by eapply no_throw_inv_quiet.
Qed.

(** C6. After [enhance] on any console and any later events with no further
    [enhance], once a cleanup started after it has completed, each of the
    five console methods is the function the console held before
    [enhance], and the registry is empty.  A second [cleanup] then restores
    nothing: the console and the empty registry stay as they are; with an
    empty queue it completes at once, and with the caches empty as well it
    changes nothing at all.  And where the scheduler does not throw and
    the pre-install [console.error] returns, no cleanup called from then
    on ends by throwing, whatever is still queued. *)
Theorem cleanup_restores_console s0 evs s k :
  Forall (fun e => is_enhance e.1 = false) evs ->
  run evs (enhance s0) = Some s ->
  (length (cleanups s0) <= k)%nat ->
  cleanups s !! k = Some CDone ->
  (forall m, m ∈ methods -> console_get (console s) m = console_get (console s0) m)
  /\ originalMethods s = ∅
  /\ console (cleanup_start s) = console s
  /\ originalMethods (cleanup_start s) = ∅
  /\ (logQueue s = [] -> cleanups (cleanup_start s) = cleanups s ++ [CDone])
  /\ (logQueue s = [] -> sourceMapCache s = ∅ -> pendingSourceMaps s = ∅ ->
      cleanup_start s = set_cleanups (cleanups s ++ [CDone]) s)
  /\ (sched P <> SchedThrows ->
      callable (console_get (console s0) "error") = true ->
      forall evs2 s2 k2,
        Forall (fun e => is_enhance e.1 = false) evs2 ->
        run evs2 s = Some s2 ->
        (length (cleanups s) <= k2)%nat ->
        cleanups s2 !! k2 <> Some CThrew).
Proof.
  intros Hev Hrun Hk Hdone.
  assert (Hinv : cleanup_inv (length (cleanups s0)) (console_get (console s0)) s).
  { apply (run_invariant (fun ev => negb (is_enhance ev))
             (cleanup_inv (length (cleanups s0)) (console_get (console s0))))
      with (evs := evs) (s := enhance s0);
      [|eapply Forall_impl; [exact Hev|]; intros e He; by rewrite He
       |exact Hrun|apply enhance_cleanup_inv].
    intros cap ev s1 s2 Ha. apply negb_true_iff in Ha. by apply step_cleanup_inv. }
  assert (Htim : timer_cleared s).
  { apply (run_invariant (fun ev => negb (is_enhance ev))
             (fun s1 => (length (cleanups s0) <= length (cleanups s1))%nat
                        /\ ((length (cleanups s0) < length (cleanups s1))%nat
                            -> timer_cleared s1)))
      with (evs := evs) (s := enhance s0);
      [|eapply Forall_impl; [exact Hev|]; intros e He; by rewrite He
       |exact Hrun| |].
    - intros cap ev s1 s2 Ha. apply negb_true_iff in Ha. by apply step_timer_inv.
    - replace (cleanups (enhance s0)) with (cleanups s0) by by destruct s0.
      split; lia.
    - apply lookup_lt_Some in Hdone. lia. }
  destruct Hinv as [_ HK]. destruct (HK k Hk Hdone) as [Hreg Hcon].
  destruct (cleanup_start_registry_empty s Hreg) as [Hc2 Hr2].
  assert (Hq : logQueue s = [] ->
               cleanup_start s
               = set_cleanups (cleanups (cleanup_finish s) ++ [CDone]) (cleanup_finish s)).
  { intros Hq. unfold cleanup_start. rewrite (clearInterval_noop s Htim), Hq. done. }
  split; [exact Hcon|]. split; [exact Hreg|]. split; [exact Hc2|]. split; [exact Hr2|].
  split; [|split].
  - intros Hq'. rewrite (Hq Hq'). destruct (cleanup_finish_host s) as (_ & _ & Hcl).
    rewrite <- Hcl. by destruct (cleanup_finish s).
  - intros Hq' Hca Hpe. rewrite (Hq Hq'). by rewrite cleanup_finish_noop.
  - intros Hs Horig evs2 s2 k2 Hev2 Hrun2 Hk2.
    assert (Hstart : cleanup_inv (length (cleanups s)) (console_get (console s0)) s
                     /\ no_throw_inv (length (cleanups s)) (length (drains s)) s).
    { split; [apply cleanup_inv_restored; by split|].
      split; [|split; [|split; [|split]]].
      - by apply (console_restored_error (console_get (console s0))).
      - done.
      - intros d Hd Hl. apply lookup_lt_Some in Hl. lia.
      - intros k' d Hk' Hl. apply lookup_lt_Some in Hl. lia.
      - intros k' Hk' Hl. apply lookup_lt_Some in Hl. lia. }
    assert (Hend : cleanup_inv (length (cleanups s)) (console_get (console s0)) s2
                   /\ no_throw_inv (length (cleanups s)) (length (drains s)) s2).
    { apply (run_invariant (fun ev => negb (is_enhance ev))
               (fun s1 => cleanup_inv (length (cleanups s)) (console_get (console s0)) s1
                          /\ no_throw_inv (length (cleanups s)) (length (drains s)) s1))
        with (evs := evs2) (s := s);
        [|eapply Forall_impl; [exact Hev2|]; intros e He; by rewrite He
         |exact Hrun2|exact Hstart].
      intros cap ev s1 s3 Ha. apply negb_true_iff in Ha. by apply step_no_throw_inv. }
    destruct Hend as [_ (_ & _ & _ & _ & I5)]. by apply I5.
Qed.

(** ** A cached consumer stays *)











(** * Further properties of the code *)

(** ** With source maps disabled (line 105) *)

Lemma processLogEntry_start_disabled d s entry :
  sourceMapEnabled (options s) = false ->
  processLogEntry_start d s entry = set_tasks (tasks s ++ [raw_task d entry]) s.
Proof.
  intros H. unfold processLogEntry_start, getOriginalLocation_start. by rewrite H.
Qed.

Lemma foldl_start_disabled d batch :
  forall s, sourceMapEnabled (options s) = false ->
  foldl (processLogEntry_start d) s batch
  = set_tasks (tasks s ++ (raw_task d <$> batch)) s.
Proof.
  induction batch as [|e batch IH]; intros s H; cbn.
  - rewrite app_nil_r. by destruct s.
  - rewrite processLogEntry_start_disabled by done.
    rewrite IH by (by destruct s). destruct s; cbn. by rewrite <- app_assoc.
Qed.

Lemma processQueue_start_disabled s :
  sourceMapEnabled (options s) = false ->
  isProcessing s = false -> logQueue s <> [] ->
  processQueue_start s
  = (set_tasks (tasks s ++ (raw_task (length (drains s))
                              <$> take (Z.to_nat (batchSize (options s))) (logQueue s)))
       (set_drains (drains s ++ [DRunning])
          (set_logQueue (drop (Z.to_nat (batchSize (options s))) (logQueue s))
             (set_isProcessing true s))),
     QDrain (length (drains s))).
Proof.
  intros Hd Hp Hq. unfold processQueue_start. rewrite Hp.
  destruct (logQueue s) as [|e q] eqn:E; [done|]. cbn [orb length Nat.eqb].
  rewrite foldl_start_disabled by (by destruct s).
  destruct s; cbn in *. by subst.
Qed.

Lemma tasks_frames : call_frame tasks /\ drain_frame tasks.
Proof. repeat split; intros v s; by destruct s. Qed.

Lemma resolver_unused_same s s' :
  options s' = options s -> loads s' = loads s ->
  pendingSourceMaps s' = pendingSourceMaps s -> sourceMapCache s' = sourceMapCache s ->
  tasks s' = tasks s ->
  resolver_unused s -> resolver_unused s'.
Proof. unfold resolver_unused. by intros -> -> -> -> ->. Qed.

Lemma processQueue_start_unused s :
  resolver_unused s -> resolver_unused (processQueue_start s).1.
Proof.
  intros (Hd & Hl & Hp & Hc & Ht).
  destruct (isProcessing s) eqn:Ep.
  { unfold processQueue_start. rewrite Ep. by repeat split. }
  destruct (logQueue s) as [|e q] eqn:Eq.
  { unfold processQueue_start. rewrite Ep, Eq. by repeat split. }
  rewrite processQueue_start_disabled by (done || by rewrite Eq). cbn.
  unfold resolver_unused. destruct s; cbn in *. subst.
  repeat split; try done.
  apply Forall_app. split; [done|].
  apply Forall_fmap, Forall_forall. intros x _. by left.
Qed.

Lemma cleanup_finish_unused s :
  resolver_unused s -> resolver_unused (cleanup_finish s).
Proof.
  intros (Hd & Hl & Hp & Hc & Ht). unfold resolver_unused.
  destruct s; cbn in *. by subst.
Qed.

Lemma task_step_unused cap k s s' :
  task_step cap k s = Some s' -> resolver_unused s -> resolver_unused s'.
Proof.
  intros H (Hd & Hl & Hp & Hc & Ht).
  destruct loads_frames as (Hlc & _ & Hlt). destruct pending_frames as (Hpc & _ & Hpt).
  destruct cache_frames as (Hcc & _ & Hct & _).
  split; [by rewrite (step_options cap (EvTask k) s s')|].
  split; [by rewrite (task_step_frame loads cap k s s')|].
  split; [by rewrite (task_step_frame pendingSourceMaps cap k s s')|].
  split; [by rewrite (task_step_frame sourceMapCache cap k s s')|].
  unfold task_step in H.
  destruct (tasks s !! k) as [t|] eqn:Ek; [|discriminate].
  destruct (task_location t s) as [r|]; [|discriminate].
  pose proof (processLogEntry_finish_frame tasks cap (t_entry t) r s (proj1 tasks_frames)) as Hq.
  assert (Hins : forall st, st = TDone \/ st = TRejected ->
            Forall task_is_raw (<[k := mkTask (t_drain t) (t_entry t) st]> (tasks s))).
  { intros st Hst. apply Forall_insert; [done|]. right. exact Hst. }
  destruct (processLogEntry_finish _ _ _ s) as [s1 []]; cbn in Hq; injection H as <-;
    unfold set_task_status;
    (replace (tasks (set_tasks _ s1)) with
       (<[k := mkTask (t_drain t) (t_entry t) TDone]> (tasks s1)) by (by destruct s1))
    || (replace (tasks (set_tasks _ s1)) with
       (<[k := mkTask (t_drain t) (t_entry t) TRejected]> (tasks s1)) by (by destruct s1));
    rewrite Hq; apply Hins; tauto.
Qed.

Lemma step_unused cap ev s s' :
  step cap ev s = Some s' -> resolver_unused s -> resolver_unused s'.
Proof.
  destruct loads_frames as (Hlc & Hld & Hlt). destruct pending_frames as (Hpc & Hpd & Hpt).
  destruct cache_frames as (Hcc & Hcd & Hct & _). destruct tasks_frames as (Htc & Htd).
  intros H Hinv. destruct ev; cbn in H.
  - injection H as <-. revert Hinv.
    apply resolver_unused_same; try by apply call_fn_frame.
    by destruct (call_fn_keeps_host cap (console_get (console s) method) args s)
      as (_ & _ & ? & _).
  - injection H as <-. revert Hinv. apply resolver_unused_same; by destruct s.
  - injection H as <-. unfold cleanup_start.
    assert (H1 : resolver_unused (clearInterval (flushIntervalId s) s)).
    { revert Hinv. apply resolver_unused_same; unfold clearInterval;
        destruct (flushIntervalId s); by destruct s. }
    case_match.
    + pose proof (processQueue_start_unused _ H1) as H2.
      destruct (processQueue_start _) as [s2 []]; cbn in H2; revert H2;
        apply resolver_unused_same; by destruct s2.
    + pose proof (cleanup_finish_unused _ H1) as H2. revert H2.
      apply resolver_unused_same; by destruct (cleanup_finish _).
  - unfold cleanup_resume in H.
    assert (Hf : resolver_unused (set_cleanup k CDone (cleanup_finish s))).
    { pose proof (cleanup_finish_unused _ Hinv) as H2. revert H2.
      apply resolver_unused_same; by destruct (cleanup_finish _). }
    destruct (cleanups s !! k) as [[[d|]| |]|]; try discriminate.
    + destruct (drains s !! d) as [[]|]; try discriminate; injection H as <-; [done|].
      revert Hinv. apply resolver_unused_same; by destruct s.
    + by injection H as <-.
  - destruct (scheduled s) as [|n] eqn:E; [discriminate|]. injection H as <-.
    apply processQueue_start_unused. revert Hinv.
    apply resolver_unused_same; by destruct s.
  - case_match; [|discriminate]. case_match; injection H as <-; [|done].
    by apply processQueue_start_unused.
  - unfold load_io in H. destruct Hinv as (_ & Hl & _). rewrite Hl in H. done.
  - unfold load_write in H. destruct Hinv as (_ & Hl & _). rewrite Hl in H. done.
  - by eapply task_step_unused.
  - revert Hinv.
    apply resolver_unused_same; try by eapply drain_step_frame.
    by eapply (step_options cap (EvDrain d)).
Qed.

(** X1. With [sourceMapEnabled] false, from construction on and whatever
    happens, no source-map load is ever started, the in-memory cache and
    the in-flight registry stay empty, and every entry taken from the queue
    carries its own captured frame as its location. *)
Theorem disabled_source_maps_never_load oa c evs s :
  sourceMapEnabled (merge_options oa) = false ->
  run evs (new_enhancer oa c) = Some s ->
  loads s = [] /\ pendingSourceMaps s = ∅ /\ sourceMapCache s = ∅
  /\ forall k t, tasks s !! k = Some t ->
       task_location t s = Some (LocOk (frame_value (e_stack (t_entry t))))
       \/ t_status t = TDone \/ t_status t = TRejected.
Proof.
  intros Hd Hrun.
  assert (Hinv : resolver_unused s).
  { apply (run_invariant (fun _ => true) resolver_unused)
      with (evs := evs) (s := new_enhancer oa c);
      [|by apply Forall_forall|exact Hrun|].
    - intros cap ev s1 s2 _. apply step_unused.
    - by repeat split. }
  destruct Hinv as (_ & Hl & Hp & Hc & Ht).
  split; [exact Hl|]. split; [exact Hp|]. split; [exact Hc|].
  intros k t Hk.
  pose proof (Forall_lookup_1 _ _ _ _ Ht Hk) as [H|[H|H]]; [left|tauto|tauto].
  unfold task_location. by rewrite H.
Qed.

(** ** processQueue takes a batch from the front (lines 158-165) *)

Lemma getOriginalLocation_start_tasks frame s :
  tasks (getOriginalLocation_start frame s).1 = tasks s.
Proof.
  unfold getOriginalLocation_start.
  destruct (negb _); [done|]. destruct frame as [f|]; [|done].
  destruct (frame_match f) as [m|]; [|done].
  pose proof (loadSourceMap_start_frame tasks (m_fileUrl m) s) as H.
  destruct (loadSourceMap_start _ s) as [s' []]; cbn in *; apply H;
    split; intros v s0; by destruct s0.
Qed.

Lemma processLogEntry_start_tasks d s entry :
  exists st, tasks (processLogEntry_start d s entry) = tasks s ++ [mkTask d entry st].
Proof.
  unfold processLogEntry_start.
  pose proof (getOriginalLocation_start_tasks (e_stack entry) s) as H.
  destruct (getOriginalLocation_start _ s) as [s1 st]. cbn in H.
  exists st. rewrite <- H. by destruct s1.
Qed.

Lemma foldl_start_tasks d batch :
  forall s, exists new,
    tasks (foldl (processLogEntry_start d) s batch) = tasks s ++ new
    /\ t_entry <$> new = batch
    /\ Forall (fun t => t_drain t = d) new.
Proof.
  induction batch as [|e batch IH]; intros s; cbn.
  - exists []. by rewrite app_nil_r.
  - destruct (processLogEntry_start_tasks d s e) as [st Hst].
    destruct (IH (processLogEntry_start d s e)) as (new & Ht & He & Hd).
    exists (mkTask d e st :: new). rewrite Ht, Hst, <- app_assoc.
    split; [done|]. split; [by rewrite fmap_cons, He|]. by constructor.
Qed.

Lemma foldl_start_frame {A} (proj : State -> A) d batch :
  loads_frame proj -> tasks_frame proj ->
  forall s, proj (foldl (processLogEntry_start d) s batch) = proj s.
Proof.
  intros Hl Ht. induction batch as [|e batch IH]; intros s; cbn; [done|].
  by rewrite IH, processLogEntry_start_frame.
Qed.

(** X2. A [processQueue] call that passes its guard takes the first
    [batchSize] entries of the queue, in queue order, as the tasks of one
    new drain; the rest of the queue stays, in order, and earlier tasks are
    untouched: nothing is lost and nothing is reordered. *)
Theorem processQueue_takes_front_batch s :
  isProcessing s = false ->
  logQueue s <> [] ->
  exists s' new,
    processQueue_start s = (s', QDrain (length (drains s)))
    /\ isProcessing s' = true
    /\ drains s' = drains s ++ [DRunning]
    /\ tasks s' = tasks s ++ new
    /\ Forall (fun t => t_drain t = length (drains s)) new
    /\ t_entry <$> new = take (Z.to_nat (batchSize (options s))) (logQueue s)
    /\ logQueue s' = drop (Z.to_nat (batchSize (options s))) (logQueue s)
    /\ (t_entry <$> new) ++ logQueue s' = logQueue s.
Proof.
  intros Hp Hq. unfold processQueue_start. rewrite Hp.
  destruct (logQueue s) as [|e q] eqn:Eq; [done|]. cbn [orb length Nat.eqb]. cbv zeta.
  rewrite <- Eq. clear Eq e q Hq.
  destruct s as [o ca qu ip om pe fi co iv sc ni lo ta dr cl de ou]. cbn in *. subst ip.
  set (s0 := mkState o ca (drop (Z.to_nat (batchSize o)) qu) true om pe fi co iv sc ni lo ta
               (dr ++ [DRunning]) cl de ou).
  destruct (foldl_start_tasks (length dr) (take (Z.to_nat (batchSize o)) qu) s0)
    as (new & Ht & He & Hf).
  assert (Hfr : forall {A} (proj : State -> A), loads_frame proj -> tasks_frame proj ->
            proj (foldl (processLogEntry_start (length dr)) s0
                    (take (Z.to_nat (batchSize o)) qu)) = proj s0).
  { intros A proj Hl Htf. by apply foldl_start_frame. }
  exists (foldl (processLogEntry_start (length dr)) s0 (take (Z.to_nat (batchSize o)) qu)), new.
  split; [reflexivity|].
  split; [rewrite Hfr; [done|split|]; intros v s1; by destruct s1|].
  split; [rewrite Hfr; [done|split|]; intros v s1; by destruct s1|].
  split; [exact Ht|]. split; [exact Hf|]. split; [exact He|].
  assert (Hrest : logQueue (foldl (processLogEntry_start (length dr)) s0
                              (take (Z.to_nat (batchSize o)) qu))
                  = drop (Z.to_nat (batchSize o)) qu)
    by (rewrite Hfr; [done|split|]; intros v s1; by destruct s1).
  split; [exact Hrest|]. rewrite He, Hrest. apply take_drop.
Qed.

(** ** One drain at a time (lines 159-169) *)

Lemma count_running_app l1 l2 :
  count_running (l1 ++ l2) = (count_running l1 + count_running l2)%nat.
Proof. induction l1 as [|[] l1 IH]; cbn; lia. Qed.

Lemma count_running_settle l d st :
  l !! d = Some DRunning -> st <> DRunning ->
  S (count_running (<[d := st]> l)) = count_running l.
Proof.
  revert d. induction l as [|x l IH]; intros d Hd Hst; [done|].
  destruct d as [|d].
  - injection Hd as ->. by destruct st.
  - specialize (IH d Hd Hst).
    change (<[S d:=st]> (x :: l)) with (x :: <[d:=st]> l).
    destruct x; cbn [count_running]; lia.
Qed.

Lemma count_running_zero l d : count_running l = 0%nat -> l !! d <> Some DRunning.
Proof.
  revert d. induction l as [|x l IH]; intros d H; [done|].
  destruct d as [|d]; cbn.
  - destruct x; [discriminate|done..].
  - apply IH. destruct x; [discriminate|done..].
Qed.

Lemma count_running_unique l d1 d2 :
  (count_running l <= 1)%nat ->
  l !! d1 = Some DRunning -> l !! d2 = Some DRunning -> d1 = d2.
Proof.
  revert d1 d2. induction l as [|x l IH]; intros d1 d2 H H1 H2; [done|].
  destruct d1 as [|d1], d2 as [|d2]; cbn in *; try done.
  - injection H1 as ->. cbn in H. exfalso.
    apply (count_running_zero l d2); [lia|done].
  - injection H2 as ->. cbn in H. exfalso.
    apply (count_running_zero l d1); [lia|done].
  - f_equal. apply IH; try done. destruct x; cbn in H; lia.
Qed.

Lemma count_running_positive l d : l !! d = Some DRunning -> (0 < count_running l)%nat.
Proof.
  intros H. destruct (count_running l) eqn:E; [|lia].
  by destruct (count_running_zero l d E).
Qed.

Lemma one_drain_inv_same s s' :
  isProcessing s' = isProcessing s -> drains s' = drains s ->
  one_drain_inv s -> one_drain_inv s'.
Proof. unfold one_drain_inv. by intros -> ->. Qed.

Lemma processQueue_start_flag s :
  match processQueue_start s with
  | (s', QGuard) => s' = s
  | (s', QDrain _) => isProcessing s = false /\ isProcessing s' = true
  end.
Proof.
  unfold processQueue_start. destruct (isProcessing s) eqn:Ep; [done|].
  destruct (length (logQueue s) =? 0)%nat; [done|]. cbn. split; [done|].
  rewrite (foldl_start_frame isProcessing); [by destruct s|split|]; intros v s0; by destruct s0.
Qed.

Lemma processQueue_start_one_drain s :
  one_drain_inv s -> one_drain_inv (processQueue_start s).1.
Proof.
  intros Hinv. pose proof (processQueue_start_flag s) as Hf.
  pose proof (processQueue_start_drains s) as Hd.
  destruct (processQueue_start s) as [s' [|d]]; cbn; [by subst|].
  destruct Hf as [Hp Hp']. destruct Hd as [_ Hd].
  unfold one_drain_inv in *. rewrite Hp in Hinv.
  rewrite Hp', Hd, count_running_app, Hinv. done.
Qed.

(** Whatever the outcome, the end of a drain clears the flag and settles
    the drain. *)
Lemma processQueue_finish_settles cap d all s :
  isProcessing (processQueue_finish cap d all s) = false
  /\ exists st, st <> DRunning
       /\ drains (processQueue_finish cap d all s) = <[d := st]> (drains s).
Proof.
  unfold processQueue_finish.
  assert (Hd : call_frame drains) by (repeat split; intros v s0; by destruct s0).
  assert (H : drains (match all with
     | AllRejected => call_fn cap (console_get (console s) "error")
                        [VStr "Error processing log queue:"; error_object] s
     | _ => (s, Normal)
     end).1 = drains s).
  { destruct all; try done. by apply call_fn_frame. }
  destruct (match all with AllRejected => _ | _ => _ end) as [s1 r1].
  cbn in H. rewrite <- H. unfold settle_drain.
  destruct r1.
  - destruct (0 <? length (logQueue (set_isProcessing false s1)))%nat.
    + assert (Hi : call_frame isProcessing) by (repeat split; intros v s0; by destruct s0).
      pose proof (schedule_frame drains (set_isProcessing false s1) Hd) as H2.
      pose proof (schedule_frame isProcessing (set_isProcessing false s1) Hi) as H3.
      destruct (scheduleQueueProcessing _) as [s3 []]; cbn in H2, H3.
      * split.
        { transitivity (isProcessing s3); [by destruct s3|]. rewrite H3. by destruct s1. }
        exists DResolved. split; [done|].
        transitivity (<[d:=DResolved]> (drains s3)); [by destruct s3|].
        rewrite H2. by destruct s1.
      * split.
        { transitivity (isProcessing s3); [by destruct s3|]. rewrite H3. by destruct s1. }
        exists DRejected. split; [done|].
        transitivity (<[d:=DRejected]> (drains s3)); [by destruct s3|].
        rewrite H2. by destruct s1.
    + split; [by destruct s1|]. exists DResolved. split; [done|by destruct s1].
  - split; [by destruct s1|]. exists DRejected. split; [done|by destruct s1].
Qed.

Lemma flag_frames :
  call_frame isProcessing /\ tasks_frame isProcessing /\ loads_frame isProcessing
  /\ cache_frame isProcessing.
Proof. repeat split; intros v s; by destruct s. Qed.

Lemma step_one_drain cap ev s s' :
  step cap ev s = Some s' -> one_drain_inv s -> one_drain_inv s'.
Proof.
  destruct flag_frames as (Hic & Hit & Hil & Hica).
  destruct drains_frames as (Hdc & Hdt & Hdl & Hdca).
  intros H Hinv. destruct ev; cbn in H.
  - injection H as <-. revert Hinv. apply one_drain_inv_same; by apply call_fn_frame.
  - injection H as <-. revert Hinv. apply one_drain_inv_same; by destruct s.
  - injection H as <-. unfold cleanup_start.
    assert (H1 : one_drain_inv (clearInterval (flushIntervalId s) s)).
    { revert Hinv. apply one_drain_inv_same; unfold clearInterval;
        destruct (flushIntervalId s); by destruct s. }
    case_match.
    + pose proof (processQueue_start_one_drain _ H1) as H2.
      destruct (processQueue_start _) as [s2 []]; cbn in H2; revert H2;
        apply one_drain_inv_same; by destruct s2.
    + revert H1. apply one_drain_inv_same; by destruct (clearInterval _ s).
  - unfold cleanup_resume in H.
    destruct (cleanups s !! k) as [[[d|]| |]|]; try discriminate.
    + destruct (drains s !! d) as [[]|]; try discriminate; injection H as <-;
        revert Hinv; apply one_drain_inv_same; by destruct s.
    + injection H as <-. revert Hinv. apply one_drain_inv_same; by destruct s.
  - destruct (scheduled s) as [|n] eqn:E; [discriminate|]. injection H as <-.
    apply processQueue_start_one_drain. revert Hinv.
    apply one_drain_inv_same; by destruct s.
  - case_match; [|discriminate]. case_match; injection H as <-; [|done].
    by apply processQueue_start_one_drain.
  - revert Hinv. apply one_drain_inv_same; by eapply load_io_frame.
  - revert Hinv. apply one_drain_inv_same; by eapply load_write_frame.
  - revert Hinv. apply one_drain_inv_same; by eapply task_step_frame.
  - unfold drain_step in H.
    destruct (drains s !! d) as [[]|] eqn:Ed; try discriminate.
    assert (Hfin : forall all, one_drain_inv (processQueue_finish cap d all s)).
    { intros all.
      destruct (processQueue_finish_settles cap d all s) as (Hp & st & Hst & Hdr).
      unfold one_drain_inv in *. rewrite Hp, Hdr.
      pose proof (count_running_settle _ _ _ Ed Hst) as Hc.
      pose proof (count_running_positive _ _ Ed) as Hpos.
      destruct (isProcessing s); lia. }
    destruct (promise_all _); try discriminate; injection H as <-; apply Hfin.
Qed.

Lemma count_running_exists l :
  (0 < count_running l)%nat -> exists d, l !! d = Some DRunning.
Proof.
  induction l as [|x l IH]; cbn; [lia|]. intros H.
  destruct x; [by exists 0%nat|..]; destruct (IH H) as [d Hd]; by exists (S d).
Qed.

(** X3. From construction on, after any events, the in-progress flag is set
    exactly when a drain is running, and at most one drain is running:
    while one is, every further [processQueue] call returns at its guard
    and changes nothing. *)
Theorem at_most_one_drain_running oa c evs s :
  run evs (new_enhancer oa c) = Some s ->
  (isProcessing s = true <-> exists d, drains s !! d = Some DRunning)
  /\ (forall d1 d2, drains s !! d1 = Some DRunning -> drains s !! d2 = Some DRunning ->
                    d1 = d2)
  /\ (forall d, drains s !! d = Some DRunning -> processQueue_start s = (s, QGuard)).
Proof.
  intros Hrun.
  assert (Hinv : one_drain_inv s).
  { apply (run_invariant (fun _ => true) one_drain_inv)
      with (evs := evs) (s := new_enhancer oa c);
      [|by apply Forall_forall|exact Hrun|done].
    intros cap ev s1 s2 _. apply step_one_drain. }
  unfold one_drain_inv in Hinv.
  assert (Hrun1 : forall d, drains s !! d = Some DRunning -> isProcessing s = true).
  { intros d Hd. pose proof (count_running_positive _ _ Hd).
    destruct (isProcessing s); [done|lia]. }
  split; [split|split].
  - intros Hp. rewrite Hp in Hinv. apply count_running_exists. lia.
  - intros [d Hd]. by eapply Hrun1.
  - intros d1 d2. apply count_running_unique. destruct (isProcessing s); lia.
  - intros d Hd. unfold processQueue_start. by rewrite (Hrun1 d Hd).
Qed.



(** ** A whole batch, source maps disabled *)

Lemma task_step_raw cap k d entry name s :
  tasks s !! k = Some (raw_task d entry) ->
  originalMethods s !! e_method entry = Some (Native name) ->
  task_step cap k s
  = Some (set_tasks (<[k := done_task d entry]> (tasks s))
            (set_output (output s ++ [raw_emission (originalMethods s) entry]) s)).
Proof.
  intros Hk Hm. unfold task_step. rewrite Hk. cbn.
  unfold processLogEntry_finish. rewrite (registry_apply_native _ _ name) by done.
  unfold set_task_status, raw_emission, native_name, done_task. rewrite Hm.
  by destruct s.
Qed.

Lemma run_raw_tasks cap d batch :
  forall pre post s,
    tasks s = pre ++ (raw_task d <$> batch) ++ post ->
    natively_registered (originalMethods s) batch ->
    run (task_events cap (length pre) (length batch)) s
    = Some (set_tasks (pre ++ (done_task d <$> batch) ++ post)
              (set_output (output s ++ (raw_emission (originalMethods s) <$> batch)) s)).
Proof.
  induction batch as [|e batch IH]; intros pre post s Ht Hn.
  - cbn in *. rewrite app_nil_r, <- Ht. by destruct s.
  - inversion Hn as [|? ? [name Hname] Hrest]; subst.
    unfold task_events. cbn [length seq fmap list_fmap run].
    assert (Hk : tasks s !! (length pre + 0)%nat = Some (raw_task d e)).
    { rewrite Ht, Nat.add_0_r. by rewrite lookup_app_r, Nat.sub_diag. }
    cbn [step]. rewrite (task_step_raw cap _ d e name s Hk Hname).
    set (s1 := set_tasks _ _).
    assert (Ht1 : tasks s1 = (pre ++ [done_task d e]) ++ (raw_task d <$> batch) ++ post).
    { subst s1. rewrite Ht, Nat.add_0_r. destruct s; cbn.
      rewrite insert_app_r_alt, Nat.sub_diag by done. cbn. by rewrite <- app_assoc. }
    assert (Hreg : originalMethods s1 = originalMethods s) by (subst s1; by destruct s).
    specialize (IH (pre ++ [done_task d e]) post s1 Ht1).
    rewrite Hreg in IH. specialize (IH Hrest).
    rewrite <- fmap_S_seq, <- list_fmap_compose.
    unfold task_events in IH. rewrite length_app in IH. cbn [length] in IH.
    erewrite list_fmap_ext; [rewrite IH|intros i x Hx; cbn; do 2 f_equal; lia].
    f_equal. subst s1. destruct s; cbn. rewrite <- !app_assoc. done.
Qed.

Lemma promise_all_done d batch : promise_all (done_task d <$> batch) = AllFulfilled.
Proof.
  unfold promise_all.
  replace (existsb is_rejected (done_task d <$> batch)) with false
    by (induction batch; cbn; [done|by rewrite <- IHbatch]).
  replace (forallb is_done (done_task d <$> batch)) with true
    by (induction batch; cbn; [done|by rewrite <- IHbatch]).
  done.
Qed.

Lemma filter_known_drains (pre : list Task) (d : nat) batch :
  Forall (fun t => (t_drain t < d)%nat) pre ->
  filter (fun t => t_drain t = d) (pre ++ (done_task d <$> batch)) = done_task d <$> batch.
Proof.
  intros Hpre. rewrite filter_app.
  replace (filter (fun t => t_drain t = d) pre) with (@nil Task).
  - rewrite app_nil_l. induction batch as [|e batch IH]; [done|].
    rewrite fmap_cons, filter_cons_True by done. by rewrite IH.
  - induction Hpre as [|t pre Ht _ IH]; [done|].
    rewrite filter_cons_False by (cbn; lia). exact IH.
Qed.

(** The batch of a drain, run to its end: the tasks in order, then the end
    of the drain. *)
Lemma drain_raw_batch cap s :
  sourceMapEnabled (options s) = false ->
  isProcessing s = false -> logQueue s <> [] ->
  natively_registered (originalMethods s)
    (take (Z.to_nat (batchSize (options s))) (logQueue s)) ->
  tasks_of_known_drains s ->
  exists s1 s2,
    processQueue_start s = (s1, QDrain (length (drains s)))
    /\ run (task_events cap (length (tasks s))
              (length (take (Z.to_nat (batchSize (options s))) (logQueue s)))) s1 = Some s2
    /\ drain_step cap (length (drains s)) s2
       = Some (processQueue_finish cap (length (drains s)) AllFulfilled s2)
    /\ s2 = set_tasks (tasks s ++ (done_task (length (drains s))
                                     <$> take (Z.to_nat (batchSize (options s))) (logQueue s)))
              (set_output (output s ++ (raw_emission (originalMethods s)
                                          <$> take (Z.to_nat (batchSize (options s))) (logQueue s)))
                 (set_drains (drains s ++ [DRunning])
                    (set_logQueue (drop (Z.to_nat (batchSize (options s))) (logQueue s))
                       (set_isProcessing true s)))).
Proof.
  intros Hd Hp Hq Hn Hk.
  eexists _, _. split; [by apply processQueue_start_disabled|].
  set (batch := take (Z.to_nat (batchSize (options s))) (logQueue s)) in *.
  set (s1 := set_tasks _ _).
  assert (Hrun : run (task_events cap (length (tasks s)) (length batch)) s1
                 = Some (set_tasks (tasks s ++ (done_task (length (drains s)) <$> batch) ++ [])
                           (set_output (output s1 ++ (raw_emission (originalMethods s1) <$> batch))
                              s1))).
  { apply run_raw_tasks.
    - subst s1. rewrite app_nil_r. by destruct s.
    - subst s1. replace (originalMethods (set_tasks _ _)) with (originalMethods s)
        by (by destruct s). exact Hn. }
  rewrite app_nil_r in Hrun.
  split; [|split]; [| |reflexivity].
  - rewrite Hrun. f_equal. subst s1. by destruct s.
  - unfold drain_step.
    replace (drains (set_tasks _ _)) with (drains s ++ [DRunning]) by (by destruct s).
    rewrite lookup_app_r, Nat.sub_diag by done. cbn [lookup list_lookup].
    unfold tasks_of.
    replace (tasks (set_tasks _ _))
      with (tasks s ++ (done_task (length (drains s)) <$> batch)) by (by destruct s).
    rewrite filter_known_drains by exact Hk.
    by rewrite promise_all_done.
Qed.

(** The end of a drain whose entries are all fulfilled. *)
Lemma processQueue_finish_fulfilled cap d s :
  exists st sc,
    processQueue_finish cap d AllFulfilled s
    = set_drains (<[d := st]> (drains s)) (set_scheduled sc (set_isProcessing false s))
    /\ (logQueue s = [] -> sc = scheduled s /\ st = DResolved)
    /\ (logQueue s <> [] -> sched P <> SchedThrows -> sc = S (scheduled s) /\ st = DResolved).
Proof.
  unfold processQueue_finish, settle_drain. cbn.
  replace (logQueue (set_isProcessing false s)) with (logQueue s) by (by destruct s).
  destruct (logQueue s) as [|e q] eqn:Eq; cbn [length Nat.ltb Nat.leb].
  - exists DResolved, (scheduled s). split; [by destruct s|]. split; [done|]. done.
  - unfold scheduleQueueProcessing. destruct (sched P) eqn:Es.
    + exists DResolved, (S (scheduled s)). split; [by destruct s|]. split; done.
    + exists DResolved, (S (scheduled s)). split; [by destruct s|]. split; done.
    + exists DRejected, (scheduled s). split; [by destruct s|]. split; done.
Qed.

(** X4. Source maps disabled, native functions registered: a drain that
    takes a batch and runs to its end prints every entry of the batch
    exactly once, in queue order, each with its own frame as location;
    the rest of the queue is kept, the in-progress flag is cleared, and a
    further drain is scheduled exactly when entries remain. *)
Theorem drained_batch_printed_in_order cap s :
  sourceMapEnabled (options s) = false ->
  isProcessing s = false -> logQueue s <> [] ->
  natively_registered (originalMethods s)
    (take (Z.to_nat (batchSize (options s))) (logQueue s)) ->
  tasks_of_known_drains s ->
  exists s1 s2 s3,
    processQueue_start s = (s1, QDrain (length (drains s)))
    /\ run (task_events cap (length (tasks s))
              (length (take (Z.to_nat (batchSize (options s))) (logQueue s)))) s1 = Some s2
    /\ drain_step cap (length (drains s)) s2 = Some s3
    /\ output s3
       = output s ++ (raw_emission (originalMethods s)
                        <$> take (Z.to_nat (batchSize (options s))) (logQueue s))
    /\ logQueue s3 = drop (Z.to_nat (batchSize (options s))) (logQueue s)
    /\ isProcessing s3 = false
    /\ (drop (Z.to_nat (batchSize (options s))) (logQueue s) = [] ->
        scheduled s3 = scheduled s)
    /\ (drop (Z.to_nat (batchSize (options s))) (logQueue s) <> [] ->
        sched P <> SchedThrows -> scheduled s3 = S (scheduled s)).
Proof.
  intros Hd Hp Hq Hn Hk.
  destruct (drain_raw_batch cap s Hd Hp Hq Hn Hk) as (s1 & s2 & E1 & E2 & E3 & Hs2).
  exists s1, s2, (processQueue_finish cap (length (drains s)) AllFulfilled s2).
  split; [exact E1|]. split; [exact E2|]. split; [exact E3|].
  destruct (processQueue_finish_fulfilled cap (length (drains s)) s2)
    as (st & sc & -> & Hempty & Hmore).
  assert (Hl : logQueue s2 = drop (Z.to_nat (batchSize (options s))) (logQueue s))
    by (rewrite Hs2; by destruct s).
  assert (Hsc : scheduled s2 = scheduled s) by (rewrite Hs2; by destruct s).
  rewrite Hl, Hsc in *.
  split; [rewrite Hs2; by destruct s|].
  split; [rewrite <- Hl; by destruct s2|].
  split; [by destruct s2|].
  split.
  - intros He. destruct (Hempty He) as [-> _]. by destruct s2.
  - intros Hne Hs. destruct (Hmore Hne Hs) as [-> _]. by destruct s2.
Qed.

(** X5. Source maps disabled, native functions registered, no drain in
    progress, and a non-empty queue that fits in one batch: [cleanup()]
    prints every queued entry once, in order, before it restores the
    console from the registry, empties the registry and completes. *)
Theorem cleanup_flushes_queue_within_one_batch cap s :
  sourceMapEnabled (options s) = false ->
  isProcessing s = false -> logQueue s <> [] ->
  (length (logQueue s) <= Z.to_nat (batchSize (options s)))%nat ->
  natively_registered (originalMethods s) (logQueue s) ->
  tasks_of_known_drains s ->
  exists s1 s2 s3 s4,
    cleanup_start s = s1
    /\ cleanups s1 = cleanups s ++ [CAwait (Some (length (drains s)))]
    /\ run (task_events cap (length (tasks s)) (length (logQueue s))) s1 = Some s2
    /\ console s2 = console s
    /\ drain_step cap (length (drains s)) s2 = Some s3
    /\ output s3 = output s ++ (raw_emission (originalMethods s) <$> logQueue s)
    /\ console s3 = console s
    /\ cleanup_resume (length (cleanups s)) s3 = Some s4
    /\ cleanups s4 !! length (cleanups s) = Some CDone
    /\ output s4 = output s3
    /\ logQueue s4 = []
    /\ originalMethods s4 = ∅
    /\ console s4 = restore_console (originalMethods s) (console s).
Proof.
  intros Hd Hp Hq Hfit Hn Hk.
  set (s0 := clearInterval (flushIntervalId s) s).
  assert (H0 : options s0 = options s /\ logQueue s0 = logQueue s
               /\ isProcessing s0 = isProcessing s /\ tasks s0 = tasks s
               /\ drains s0 = drains s /\ originalMethods s0 = originalMethods s
               /\ output s0 = output s /\ cleanups s0 = cleanups s
               /\ console s0 = console s).
  { subst s0. unfold clearInterval. destruct (flushIntervalId s); by destruct s. }
  destruct H0 as (Ho & Hlq & Hip & Hta & Hdr & Hom & Hou & Hcl & Hco).
  assert (Htake : take (Z.to_nat (batchSize (options s))) (logQueue s) = logQueue s)
    by (by apply take_ge).
  assert (Hdrop : drop (Z.to_nat (batchSize (options s))) (logQueue s) = [])
    by (by apply drop_ge).
  pose proof (processQueue_start_disabled s0) as Estart.
  rewrite Ho, Hlq, Hip, Hta, Hdr, Htake, Hdrop in Estart.
  specialize (Estart Hd Hp Hq).
  set (sa := set_tasks _ _) in Estart.
  set (s1 := set_cleanups (cleanups sa ++ [CAwait (Some (length (drains s)))]) sa).
  assert (E1 : cleanup_start s = s1).
  { unfold cleanup_start. fold s0. rewrite Hlq.
    destruct (logQueue s) as [|e q] eqn:Eq; [done|]. cbn [length Nat.ltb Nat.leb].
    by rewrite Estart. }
  assert (Hs1 : tasks s1 = tasks s ++ (raw_task (length (drains s)) <$> logQueue s) ++ []
                /\ originalMethods s1 = originalMethods s /\ output s1 = output s
                /\ cleanups s1 = cleanups s ++ [CAwait (Some (length (drains s)))]
                /\ drains s1 = drains s ++ [DRunning] /\ console s1 = console s).
  { subst s1 sa. rewrite app_nil_r, <- Hom, <- Hou, <- Hcl, <- Hco. by destruct s0. }
  destruct Hs1 as (Ht1 & Hom1 & Hou1 & Hcl1 & Hdr1 & Hco1).
  pose proof (run_raw_tasks cap (length (drains s)) (logQueue s) (tasks s) [] s1 Ht1) as E2.
  rewrite Hom1, Hou1 in E2. specialize (E2 Hn). rewrite app_nil_r in E2.
  set (s2 := set_tasks _ _) in E2.
  assert (Hs2 : tasks s2 = tasks s ++ (done_task (length (drains s)) <$> logQueue s)
                /\ drains s2 = drains s ++ [DRunning] /\ logQueue s2 = []
                /\ cleanups s2 = cleanups s ++ [CAwait (Some (length (drains s)))]
                /\ output s2 = output s ++ (raw_emission (originalMethods s) <$> logQueue s)
                /\ console s2 = console s /\ originalMethods s2 = originalMethods s).
  { subst s2. rewrite <- Hcl1, <- Hdr1, <- Hco1, <- Hom1.
    repeat split; try by destruct s1. subst s1 sa. by destruct s0. }
  destruct Hs2 as (Ht2 & Hdr2 & Hq2 & Hcl2 & Hou2 & Hco2 & Hom2).
  assert (E3 : drain_step cap (length (drains s)) s2
               = Some (processQueue_finish cap (length (drains s)) AllFulfilled s2)).
  { unfold drain_step, tasks_of. rewrite Hdr2, Ht2.
    rewrite lookup_app_r, Nat.sub_diag by done. cbn [lookup list_lookup].
    rewrite filter_known_drains by exact Hk. by rewrite promise_all_done. }
  destruct (processQueue_finish_fulfilled cap (length (drains s)) s2)
    as (st & sc & E3' & Hempty & _).
  destruct (Hempty Hq2) as [-> ->].
  set (s3 := processQueue_finish cap (length (drains s)) AllFulfilled s2) in *.
  assert (Hs3 : drains s3 !! length (drains s) = Some DResolved
                /\ cleanups s3 = cleanups s ++ [CAwait (Some (length (drains s)))]
                /\ output s3 = output s ++ (raw_emission (originalMethods s) <$> logQueue s)
                /\ console s3 = console s /\ originalMethods s3 = originalMethods s
                /\ logQueue s3 = []).
  { rewrite E3', <- Hcl2, <- Hou2, <- Hco2, <- Hom2, <- Hq2.
    repeat split; try by destruct s2.
    replace (drains (set_drains _ _)) with (<[length (drains s):=DResolved]> (drains s2))
      by (by destruct s2).
    rewrite Hdr2. rewrite insert_app_r_alt, Nat.sub_diag by done.
    by rewrite lookup_app_r, Nat.sub_diag. }
  destruct Hs3 as (Hd3 & Hcl3 & Hou3 & Hco3 & Hom3 & Hq3).
  assert (E4 : cleanup_resume (length (cleanups s)) s3
               = Some (set_cleanup (length (cleanups s)) CDone (cleanup_finish s3))).
  { unfold cleanup_resume. rewrite Hcl3.
    rewrite lookup_app_r, Nat.sub_diag by done. cbn [lookup list_lookup].
    by rewrite Hd3. }
  exists s1, s2, s3, (set_cleanup (length (cleanups s)) CDone (cleanup_finish s3)).
  split; [exact E1|]. split; [exact Hcl1|]. split; [exact E2|]. split; [exact Hco2|].
  split; [exact E3|]. split; [exact Hou3|]. split; [exact Hco3|]. split; [exact E4|].
  split.
  { unfold set_cleanup.
    replace (cleanups (set_cleanups _ _)) with (<[length (cleanups s):=CDone]> (cleanups s3))
      by (by destruct s3).
    rewrite Hcl3, insert_app_r_alt, Nat.sub_diag by done.
    by rewrite lookup_app_r, Nat.sub_diag. }
  split; [by destruct s3|].
  split; [rewrite <- Hq3; by destruct s3|].
  split; [by destruct s3|].
  rewrite <- Hom3, <- Hco3. by destruct s3.
Qed.

Lemma processQueue_start_tasks s :
  match processQueue_start s with
  | (s', QGuard) => tasks s' = tasks s
  | (s', QDrain d) =>
      exists new, tasks s' = tasks s ++ new /\ Forall (fun t => t_drain t = d) new
  end.
Proof.
  unfold processQueue_start.
  destruct (isProcessing s || (length (logQueue s) =? 0)%nat); [done|]. cbv zeta.
  destruct s as [o ca qu ip om pe fi co iv sc ni lo ta dr cl de ou]. cbn.
  match goal with |- exists new, tasks (foldl (processLogEntry_start ?d) ?s0 ?b) = _ /\ _ =>
    destruct (foldl_start_tasks d b s0) as (new & Ht & _ & Hf);
    exists new; split; [exact Ht|exact Hf] end.
Qed.

Lemma known_drains_same s s' :
  tasks s' = tasks s -> drains s' = drains s ->
  tasks_of_known_drains s -> tasks_of_known_drains s'.
Proof. unfold tasks_of_known_drains. by intros -> ->. Qed.

Lemma processQueue_start_known_drains s :
  tasks_of_known_drains s -> tasks_of_known_drains (processQueue_start s).1.
Proof.
  intros Hinv. pose proof (processQueue_start_tasks s) as Ht.
  pose proof (processQueue_start_drains s) as Hd.
  destruct (processQueue_start s) as [s' [|d]]; cbn.
  - by eapply known_drains_same.
  - destruct Ht as (new & Ht & Hf). destruct Hd as [-> Hd].
    unfold tasks_of_known_drains in *. rewrite Ht, Hd, length_app. cbn.
    apply Forall_app. split.
    + eapply Forall_impl; [exact Hinv|]. cbn. intros t Hlt. lia.
    + eapply Forall_impl; [exact Hf|]. cbn. intros t ->. lia.
Qed.

Lemma step_known_drains cap ev s s' :
  step cap ev s = Some s' -> tasks_of_known_drains s -> tasks_of_known_drains s'.
Proof.
  destruct tasks_frames as (Htc & Htd).
  destruct drains_frames as (Hdc & Hdt & Hdl & Hdca).
  assert (Htl : loads_frame tasks /\ cache_frame tasks)
    by (repeat split; intros v s0; by destruct s0).
  destruct Htl as [Htl Htca].
  intros H Hinv. destruct ev; cbn in H.
  - injection H as <-. revert Hinv. apply known_drains_same; by apply call_fn_frame.
  - injection H as <-. revert Hinv. apply known_drains_same; by destruct s.
  - injection H as <-. unfold cleanup_start.
    assert (H1 : tasks_of_known_drains (clearInterval (flushIntervalId s) s)).
    { revert Hinv. apply known_drains_same; unfold clearInterval;
        destruct (flushIntervalId s); by destruct s. }
    case_match.
    + pose proof (processQueue_start_known_drains _ H1) as H2.
      destruct (processQueue_start _) as [s2 []]; cbn in H2; revert H2;
        apply known_drains_same; by destruct s2.
    + revert H1. apply known_drains_same; by destruct (clearInterval _ s).
  - unfold cleanup_resume in H.
    destruct (cleanups s !! k) as [[[d|]| |]|]; try discriminate.
    + destruct (drains s !! d) as [[]|]; try discriminate; injection H as <-;
        revert Hinv; apply known_drains_same; by destruct s.
    + injection H as <-. revert Hinv. apply known_drains_same; by destruct s.
  - destruct (scheduled s) as [|n] eqn:E; [discriminate|]. injection H as <-.
    apply processQueue_start_known_drains. revert Hinv.
    apply known_drains_same; by destruct s.
  - case_match; [|discriminate]. case_match; injection H as <-; [|done].
    by apply processQueue_start_known_drains.
  - revert Hinv. apply known_drains_same; by eapply load_io_frame.
  - revert Hinv. apply known_drains_same; by eapply load_write_frame.
  - pose proof (task_step_frame drains cap k s s' Hdc Hdt H) as Hd.
    unfold task_step in H.
    destruct (tasks s !! k) as [t|] eqn:Ek; [|discriminate].
    destruct (task_location t s) as [r|]; [|discriminate].
    pose proof (processLogEntry_finish_frame tasks cap (t_entry t) r s Htc) as Hq.
    unfold tasks_of_known_drains in *. rewrite Hd.
    pose proof (Forall_lookup_1 _ _ _ _ Hinv Ek) as Hlt.
    destruct (processLogEntry_finish _ _ _ s) as [s1 []]; cbn in Hq; injection H as <-;
      unfold set_task_status.
    + replace (tasks (set_tasks _ s1))
        with (<[k := mkTask (t_drain t) (t_entry t) TDone]> (tasks s1)) by (by destruct s1).
      rewrite Hq. by apply Forall_insert.
    + replace (tasks (set_tasks _ s1))
        with (<[k := mkTask (t_drain t) (t_entry t) TRejected]> (tasks s1)) by (by destruct s1).
      rewrite Hq. by apply Forall_insert.
  - pose proof (drain_step_frame tasks cap d s s' Htc Htd H) as Ht.
    unfold drain_step in H.
    destruct (drains s !! d) as [[]|] eqn:Ed; try discriminate.
    assert (Hfin : forall all,
      length (drains (processQueue_finish cap d all s)) = length (drains s)).
    { intros all. destruct (processQueue_finish_settles cap d all s) as (_ & st & _ & ->).
      apply length_insert. }
    unfold tasks_of_known_drains in *. rewrite Ht.
    destruct (promise_all _); try discriminate; injection H as <-; by rewrite Hfin.
Qed.

(** In every state reached from construction, each task belongs to a drain
    that exists. *)
Lemma reachable_known_drains oa c evs s :
  run evs (new_enhancer oa c) = Some s -> tasks_of_known_drains s.
Proof.
  intros Hrun.
  apply (run_invariant (fun _ => true) tasks_of_known_drains)
    with (evs := evs) (s := new_enhancer oa c);
    [|by apply Forall_forall|exact Hrun|by constructor].
  intros cap ev s1 s2 _. apply step_known_drains.
Qed.



(** ** Failed loads (lines 69-71, 87-92) *)

Lemma load_io_failure cap l u cr nf s :
  loads s !! l = Some (mkLoad u LFetching) ->
  fetch_fails nf = true -> cache_read_fails cr = true ->
  load_io cap l cr nf s = Some (load_catch cap u l s).
Proof.
  intros Hl Hnf Hcr. unfold load_io. rewrite Hl.
  assert (Hn : load_network cap u l nf s = load_catch cap u l s)
    by (unfold load_network; by destruct nf).
  destruct (cache_usable s); [|by rewrite Hn].
  destruct cr; try done. by rewrite Hn.
Qed.

(** X6. A load that finds no consumer (the cache read fails or misses, and
    the fetch is refused, not ok, or unparsable) resolves to null: the
    in-memory cache is as before, the in-flight entry of the URL is gone,
    and so the next [loadSourceMap] for a URL that is not cached starts a
    fresh load and registers it. *)
Theorem failed_load_resolves_null_then_retries cap l u cr nf s :
  loads s !! l = Some (mkLoad u LFetching) ->
  fetch_fails nf = true -> cache_read_fails cr = true ->
  callable (console_get (console s) "error") = true ->
  exists s1,
    load_io cap l cr nf s = Some s1
    /\ loads s1 !! l = Some (mkLoad u (LSettled (LResolved None)))
    /\ sourceMapCache s1 = sourceMapCache s
    /\ pendingSourceMaps s1 !! u = None
    /\ (sourceMapCache s !! u = None ->
        exists s2,
          loadSourceMap_start u s1 = (s2, LCPending (length (loads s1)))
          /\ loads s2 = loads s1 ++ [mkLoad u LFetching]
          /\ pendingSourceMaps s2 !! u = Some (length (loads s1))).
Proof.
  intros Hl Hnf Hcr Hc.
  destruct (load_catch_result cap u l LFetching s Hl Hc) as (R1 & R2 & R3).
  exists (load_catch cap u l s).
  split; [by apply load_io_failure|]. split; [exact R1|]. split; [exact R3|].
  split; [exact R2|].
  intros Hmiss. unfold loadSourceMap_start. rewrite R3, Hmiss, R2.
  eexists. split; [reflexivity|].
  split; [by destruct (load_catch cap u l s)|].
  destruct (load_catch cap u l s); cbn. apply lookup_insert_eq.
Qed.

(** ** The enhancer's own diagnostics (lines 88 and 167) *)

Lemma wrapper_enqueues cap cid method original args stack s :
  cap cid = Captured stack ->
  Z.of_nat (length (logQueue s)) < maxQueueSize (options s) ->
  sched P <> SchedThrows ->
  call_fn cap (Wrapper cid method original) args s
  = (set_scheduled (S (scheduled s))
       (set_logQueue (logQueue s ++ [mkEntry method args stack]) s), Normal).
Proof.
  intros Hcap Hroom Hs. cbn [call_fn]. rewrite Hcap.
  destruct (Z.leb_spec (maxQueueSize (options s)) (Z.of_nat (length (logQueue s)))); [lia|].
  unfold scheduleQueueProcessing. destruct (sched P); try done; by destruct s.
Qed.

(** X7. While the enhancer is installed, [console.error] is its own
    wrapper, so the diagnostics it writes itself are not printed: the
    report of a failed load and the report of a rejected batch are each
    appended to the log queue as an [error] entry, with the stack captured
    inside the enhancer, and a drain is scheduled. *)
Theorem own_diagnostics_are_queued cap cid original stack u l ph d s :
  console_get (console s) "error" = Wrapper cid "error" original ->
  cap cid = Captured stack ->
  Z.of_nat (length (logQueue s)) < maxQueueSize (options s) ->
  sched P <> SchedThrows ->
  loads s !! l = Some (mkLoad u ph) ->
  (output (load_catch cap u l s) = output s
   /\ logQueue (load_catch cap u l s)
      = logQueue s ++ [mkEntry "error" [VStr "Error loading source map:"; error_object] stack]
   /\ scheduled (load_catch cap u l s) = S (scheduled s)
   /\ loads (load_catch cap u l s) !! l = Some (mkLoad u (LSettled (LResolved None))))
  /\ (output (processQueue_finish cap d AllRejected s) = output s
      /\ logQueue (processQueue_finish cap d AllRejected s)
         = logQueue s
           ++ [mkEntry "error" [VStr "Error processing log queue:"; error_object] stack]).
Proof.
  intros Hcon Hcap Hroom Hs Hl. split.
  - unfold load_catch. rewrite Hcon, (wrapper_enqueues _ _ _ _ _ stack) by done.
    set (s1 := set_scheduled _ _).
    assert (Hl1 : loads s1 !! l = Some (mkLoad u ph)) by (subst s1; by destruct s).
    destruct (load_finally_result u l ph (LResolved None) s1 Hl1) as (R1 & _ & _).
    split; [|split; [|split; [|exact R1]]];
      unfold load_finally, settle_load;
      replace (loads (set_pendingSourceMaps (delete u (pendingSourceMaps s1)) s1))
        with (loads s1) by (by destruct s1);
      rewrite Hl1; subst s1; by destruct s.
  - unfold processQueue_finish. rewrite Hcon, (wrapper_enqueues _ _ _ _ _ stack) by done.
    set (s1 := set_scheduled _ _). cbv zeta.
    replace (logQueue (set_isProcessing false s1))
      with (logQueue s ++ [mkEntry "error" [VStr "Error processing log queue:"; error_object] stack])
      by (subst s1; by destruct s).
    rewrite length_app. cbn [length].
    replace (0 <? length (logQueue s) + 1)%nat with true
      by (symmetry; apply Nat.ltb_lt; lia).
    unfold scheduleQueueProcessing, settle_drain.
    destruct (sched P); try done; (split; subst s1; by destruct s).
Qed.

(** ** What a load reads (lines 56-65, 68-75, 78-84) *)

(** X8. A load consults only what its path reads. With the platform cache
    usable and a stored map that parses, the outcome of the network does
    not matter: the consumer is cached in memory, the load resolves to it,
    the in-flight entry is removed, nothing is printed and nothing is
    written back. With the platform cache not usable (caching disabled or
    no cache store), the outcome of the cache read does not matter, and a
    fetched map that parses resolves the load at once, with no write. *)
Theorem load_reads_only_its_path cap l u c s :
  loads s !! l = Some (mkLoad u LFetching) ->
  (cache_usable s = true ->
   forall nf nf',
     load_io cap l (CacheHit c) nf s = load_io cap l (CacheHit c) nf' s
     /\ exists s1,
          load_io cap l (CacheHit c) nf s = Some s1
          /\ loads s1 !! l = Some (mkLoad u (LSettled (LResolved (Some c))))
          /\ sourceMapCache s1 !! u = Some c
          /\ pendingSourceMaps s1 !! u = None
          /\ output s1 = output s /\ logQueue s1 = logQueue s)
  /\ (cache_usable s = false ->
      forall cr cr' nf,
        load_io cap l cr nf s = load_io cap l cr' nf s
        /\ exists s1,
             load_io cap l cr (FetchOk c) s = Some s1
             /\ loads s1 !! l = Some (mkLoad u (LSettled (LResolved (Some c))))
             /\ sourceMapCache s1 !! u = Some c
             /\ pendingSourceMaps s1 !! u = None).
Proof.
  intros Hl.
  set (s0 := set_sourceMapCache (<[u:=c]> (sourceMapCache s)) s).
  assert (Hl0 : loads s0 !! l = Some (mkLoad u LFetching)) by (subst s0; by destruct s).
  assert (Hc0 : sourceMapCache s0 !! u = Some c)
    by (subst s0; destruct s; cbn; apply lookup_insert_eq).
  destruct (load_finally_result u l LFetching (LResolved (Some c)) s0 Hl0) as (R1 & R2 & R3).
  split; intros Hu.
  - intros nf nf'. unfold load_io. rewrite Hl, Hu. split; [done|].
    exists (load_finally u l (LResolved (Some c)) s0).
    split; [done|]. split; [exact R1|]. split; [by rewrite R3|]. split; [exact R2|].
    unfold load_finally, settle_load.
    replace (loads (set_pendingSourceMaps (delete u (pendingSourceMaps s0)) s0))
      with (loads s0) by (by destruct s0).
    rewrite Hl0. subst s0. by destruct s.
  - intros cr cr' nf. unfold load_io. rewrite Hl, Hu. split; [done|].
    exists (load_finally u l (LResolved (Some c)) s0).
    split.
    + unfold load_network. fold s0.
      replace (cache_usable s0) with false by (rewrite <- Hu; subst s0; by destruct s).
      done.
    + split; [exact R1|]. split; [by rewrite R3|exact R2].
Qed.

(** ** The flush timer (lines 197-203, 233, 241) *)

Lemma enhance_timer s :
  flushIntervalId (enhance s) = Some (nextId s + 5)%nat
  /\ intervals (enhance s) = (nextId s + 5)%nat :: intervals s
  /\ nextId (enhance s) = (nextId s + 6)%nat.
Proof.
  destruct s; unfold enhance, setupInterval; cbn.
  repeat split; do 2 f_equal; lia.
Qed.

Lemma cleanup_start_intervals s :
  intervals (cleanup_start s)
  = match flushIntervalId s with
    | Some i => filter (fun j => j <> i) (intervals s)
    | None => intervals s
    end.
Proof.
  unfold cleanup_start.
  assert (H1 : intervals (clearInterval (flushIntervalId s) s)
               = match flushIntervalId s with
                 | Some i => filter (fun j => j <> i) (intervals s)
                 | None => intervals s
                 end).
  { unfold clearInterval. destruct (flushIntervalId s); by destruct s. }
  destruct (0 <? length (logQueue (clearInterval (flushIntervalId s) s)))%nat.
  - pose proof (processQueue_start_keeps_host (clearInterval (flushIntervalId s) s))
      as (_ & _ & _ & Hi & _).
    destruct (processQueue_start _) as [s2 []]; cbn in Hi; rewrite <- H1, <- Hi;
      by destruct s2.
  - rewrite <- H1. by destruct (clearInterval _ s).
Qed.

Lemma filter_fresh (i : nat) (l : list nat) :
  Forall (fun j => (j < i)%nat) l -> filter (fun j => j <> i) l = l.
Proof.
  induction 1 as [|j l Hj _ IH]; [done|].
  rewrite filter_cons_True by lia. by rewrite IH.
Qed.

(** X9. [enhance] starts one timer and records its id; [cleanup] stops the
    recorded timer and no other. After one [enhance], whatever happens in
    between, the timers running after [cleanup] are those that ran before
    [enhance]. After two [enhance] calls the record holds the second timer
    only, and [cleanup] leaves the first one running. *)
Theorem cleanup_stops_recorded_timer_only s evs1 s1 evs2 s2 :
  Forall (fun j => (j < nextId s)%nat) (intervals s) ->
  Forall (fun e => quiet e.1 = true) evs1 ->
  run evs1 (enhance s) = Some s1 ->
  Forall (fun e => quiet e.1 = true) evs2 ->
  run evs2 (enhance s1) = Some s2 ->
  intervals (cleanup_start s1) = intervals s
  /\ intervals (cleanup_start s2) = (nextId s + 5)%nat :: intervals s.
Proof.
  intros Hfresh Hq1 Hrun1 Hq2 Hrun2.
  destruct (enhance_timer s) as (Hf & Hi & Hn).
  destruct (quiet_run_keeps_host _ _ _ Hq1 Hrun1) as (_ & _ & _ & Hi1 & Hf1 & Hn1 & _).
  destruct (enhance_timer s1) as (Hf' & Hi' & Hn').
  destruct (quiet_run_keeps_host _ _ _ Hq2 Hrun2) as (_ & _ & _ & Hi2 & Hf2 & Hn2 & _).
  split.
  - rewrite cleanup_start_intervals, Hf1, Hf, Hi1, Hi.
    rewrite filter_cons_False by (intros ?; done).
    apply filter_fresh. eapply Forall_impl; [exact Hfresh|]. cbn. lia.
  - rewrite cleanup_start_intervals, Hf2, Hf', Hi2, Hi', Hi1, Hi, Hn1, Hn.
    rewrite filter_cons_False by (intros ?; done).
    rewrite filter_cons_True by lia. f_equal.
    apply filter_fresh. eapply Forall_impl; [exact Hfresh|]. cbn. lia.
Qed.

(** ** What cleanup releases (lines 248-253) *)

(** X10. The end of [cleanup] destroys exactly the cached consumers and
    empties the in-memory cache and the in-flight registry. It cancels
    nothing: the loads, the tasks and the queue are as before, so a load
    still in flight that later fetches a parsed map caches its consumer
    again, after the cleanup. *)
Theorem cleanup_releases_cache_not_loads cap s :
  sourceMapCache (cleanup_finish s) = ∅
  /\ pendingSourceMaps (cleanup_finish s) = ∅
  /\ (forall c, c ∈ destroyed (cleanup_finish s) <->
                c ∈ destroyed s \/ exists u, sourceMapCache s !! u = Some c)
  /\ loads (cleanup_finish s) = loads s
  /\ tasks (cleanup_finish s) = tasks s
  /\ logQueue (cleanup_finish s) = logQueue s
  /\ forall l u c,
       loads s !! l = Some (mkLoad u LFetching) ->
       exists s1,
         load_io cap l CacheMiss (FetchOk c) (cleanup_finish s) = Some s1
         /\ sourceMapCache s1 !! u = Some c.
Proof.
  split; [by destruct s|]. split; [by destruct s|]. split; [|split; [by destruct s|]].
  - intros c.
    replace (destroyed (cleanup_finish s))
      with (destroyed s ++ (map_to_list (sourceMapCache s)).*2) by (by destruct s).
    rewrite elem_of_app, list_elem_of_fmap. split.
    + intros [H|([u c'] & -> & H)]; [by left|right].
      exists u. by apply elem_of_map_to_list.
    + intros [H|[u H]]; [by left|right].
      exists (u, c). split; [done|]. by apply elem_of_map_to_list.
  - split; [by destruct s|]. split; [by destruct s|].
    intros l u c Hl. set (s' := cleanup_finish s).
    assert (Hl' : loads s' !! l = Some (mkLoad u LFetching)) by (subst s'; by destruct s).
    set (s0 := set_sourceMapCache (<[u:=c]> (sourceMapCache s')) s').
    assert (Hl0 : loads s0 !! l = Some (mkLoad u LFetching)) by (subst s0; by destruct s').
    assert (Hc0 : sourceMapCache s0 !! u = Some c)
      by (subst s0; destruct s'; cbn; apply lookup_insert_eq).
    assert (Hn : sourceMapCache (load_network cap u l (FetchOk c) s') !! u = Some c).
    { unfold load_network. fold s0. destruct (cache_usable s0).
      - rewrite <- Hc0. by destruct s0.
      - destruct (load_finally_result u l LFetching (LResolved (Some c)) s0 Hl0)
          as (_ & _ & ->). exact Hc0. }
    unfold load_io. rewrite Hl'. destruct (cache_usable s'); eexists; by split.
Qed.

(** ** A batch size that is not positive (line 162) *)

(** X11. With a [batchSize] of zero or less, [processQueue] takes no entry:
    the drain it starts ends at once, prints nothing, leaves the queue and
    the tasks as they were and schedules the next drain, which will do
    the same. The queue is never drained. *)
Theorem nonpositive_batch_size_never_drains cap s :
  batchSize (options s) <= 0 ->
  isProcessing s = false -> logQueue s <> [] ->
  tasks_of_known_drains s ->
  sched P <> SchedThrows ->
  exists s1 s2,
    processQueue_start s = (s1, QDrain (length (drains s)))
    /\ drain_step cap (length (drains s)) s1 = Some s2
    /\ logQueue s2 = logQueue s /\ output s2 = output s /\ tasks s2 = tasks s
    /\ isProcessing s2 = false
    /\ scheduled s2 = S (scheduled s)
    /\ options s2 = options s.
Proof.
  intros Hb Hp Hq Hk Hs.
  assert (Hn : Z.to_nat (batchSize (options s)) = 0%nat) by lia.
  set (s1 := set_drains (drains s ++ [DRunning]) (set_isProcessing true s)).
  assert (E1 : processQueue_start s = (s1, QDrain (length (drains s)))).
  { unfold processQueue_start. rewrite Hp.
    destruct (logQueue s) as [|e q] eqn:Eq; [done|]. cbn [orb length Nat.eqb]. cbv zeta.
    replace (options (set_isProcessing true s)) with (options s) by (by destruct s).
    rewrite Hn. cbn [take foldl]. subst s1. destruct s; cbn in *. by subst. }
  assert (E2 : drain_step cap (length (drains s)) s1
               = Some (processQueue_finish cap (length (drains s)) AllFulfilled s1)).
  { unfold drain_step, tasks_of.
    replace (drains s1) with (drains s ++ [DRunning]) by (subst s1; by destruct s).
    rewrite lookup_app_r, Nat.sub_diag by done. cbn [lookup list_lookup].
    replace (tasks s1) with (tasks s ++ (done_task (length (drains s)) <$> []))
      by (subst s1; cbn; rewrite app_nil_r; by destruct s).
    rewrite filter_known_drains by exact Hk. done. }
  exists s1, (processQueue_finish cap (length (drains s)) AllFulfilled s1).
  split; [exact E1|]. split; [exact E2|].
  destruct (processQueue_finish_fulfilled cap (length (drains s)) s1)
    as (st & sc & -> & _ & Hmore).
  assert (Hq1 : logQueue s1 = logQueue s) by (subst s1; by destruct s).
  destruct Hmore as [-> _]; [by rewrite Hq1|done|].
  subst s1. by destruct s.
Qed.

(** ** Calls are queued, not printed (lines 214-225) *)

(** X12. Calls of intercepted methods made while the queue has room for all
    of them print nothing: each appends one entry to the back of the
    queue, in call order, holding the method, the caller's arguments and the
    captured stack line, and each schedules one drain. *)
Theorem log_calls_are_queued_in_order evs entries :
  forall s,
    Forall2 (fun e entry => queued_entry (console s) e = Some entry) evs entries ->
    Z.of_nat (length (logQueue s)) + Z.of_nat (length evs) <= maxQueueSize (options s) ->
    sched P <> SchedThrows ->
    run evs s
    = Some (set_scheduled (length evs + scheduled s)
              (set_logQueue (logQueue s ++ entries) s)).
Proof.
  revert entries. induction evs as [|[ev cap] evs IH]; intros entries s H Hroom Hs.
  - inversion H; subst. cbn. rewrite app_nil_r. by destruct s.
  - inversion H as [|? entry ? entries' He Hrest]; subst.
    destruct ev; try discriminate. cbn in He.
    destruct (console_get (console s) method) as [| |cid m original] eqn:Ec; try discriminate.
    destruct (cap cid) as [|stack] eqn:Ecap; try discriminate.
    injection He as <-.
    cbn [run step]. rewrite Ec.
    rewrite (wrapper_enqueues cap cid m original args stack s) by (done || cbn in Hroom; lia).
    cbn [fst].
    set (s1 := set_scheduled _ _).
    assert (H1 : console s1 = console s /\ options s1 = options s
                 /\ logQueue s1 = logQueue s ++ [mkEntry m args stack]
                 /\ scheduled s1 = S (scheduled s)) by (subst s1; by destruct s).
    destruct H1 as (Hc1 & Ho1 & Hq1 & Hsc1).
    rewrite (IH entries' s1); [| | |done].
    + rewrite Hq1, Hsc1, <- app_assoc. cbn. f_equal. subst s1. destruct s; cbn.
      f_equal. lia.
    + by rewrite Hc1.
    + rewrite Ho1, Hq1, length_app. cbn in *. lia.
Qed.

(** ** cleanup during a drain (lines 159, 244-259) *)

(** X13. Called while a drain is in progress, [cleanup()] flushes nothing:
    its [processQueue] call returns at the guard, and on resumption the
    console is restored and the registry emptied with the queue and the
    tasks in flight as they were. Whatever is processed afterwards finds no
    registered method: the entry is rejected and nothing is printed. *)
Theorem cleanup_during_drain_flushes_nothing s :
  isProcessing s = true -> logQueue s <> [] ->
  cleanups (cleanup_start s) = cleanups s ++ [CAwait None]
  /\ logQueue (cleanup_start s) = logQueue s
  /\ exists s2,
       cleanup_resume (length (cleanups s)) (cleanup_start s) = Some s2
       /\ cleanups s2 !! length (cleanups s) = Some CDone
       /\ logQueue s2 = logQueue s /\ tasks s2 = tasks s /\ output s2 = output s
       /\ originalMethods s2 = ∅
       /\ console s2 = restore_console (originalMethods s) (console s)
       /\ forall cap entry r, processLogEntry_finish cap entry r s2 = (s2, Throw).
Proof.
  intros Hp Hq.
  set (s0 := clearInterval (flushIntervalId s) s).
  assert (H0 : logQueue s0 = logQueue s /\ isProcessing s0 = isProcessing s
               /\ cleanups s0 = cleanups s /\ tasks s0 = tasks s /\ output s0 = output s
               /\ originalMethods s0 = originalMethods s /\ console s0 = console s).
  { subst s0. unfold clearInterval. destruct (flushIntervalId s); by destruct s. }
  destruct H0 as (Hq0 & Hp0 & Hcl0 & Ht0 & Hou0 & Hom0 & Hco0).
  assert (E1 : cleanup_start s = set_cleanups (cleanups s0 ++ [CAwait None]) s0).
  { unfold cleanup_start. fold s0. rewrite Hq0.
    destruct (logQueue s) as [|e q]; [done|]. cbn [length Nat.ltb Nat.leb].
    unfold processQueue_start. by rewrite Hp0, Hp. }
  rewrite E1. set (s1 := set_cleanups _ s0).
  assert (Hcl1 : cleanups s1 = cleanups s ++ [CAwait None])
    by (subst s1; rewrite <- Hcl0; by destruct s0).
  split; [exact Hcl1|]. split; [subst s1; rewrite <- Hq0; by destruct s0|].
  exists (set_cleanup (length (cleanups s)) CDone (cleanup_finish s1)).
  split.
  { unfold cleanup_resume. rewrite Hcl1.
    by rewrite lookup_app_r, Nat.sub_diag. }
  split.
  { unfold set_cleanup.
    replace (cleanups (set_cleanups _ (cleanup_finish s1)))
      with (<[length (cleanups s):=CDone]> (cleanups s1)) by (by destruct s1).
    rewrite Hcl1, insert_app_r_alt, Nat.sub_diag by done.
    by rewrite lookup_app_r, Nat.sub_diag. }
  split; [rewrite <- Hq0; subst s1; by destruct s0|].
  split; [rewrite <- Ht0; subst s1; by destruct s0|].
  split; [rewrite <- Hou0; subst s1; by destruct s0|].
  split; [by destruct s1|].
  split; [rewrite <- Hom0, <- Hco0; subst s1; by destruct s0|].
  intros cap entry r.
  assert (Hom2 : originalMethods
                   (set_cleanup (length (cleanups s)) CDone (cleanup_finish s1)) = ∅)
    by (by destruct s1).
  assert (Hthrow : forall args,
            registry_apply cap (e_method entry) args
              (set_cleanup (length (cleanups s)) CDone (cleanup_finish s1))
            = (set_cleanup (length (cleanups s)) CDone (cleanup_finish s1), Throw)).
  { intros args. unfold registry_apply. by rewrite Hom2, lookup_empty. }
  unfold processLogEntry_finish. destruct r as [loc|].
  - rewrite Hthrow. lazy beta iota zeta. apply Hthrow.
  - lazy beta iota zeta. apply Hthrow.
Qed.

(** ** The rewritten location (lines 111-121) *)

Lemma truthy_cases (o : option string) :
  (truthy o = None /\ (o = None \/ o = Some ""))
  \/ (exists x, truthy o = Some x /\ o = Some x /\ x <> "").
Proof.
  destruct o as [[|a x]|]; cbn.
  - left. split; [done|by right].
  - right. by exists (String a x).
  - left. split; [done|by left].
Qed.

(** X14. An entry whose frame matched and whose consumer is available
    (cached, or loaded by the load it waited for) is printed by its
    registered method with one location argument. When the map knows the
    source of the position, the location is
    ["    at <name> (<source>:<line>:<column>)"], with the name of the map,
    or the function name parsed from the frame when the map has none; when
    the map does not know the source, the location is the captured frame
    unchanged. *)
Theorem resolved_entry_prints_rewritten_location cap k t m c p name s :
  tasks s !! k = Some t ->
  (t_status t = TConsumer m c
   \/ exists l u, t_status t = TWaitLoad m l
        /\ loads s !! l = Some (mkLoad u (LSettled (LResolved (Some c))))) ->
  originalPositionFor c (m_line m) (m_column m) = Pos p ->
  originalMethods s !! e_method (t_entry t) = Some (Native name) ->
  exists s' loc,
    task_step cap k s = Some s'
    /\ output s'
       = output s ++ [mkEmitted name
                        (e_args (t_entry t) ++ [location_arg (e_args (t_entry t)) loc])]
    /\ tasks s' !! k = Some (mkTask (t_drain t) (t_entry t) TDone)
    /\ (forall src, p_source p = Some src -> src <> "" ->
        (forall nm, p_name p = Some nm -> nm <> "" ->
           loc = rewritten_location nm src (p_line p) (p_column p))
        /\ (p_name p = None \/ p_name p = Some "" ->
            loc = rewritten_location (m_fnName m) src (p_line p) (p_column p)))
    /\ (p_source p = None \/ p_source p = Some "" ->
        loc = frame_value (e_stack (t_entry t))).
Proof.
  intros Hk Hst Hpos Hname.
  assert (Hloc : task_location t s
                 = Some (getOriginalLocation_finish (e_stack (t_entry t)) m (Some c))).
  { unfold task_location. destruct Hst as [->|(l & u & -> & ->)]; done. }
  set (loc := match truthy (p_source p) with
              | Some source =>
                  rewritten_location (default (m_fnName m) (truthy (p_name p))) source
                    (p_line p) (p_column p)
              | None => frame_value (e_stack (t_entry t))
              end).
  assert (Hfin : getOriginalLocation_finish (e_stack (t_entry t)) m (Some c) = LocOk loc).
  { unfold getOriginalLocation_finish. rewrite Hpos. subst loc.
    by destruct (truthy (p_source p)). }
  eexists _, loc. split; [|split; [|split; [|split]]].
  - unfold task_step. rewrite Hk, Hloc, Hfin. unfold processLogEntry_finish.
    rewrite (registry_apply_native _ _ name) by done. reflexivity.
  - unfold set_task_status. by destruct s.
  - unfold set_task_status. destruct s; cbn in *.
    apply list_lookup_insert_eq. by eapply lookup_lt_Some.
  - intros src Hsrc Hne. subst loc.
    destruct (truthy_cases (p_source p)) as [[_ [H|H]]|(x & -> & Hx & _)]; try congruence.
    assert (x = src) as -> by congruence.
    split.
    + intros nm Hnm Hnn.
      destruct (truthy_cases (p_name p)) as [[_ [H|H]]|(y & -> & Hy & _)]; try congruence.
      cbn. congruence.
    + intros Hno.
      destruct (truthy_cases (p_name p)) as [[-> _]|(y & _ & Hy & Hyn)]; [done|].
      destruct Hno; congruence.
  - intros Hno. subst loc.
    destruct (truthy_cases (p_source p)) as [[-> _]|(x & _ & Hx & Hxn)]; [done|].
    destruct Hno; congruence.
Qed.

(** ** First in, first out (lines 162, 224) *)

Lemma queue_frames :
  drain_frame logQueue /\ tasks_frame logQueue /\ loads_frame logQueue
  /\ cache_frame logQueue.
Proof. repeat split; intros v s; by destruct s. Qed.

Lemma tasks_more_frames : loads_frame tasks /\ cache_frame tasks.
Proof. repeat split; intros v s; by destruct s. Qed.

Lemma call_fn_queue cap f :
  forall args s, logQueue s `prefix_of` logQueue (call_fn cap f args s).1.
Proof.
  induction f as [|name|cid method original IH]; intros args s; cbn [call_fn].
  - done.
  - by destruct s.
  - destruct (cap cid) as [|stack]; [apply IH|].
    destruct (maxQueueSize (options s) <=? Z.of_nat (length (logQueue s))).
    + pose proof (IH (args ++ [VStr queue_full_marker]) s) as H1.
      destruct (call_fn cap original (args ++ _) s) as [s1 []]; cbn in *; [done|].
      etrans; [exact H1|apply IH].
    + pose proof (schedule_queue
                    (set_logQueue (logQueue s ++ [mkEntry method args stack]) s)) as [Hq _].
      replace (logQueue (set_logQueue (logQueue s ++ [mkEntry method args stack]) s))
        with (logQueue s ++ [mkEntry method args stack]) in Hq by (by destruct s).
      destruct (scheduleQueueProcessing _) as [s1 []]; cbn in Hq |- *.
      * rewrite Hq. by apply prefix_app_r.
      * etrans; [|apply IH]. rewrite Hq. by apply prefix_app_r.
Qed.

Lemma load_catch_queue cap u l s : logQueue s `prefix_of` logQueue (load_catch cap u l s).
Proof.
  destruct queue_frames as (_ & _ & Hl & _). unfold load_catch.
  pose proof (call_fn_queue cap (console_get (console s) "error")
                [VStr "Error loading source map:"; error_object] s) as H.
  destruct (call_fn _ _ _ s) as [s1 []]; cbn in H;
    by rewrite (load_finally_frame logQueue).
Qed.

Lemma load_network_queue cap u l nf s :
  logQueue s `prefix_of` logQueue (load_network cap u l nf s).
Proof.
  destruct queue_frames as (_ & _ & Hl & Hc). unfold load_network.
  destruct nf; try apply load_catch_queue.
  destruct (cache_usable _).
  - destruct Hl as [Hl _]. by rewrite Hl, Hc.
  - by rewrite (load_finally_frame logQueue), Hc.
Qed.

Lemma load_io_queue cap l cr nf s s' :
  load_io cap l cr nf s = Some s' -> logQueue s `prefix_of` logQueue s'.
Proof.
  destruct queue_frames as (_ & _ & Hl & Hc). intros H. unfold load_io in H.
  destruct (loads s !! l) as [[u []]|]; try discriminate.
  destruct (cache_usable s); [|injection H as <-; apply load_network_queue].
  destruct cr; injection H as <-;
    try apply load_catch_queue; try apply load_network_queue.
  by rewrite (load_finally_frame logQueue), Hc.
Qed.

Lemma load_write_queue cap l w s s' :
  load_write cap l w s = Some s' -> logQueue s `prefix_of` logQueue s'.
Proof.
  destruct queue_frames as (_ & _ & Hl & _). intros H. unfold load_write in H.
  destruct (loads s !! l) as [[u []]|]; try discriminate.
  destruct w; injection H as <-;
    [by rewrite (load_finally_frame logQueue)|apply load_catch_queue].
Qed.

Lemma processLogEntry_finish_queue cap entry r s :
  logQueue s `prefix_of` logQueue (processLogEntry_finish cap entry r s).1.
Proof.
  assert (Hreg : forall args s0,
            logQueue s0 `prefix_of` logQueue (registry_apply cap (e_method entry) args s0).1).
  { intros args s0. unfold registry_apply.
    destruct (originalMethods s0 !! e_method entry); [apply call_fn_queue|done]. }
  unfold processLogEntry_finish. destruct r as [loc|]; [|apply Hreg].
  pose proof (Hreg (e_args entry ++ [location_arg (e_args entry) loc]) s) as H.
  destruct (registry_apply _ _ _ s) as [s1 []]; cbn in H; [done|].
  etrans; [exact H|apply Hreg].
Qed.

Lemma intake_prefix s s' :
  t_entry <$> tasks s' = t_entry <$> tasks s ->
  logQueue s `prefix_of` logQueue s' -> intake s `prefix_of` intake s'.
Proof. unfold intake. intros -> H. by apply prefix_app. Qed.

Lemma task_step_intake cap k s s' :
  task_step cap k s = Some s' -> intake s `prefix_of` intake s'.
Proof.
  destruct tasks_frames as (Htc & _). destruct queue_frames as (_ & Hqt & _).
  intros H. unfold task_step in H.
  destruct (tasks s !! k) as [t|] eqn:Hk; [|discriminate].
  destruct (task_location t s) as [r|]; [|discriminate].
  pose proof (processLogEntry_finish_queue cap (t_entry t) r s) as Hq.
  pose proof (processLogEntry_finish_frame tasks cap (t_entry t) r s Htc) as Ht.
  assert (Hset : forall st s1, tasks s1 = tasks s ->
            t_entry <$> tasks (set_task_status k t st s1) = t_entry <$> tasks s).
  { intros st s1 E. unfold set_task_status.
    replace (tasks (set_tasks (<[k:=mkTask (t_drain t) (t_entry t) st]> (tasks s1)) s1))
      with (<[k:=mkTask (t_drain t) (t_entry t) st]> (tasks s1)) by (by destruct s1).
    rewrite E, list_fmap_insert. apply list_insert_id.
    by rewrite list_lookup_fmap, Hk. }
  destruct (processLogEntry_finish _ _ _ s) as [s1 []]; cbn in Hq, Ht;
    injection H as <-; (apply intake_prefix; [by apply Hset|]);
    unfold set_task_status; by rewrite Hqt.
Qed.

Lemma processQueue_finish_queue cap d all s :
  logQueue s `prefix_of` logQueue (processQueue_finish cap d all s).
Proof.
  destruct queue_frames as ([Hi Hd] & _). unfold processQueue_finish.
  assert (H : logQueue s `prefix_of` logQueue
    (match all with
     | AllRejected => call_fn cap (console_get (console s) "error")
                        [VStr "Error processing log queue:"; error_object] s
     | _ => (s, Normal)
     end).1).
  { destruct all; try done. apply call_fn_queue. }
  destruct (match all with AllRejected => _ | _ => _ end) as [s1 r1]. cbn in H.
  unfold settle_drain. destruct r1; [|by rewrite Hd, Hi].
  case_match; [|by rewrite Hd, Hi].
  pose proof (schedule_queue (set_isProcessing false s1)) as [H2 _].
  destruct (scheduleQueueProcessing _) as [s3 []]; cbn in H2;
    by rewrite Hd, H2, Hi.
Qed.

Lemma processQueue_start_intake s : intake (processQueue_start s).1 = intake s.
Proof.
  destruct queue_frames as (_ & Hqt & Hql & _).
  unfold processQueue_start.
  destruct (isProcessing s || (length (logQueue s) =? 0)%nat); [done|]. cbv zeta.
  destruct s as [o ca qu ip om pe fi co iv sc ni lo ta dr cl de ou]. cbn.
  match goal with |- intake (foldl (processLogEntry_start ?d) ?s0 ?b) = _ =>
    destruct (foldl_start_tasks d b s0) as (new & Ht & He & _);
    pose proof (foldl_start_frame logQueue d b Hql Hqt s0) as Hq end.
  unfold intake. rewrite Ht, Hq, fmap_app, He. cbn.
  by rewrite <- app_assoc, take_drop.
Qed.

Lemma step_intake cap ev s s' :
  step cap ev s = Some s' -> intake s `prefix_of` intake s'.
Proof.
  destruct tasks_frames as (Htc & Htd). destruct tasks_more_frames as (Htl & Htca).
  intros H. destruct ev; cbn [step] in H.
  - injection H as <-. apply intake_prefix; [|apply call_fn_queue].
    by rewrite (call_fn_frame tasks).
  - injection H as <-. apply intake_prefix; by destruct s.
  - injection H as <-. unfold cleanup_start.
    assert (H1 : intake (clearInterval (flushIntervalId s) s) = intake s).
    { unfold clearInterval. destruct (flushIntervalId s); by destruct s. }
    rewrite <- H1. case_match.
    + pose proof (processQueue_start_intake (clearInterval (flushIntervalId s) s)) as H2.
      destruct (processQueue_start _) as [s2 []]; cbn in H2; rewrite <- H2;
        by destruct s2.
    + by destruct (clearInterval _ s).
  - unfold cleanup_resume in H.
    destruct (cleanups s !! k) as [[[d|]| |]|]; try discriminate.
    + destruct (drains s !! d) as [[]|]; try discriminate; injection H as <-;
        by destruct s.
    + injection H as <-. by destruct s.
  - destruct (scheduled s) as [|n] eqn:E; [discriminate|]. injection H as <-.
    rewrite processQueue_start_intake. by destruct s.
  - case_match; [|discriminate]. case_match; injection H as <-; [|done].
    by rewrite processQueue_start_intake.
  - apply intake_prefix; [|by eapply load_io_queue].
    by rewrite (load_io_frame tasks _ _ _ _ _ _ Htc Htl Htca H).
  - apply intake_prefix; [|by eapply load_write_queue].
    by rewrite (load_write_frame tasks _ _ _ _ _ Htc Htl H).
  - by eapply task_step_intake.
  - apply intake_prefix.
    + by rewrite (drain_step_frame tasks _ _ _ _ Htc Htd H).
    + unfold drain_step in H.
      destruct (drains s !! d) as [[]|]; try discriminate.
      destruct (promise_all _); try discriminate; injection H as <-;
        apply processQueue_finish_queue.
Qed.

(** X15. First in, first out, and nothing dropped. Take the entries handed
    to [processLogEntry] so far, in the order they were taken, followed by
    the entries still queued: whatever happens (calls, drains, timer ticks,
    loads, [enhance], [cleanup]), this sequence only grows at its end. An
    accepted entry is never removed, reordered or taken twice, and each
    batch is the front of the queue. *)
Theorem accepted_entries_keep_their_order evs :
  forall s s', run evs s = Some s' -> intake s `prefix_of` intake s'.
Proof.
  induction evs as [|[ev cap] evs IH]; intros s s' H; cbn in H.
  - by injection H as <-.
  - destruct (step cap ev s) as [s1|] eqn:E; [|discriminate].
    etrans; [by eapply step_intake|by apply IH].
Qed.

(** ** Processing after a second enhance (lines 147, 212-225) *)

(** X16. After [enhance] has run twice, the registry holds for each method
    the wrapper installed by the first call. Processing an entry then calls
    that wrapper, not a native function: while the queue has room, nothing
    is printed, and the entry goes back to the end of the queue with its
    location as one more argument and the stack captured inside the
    enhancer, and one more drain is scheduled. *)
Theorem second_enhance_requeues_entries s0 m :
  m ∈ methods ->
  exists cid,
    originalMethods (enhance (enhance s0)) !! m
    = Some (Wrapper cid m (console_get (console s0) m))
    /\ forall cap k t loc stack s,
         originalMethods s !! m = Some (Wrapper cid m (console_get (console s0) m)) ->
         tasks s !! k = Some t -> e_method (t_entry t) = m ->
         t_status t = TLocation loc ->
         cap cid = Captured stack ->
         Z.of_nat (length (logQueue s)) < maxQueueSize (options s) ->
         sched P <> SchedThrows ->
         exists s',
           task_step cap k s = Some s'
           /\ output s' = output s
           /\ logQueue s'
              = logQueue s
                ++ [mkEntry m (e_args (t_entry t)
                               ++ [location_arg (e_args (t_entry t)) loc]) stack]
           /\ scheduled s' = S (scheduled s)
           /\ tasks s' !! k = Some (mkTask (t_drain t) (t_entry t) TDone).
Proof.
  intros Hm.
  destruct (enhance_spec s0 m Hm) as (_ & cid & _ & Hcon).
  destruct (enhance_spec (enhance s0) m Hm) as (Hreg & _).
  exists cid. split.
  { rewrite Hreg. unfold console_get at 1. by rewrite Hcon. }
  intros cap k t loc stack s Hs Hk He Hst Hcap Hroom Hsched.
  eexists. split; [|split; [|split; [|split]]].
  - unfold task_step, task_location. rewrite Hk, Hst.
    unfold processLogEntry_finish, registry_apply. rewrite He, Hs.
    rewrite (wrapper_enqueues _ _ _ _ _ stack) by done. reflexivity.
  - by destruct s.
  - by destruct s.
  - by destruct s.
  - unfold set_task_status. destruct s; cbn in *.
    apply list_lookup_insert_eq. by eapply lookup_lt_Some.
Qed.

End Enhancer.

Lemma wrapper_never_throws_witness :
  callable (Native "log") = true
  /\ call_fn broken_scheduler cap_a (Wrapper 0 "log" (Native "log")) [VStr "a"]
       (new_enhancer no_options native_console)
     = call_fn broken_scheduler cap_a (Native "log") [VStr "a"]
         (set_logQueue [mkEntry "log" [VStr "a"] (Some frame_a)]
            (new_enhancer no_options native_console)).
Proof.
  split; [reflexivity|].
  apply (wrapper_never_throws broken_scheduler cap_a 0%nat "log" (Native "log")
           [VStr "a"] (new_enhancer no_options native_console) eq_refl);
    [reflexivity | cbn; lia | reflexivity].
Defined.

Example described_extra_string :
  described_extra [VNum 1; VStr "x"] (VStr frame_a) = VStr (newline +:+ frame_a).
Proof. reflexivity. Qed.

Example described_extra_object :
  described_extra [VStr "x"; VObj [("code", VNum 500)]] (VStr frame_a)
  = VObj [("location", VStr frame_a)].
Proof. reflexivity. Qed.

Example described_extra_other :
  described_extra [VNum 1] (VStr frame_a) = VStr frame_a
  /\ described_extra [VNull] (VStr frame_a) = VStr frame_a
  /\ described_extra [] (VStr frame_a) = VStr frame_a.
Proof. repeat split. Qed.

Lemma processLogEntry_appends_location_witness :
  output (processLogEntry_finish browser cap_a
            (mkEntry "error" [VStr "Error occurred"; VObj [("code", VNum 500)]] (Some frame_a))
            (LocOk (VStr frame_a))
            (set_originalMethods native_console (new_enhancer no_options native_console))).1
  = [mkEmitted "error" [VStr "Error occurred"; VObj [("code", VNum 500)];
                         VObj [("location", VStr frame_a)]]].
Proof.
  destruct (processLogEntry_appends_location browser sample_match sample_position cap_a
              (mkEntry "error" [VStr "Error occurred"; VObj [("code", VNum 500)]]
                 (Some frame_a))
              (LocOk (VStr frame_a)) (Native "error")
              (set_originalMethods native_console (new_enhancer no_options native_console))
              eq_refl) as [(_ & Hreturns & _) _].
  destruct (Hreturns eq_refl) as [_ Hout].
  exact (Hout "error" eq_refl).
Defined.

(** C9, as stated, fails: with the default options, the entry of a call
    whose stack line is undefined is emitted with its original arguments
    alone, whatever the location argument would have been. *)
Lemma undefined_stack_line_gets_no_location :
  option_map output
    (run browser sample_match sample_position
       (start_without_frame ++ [(EvTask 0%nat, cap_none)])
       (new_enhancer no_options native_console))
  = Some [mkEmitted "log" [VStr "a"]]
  /\ forall location,
       [VStr "a"] <> [VStr "a"] ++ [described_extra [VStr "a"] location].
Proof.
  split; [vm_compute; reflexivity|]. intros location H. cbn in H. discriminate.
Qed.

(** C2, as stated, fails: the second [enhance] records the wrapper of the
    first in place of the pre-install function. *)
Lemma second_enhance_records_wrapper :
  originalMethods (enhance (new_enhancer no_options native_console)) !! "log"
  = Some (Native "log")
  /\ originalMethods (enhance (enhance (new_enhancer no_options native_console))) !! "log"
     = Some (Wrapper 0 "log" (Native "log"))
  /\ is_wrapper (Wrapper 0 "log" (Native "log")) = true.
Proof. vm_compute. repeat split. Qed.

Lemma registry_tracks_last_enhance_witness :
  originalMethods
    (call_fn browser cap_a (Wrapper 0 "log" (Native "log")) [VStr "a"]
       (enhance (new_enhancer no_options native_console))).1 !! "log"
  = Some (Native "log").
Proof.
  refine (proj1 (registry_tracks_last_enhance browser sample_match sample_position
              (new_enhancer no_options native_console) "log"
              [(EvCall "log" [VStr "a"], cap_a)]
              (call_fn browser cap_a (Wrapper 0 "log" (Native "log")) [VStr "a"]
                 (enhance (new_enhancer no_options native_console))).1 _ _ _)).
  - unfold methods. set_solver.
  - repeat constructor.
  - reflexivity.
Defined.

Lemma queue_never_exceeds_maxQueueSize_witness :
  0 <= maxQueueSize (merge_options two_slots)
  /\ match run browser sample_match sample_position fill_two
             (new_enhancer two_slots native_console) with
     | Some s => Z.of_nat (length (logQueue s)) <= 2
     | None => False
     end.
Proof.
  split; [cbn; lia|].
  destruct (run browser sample_match sample_position fill_two
              (new_enhancer two_slots native_console)) as [s|] eqn:H.
  - refine (proj1 (queue_never_exceeds_maxQueueSize browser sample_match sample_position
                     two_slots native_console fill_two s _ H)).
    cbn. lia.
  - vm_compute in H. discriminate.
Defined.

Example fill_two_run :
  option_map (fun s => (length (logQueue s), output s))
    (run browser sample_match sample_position fill_two
       (new_enhancer two_slots native_console))
  = Some (2%nat, [mkEmitted "log" [VStr "c"; VStr queue_full_marker]]).
Proof. vm_compute. reflexivity. Qed.

Local Abbreviation sample_run evs :=
  (run browser sample_match sample_position evs (new_enhancer no_options native_console)).

(** C3, as stated, fails: the fetch gave consumer 7, the cache write threw,
    and the load resolved to null; the caller is left with the raw frame. *)
Lemma cache_write_failure_resolves_null :
  option_map (fun s => (loads s !! 0%nat, output s))
    (sample_run (start_load_a ++
       [(EvLoadIO 0%nat CacheMiss (FetchOk 7%nat), cap_a);
        (EvLoadWrite 0%nat CacheWriteThrows, cap_a);
        (EvTask 0%nat, cap_a)]))
  = Some (Some (mkLoad url_a (LSettled (LResolved None))),
          [mkEmitted "log" [VStr "a"; VStr (newline +:+ frame_a)]]).
Proof. vm_compute. reflexivity. Qed.


Lemma network_load_result_witness :
  match sample_run start_load_a with
  | Some s =>
      exists s1 s2,
        load_io browser cap_a 0%nat CacheMiss (FetchOk 7%nat) s = Some s1
        /\ load_write browser cap_a 0%nat CacheWriteOk s1 = Some s2
        /\ loads s2 !! 0%nat = Some (mkLoad url_a (LSettled (LResolved (Some 7%nat))))
  | None => False
  end.
Proof.
  destruct (sample_run start_load_a) as [s|] eqn:H; vm_compute in H; [|discriminate].
  injection H as <-.
  lazymatch goal with
  | |- context [load_io browser cap_a 0%nat CacheMiss (FetchOk 7%nat) ?s] =>
      destruct (network_load_result browser cap_a cap_a 0%nat url_a 7%nat
                  CacheMiss CacheWriteOk s) as [_ Hw]; [reflexivity..|]
  end.
  apply Hw. reflexivity.
Defined.

Local Abbreviation run_after_enhance oa evs :=
  (run browser sample_match sample_position evs
     (enhance (new_enhancer oa native_console))).

Lemma cleanup_restores_console_witness :
  match run_after_enhance no_source_maps two_logs_then_cleanup with
  | Some s =>
      console_get (console s) "log" = Native "log"
      /\ originalMethods s = ∅
      /\ cleanup_start sample_match s = set_cleanups (cleanups s ++ [CDone]) s
  | None => False
  end.
Proof.
  destruct (run_after_enhance no_source_maps two_logs_then_cleanup) as [s|] eqn:H.
  - destruct (cleanup_restores_console browser sample_match sample_position
                (new_enhancer no_source_maps native_console)
                two_logs_then_cleanup s 0%nat)
      as (Hcon & Hreg & _ & _ & _ & Hnoop & _).
    + repeat constructor.
    + exact H.
    + cbn. lia.
    + vm_compute in H. injection H as <-. reflexivity.
    + split; [|split; [exact Hreg|]].
      * exact (Hcon "log" ltac:(constructor)).
      * apply Hnoop; vm_compute in H; injection H as <-; reflexivity.
  - vm_compute in H. discriminate.
Defined.

Example two_logs_then_cleanup_output :
  option_map output (run_after_enhance no_source_maps two_logs_then_cleanup)
  = Some [mkEmitted "log" [VStr "a"; VStr (newline +:+ frame_a)];
          mkEmitted "log" [VStr "b"; VStr (newline +:+ frame_b)]].
Proof. vm_compute. reflexivity. Qed.

(** C1 fails on the code. With batchSize 1 and two entries pending,
    [cleanup()] completes and restores the console after the first batch
    only: the second entry is still queued, a further drain is merely
    scheduled. When that drain runs the registry is empty, the entry is
    rejected, and nothing but the error report is printed. *)
Theorem cleanup_flushes_one_batch_only :
  option_map (fun s => (cleanups s, output s, logQueue s, scheduled s,
                        console s !! "log", originalMethods s !! "log"))
    (run_after_enhance one_per_batch two_logs_then_cleanup_batch1)
  = Some ([CDone],
          [mkEmitted "log" [VStr "a"; VStr (newline +:+ frame_a)]],
          [mkEntry "log" [VStr "b"] (Some frame_b)],
          3%nat, Some (Native "log"), None)
  /\ option_map (fun s => (output s, logQueue s, t_status <$> tasks s))
       (run_after_enhance one_per_batch
          (two_logs_then_cleanup_batch1 ++
           [(EvScheduled, cap_a); (EvTask 1%nat, cap_a); (EvDrain 1%nat, cap_a)]))
     = Some ([mkEmitted "log" [VStr "a"; VStr (newline +:+ frame_a)];
              mkEmitted "error" [VStr "Error processing log queue:"; error_object]],
             [], [TDone; TRejected]).
Proof. split; vm_compute; reflexivity. Qed.

(** C5, as stated, fails: [cleanup()] clears the in-flight registry while a
    load is outstanding, and a later resolution of the same URL starts a
    second load beside the first. *)
Lemma cleanup_allows_second_load :
  option_map (fun s => (loads s, pendingSourceMaps s !! url_a))
    (sample_run cleanup_during_drain)
  = Some ([mkLoad url_a LFetching;
           mkLoad url_b (LSettled (LResolved None));
           mkLoad url_a LFetching],
          Some 2%nat).
Proof. vm_compute. reflexivity. Qed.

Lemma one_load_in_flight_per_url_witness :
  match sample_run start_load_a with
  | Some s =>
      pendingSourceMaps s !! url_a = Some 0%nat
      /\ loadSourceMap_start url_a s = (s, LCPending 0%nat)
  | None => False
  end.
Proof.
  destruct (sample_run start_load_a) as [s|] eqn:H.
  - destruct (one_load_in_flight_per_url browser sample_match sample_position
                no_options native_console start_load_a s) as [_ Hreg].
    + repeat constructor.
    + exact H.
    + destruct (Hreg 0%nat url_a LFetching) as (Hp & _ & Hshare & _).
      * vm_compute in H. injection H as <-. reflexivity.
      * reflexivity.
      * split; [exact Hp|]. apply Hshare.
        vm_compute in H. injection H as <-. reflexivity.
  - vm_compute in H. discriminate.
Defined.

(** C8, as stated, fails on its own example: the entry whose map request
    answers 404 is emitted with the location argument appended, not with
    its original arguments alone. *)
Lemma failed_map_still_appends_location :
  option_map (fun s => (loads s !! 0%nat, output s)) (sample_run map_not_found)
  = Some (Some (mkLoad url_a (LSettled (LResolved None))),
          [mkEmitted "log" [VStr "a"; VStr (newline +:+ frame_a)]])
  /\ [VStr "a"; VStr (newline +:+ frame_a)] <> [VStr "a"].
Proof. split; [vm_compute; reflexivity|discriminate]. Qed.

Lemma entry_failure_is_isolated_witness :
  match sample_run start_without_frame with
  | Some s =>
      match task_step browser sample_position cap_a 0%nat s with
      | Some s' => output s' = [mkEmitted "log" [VStr "a"]]
      | None => False
      end
  | None => False
  end.
Proof.
  destruct (sample_run start_without_frame) as [s|] eqn:H; [|vm_compute in H; discriminate].
  destruct (task_step browser sample_position cap_a 0%nat s) as [s'|] eqn:H';
    [|vm_compute in H; injection H as <-; vm_compute in H'; discriminate].
  destruct (entry_failure_is_isolated browser sample_position cap_a 0%nat
              (mkTask 0%nat (mkEntry "log" [VStr "a"] None) TLocationThrew) s s')
    as (_ & _ & _ & _ & Hout).
  - vm_compute in H. injection H as <-. reflexivity.
  - exact H'.
  - destruct (Hout "log") as [Hthrew _].
    + vm_compute in H. injection H as <-. reflexivity.
    + destruct Hthrew as [Ho _]; [reflexivity|].
      rewrite Ho. vm_compute in H. injection H as <-. reflexivity.
Defined.

(** With microtask scheduling the second entry has left the queue when
    [cleanup] completes, but it has not been printed, and never is. *)
Example cleanup_one_batch_microtask :
  option_map (fun s => (cleanups s, output s, logQueue s, t_status <$> tasks s))
    (run browser_no_idle sample_match sample_position two_logs_then_cleanup_microtask
       (enhance (new_enhancer one_per_batch native_console)))
  = Some ([CDone],
          [mkEmitted "log" [VStr "a"; VStr (newline +:+ frame_a)];
           mkEmitted "error" [VStr "Error processing log queue:"; error_object]],
          [], [TDone; TRejected]).
Proof. vm_compute. reflexivity. Qed.

(** A wrapper whose stack capture throws prints through the original. *)
Example capture_failure_falls_back :
  call_fn browser cap_throws (Wrapper 0 "warn" (Native "warn")) [VNum 1]
    (new_enhancer no_options native_console)
  = (set_output [mkEmitted "warn" [VNum 1]] (new_enhancer no_options native_console),
     Normal).
Proof. reflexivity. Qed.

Lemma disabled_source_maps_never_load_witness :
  sourceMapEnabled (merge_options no_source_maps) = false
  /\ match run browser sample_match sample_position
             [(EvEnhance, cap_a); (EvCall "log" [VStr "a"], cap_a); (EvScheduled, cap_a)]
             (new_enhancer no_source_maps native_console) with
     | Some s => loads s = []
     | None => False
     end.
Proof.
  split; [reflexivity|].
  destruct (run browser sample_match sample_position
              [(EvEnhance, cap_a); (EvCall "log" [VStr "a"], cap_a); (EvScheduled, cap_a)]
              (new_enhancer no_source_maps native_console)) as [s|] eqn:H.
  - refine (proj1 (disabled_source_maps_never_load browser sample_match sample_position
                     no_source_maps native_console _ s _ H)).
    reflexivity.
  - vm_compute in H. discriminate.
Defined.

Lemma processQueue_takes_front_batch_witness :
  exists s' new,
    processQueue_start sample_match
      (set_logQueue [mkEntry "log" [VStr "a"] None; mkEntry "warn" [VStr "b"] None]
         (new_enhancer one_per_batch native_console))
    = (s', QDrain 0%nat)
    /\ t_entry <$> new = [mkEntry "log" [VStr "a"] None]
    /\ logQueue s' = [mkEntry "warn" [VStr "b"] None].
Proof.
  destruct (processQueue_takes_front_batch sample_match
              (set_logQueue [mkEntry "log" [VStr "a"] None; mkEntry "warn" [VStr "b"] None]
                 (new_enhancer one_per_batch native_console)))
    as (s' & new & E & _ & _ & _ & _ & Hb & Hr & _); [reflexivity|discriminate|].
  by exists s', new.
Defined.

Lemma at_most_one_drain_running_witness :
  match sample_run start_load_a with
  | Some s => processQueue_start sample_match s = (s, QGuard)
  | None => False
  end.
Proof.
  destruct (sample_run start_load_a) as [s|] eqn:H; [|vm_compute in H; discriminate].
  destruct (at_most_one_drain_running browser sample_match sample_position
              no_options native_console start_load_a s H) as (_ & _ & Hguard).
  apply (Hguard 0%nat). vm_compute in H. injection H as <-. reflexivity.
Defined.

Local Abbreviation queued_run :=
  (run browser sample_match sample_position two_logs_queued
     (new_enhancer no_source_maps native_console)).

Lemma drained_batch_printed_in_order_witness :
  match queued_run with
  | Some s =>
      exists s3,
        output s3 = [mkEmitted "log" [VStr "a"; VStr (newline +:+ frame_a)];
                     mkEmitted "warn" [VStr "b"; VStr (newline +:+ frame_b)]]
        /\ logQueue s3 = [] /\ isProcessing s3 = false
  | None => False
  end.
Proof.
  destruct queued_run as [s|] eqn:H; vm_compute in H; [|discriminate].
  injection H as Hs.
  destruct (drained_batch_printed_in_order browser sample_match sample_position cap_a s)
    as (s1 & s2 & s3 & _ & _ & _ & Hout & Hq & Hp & _).
  - by subst s.
  - by subst s.
  - by subst s.
  - subst s. repeat constructor; eexists; reflexivity.
  - subst s. constructor.
  - exists s3. rewrite Hout, Hq. subst s. done.
Defined.

Lemma cleanup_flushes_queue_within_one_batch_witness :
  match queued_run with
  | Some s =>
      exists s4,
        output s4 = [mkEmitted "log" [VStr "a"; VStr (newline +:+ frame_a)];
                     mkEmitted "warn" [VStr "b"; VStr (newline +:+ frame_b)]]
        /\ logQueue s4 = [] /\ console s4 !! "log" = Some (Native "log")
  | None => False
  end.
Proof.
  destruct queued_run as [s|] eqn:H; vm_compute in H; [|discriminate].
  injection H as Hs.
  destruct (cleanup_flushes_queue_within_one_batch browser sample_match sample_position cap_a s)
    as (s1 & s2 & s3 & s4 & _ & _ & _ & _ & _ & Hout3 & _ & _ & _ & Hout4 & Hq & _ & Hcon).
  - by subst s.
  - by subst s.
  - by subst s.
  - subst s. cbn. lia.
  - subst s. repeat constructor; eexists; reflexivity.
  - subst s. constructor.
  - exists s4. rewrite Hout4, Hout3, Hq, Hcon. subst s. vm_compute. repeat split.
Defined.

Lemma failed_load_resolves_null_then_retries_witness :
  match sample_run start_load_a with
  | Some s =>
      exists s1 s2,
        load_io browser cap_a 0%nat CacheMiss FetchNotOk s = Some s1
        /\ loadSourceMap_start url_a s1 = (s2, LCPending (length (loads s1)))
  | None => False
  end.
Proof.
  destruct (sample_run start_load_a) as [s|] eqn:H; vm_compute in H; [|discriminate].
  injection H as Hs.
  destruct (failed_load_resolves_null_then_retries browser cap_a 0%nat url_a
              CacheMiss FetchNotOk s) as (s1 & E1 & _ & _ & _ & Hretry);
    [by subst s..|].
  destruct Hretry as (s2 & E2 & _); [by subst s|].
  by exists s1, s2.
Defined.

Lemma own_diagnostics_are_queued_witness :
  match sample_run start_load_a with
  | Some s =>
      output (load_catch browser cap_a url_a 0%nat s) = []
      /\ length (logQueue (load_catch browser cap_a url_a 0%nat s)) = 1%nat
  | None => False
  end.
Proof.
  destruct (sample_run start_load_a) as [s|] eqn:H; vm_compute in H; [|discriminate].
  injection H as Hs.
  destruct (own_diagnostics_are_queued browser cap_a 2%nat (Native "error")
              (Some frame_a) url_a 0%nat LFetching 0%nat s)
    as [(Hout & Hq & _) _]; [by subst s| reflexivity|subst s; cbn; lia|done|by subst s|].
  rewrite Hout, Hq. subst s. split; reflexivity.
Defined.

Lemma load_reads_only_its_path_witness :
  match sample_run start_load_a with
  | Some s =>
      exists s1,
        load_io browser cap_a 0%nat (CacheHit 7%nat) FetchRejects s = Some s1
        /\ sourceMapCache s1 !! url_a = Some 7%nat
  | None => False
  end.
Proof.
  destruct (sample_run start_load_a) as [s|] eqn:H; vm_compute in H; [|discriminate].
  injection H as Hs.
  destruct (load_reads_only_its_path browser cap_a 0%nat url_a 7%nat s) as [Hhit _];
    [by subst s|].
  destruct (Hhit ltac:(by subst s) FetchRejects FetchRejects)
    as (_ & s1 & E1 & _ & Hc & _).
  by exists s1.
Defined.

Lemma cleanup_stops_recorded_timer_only_witness :
  intervals (cleanup_start sample_match (enhance (new_enhancer no_options native_console))) = []
  /\ intervals (cleanup_start sample_match
                  (enhance (enhance (new_enhancer no_options native_console))))
     = [5%nat].
Proof.
  apply (cleanup_stops_recorded_timer_only browser sample_match sample_position
           (new_enhancer no_options native_console) [] _ [] _);
    by repeat constructor.
Defined.

Lemma cleanup_releases_cache_not_loads_witness :
  7%nat ∈ destroyed (cleanup_finish cached_a_loading_b)
  /\ exists s1,
       load_io browser cap_a 0%nat CacheMiss (FetchOk 9%nat)
         (cleanup_finish cached_a_loading_b) = Some s1
       /\ sourceMapCache s1 !! url_b = Some 9%nat.
Proof.
  destruct (cleanup_releases_cache_not_loads browser cap_a cached_a_loading_b)
    as (_ & _ & Hd & _ & _ & _ & Hload).
  split.
  - apply Hd. right. exists url_a. reflexivity.
  - apply Hload. reflexivity.
Defined.

Lemma nonpositive_batch_size_never_drains_witness :
  exists s1 s2,
    processQueue_start sample_match
      (set_logQueue [mkEntry "log" [VStr "a"] None]
         (new_enhancer (mkOptionsArg (Some 0) None None None None None None) native_console))
    = (s1, QDrain 0%nat)
    /\ drain_step browser cap_a 0%nat s1 = Some s2
    /\ logQueue s2 = [mkEntry "log" [VStr "a"] None] /\ output s2 = [].
Proof.
  destruct (nonpositive_batch_size_never_drains browser sample_match cap_a
              (set_logQueue [mkEntry "log" [VStr "a"] None]
                 (new_enhancer (mkOptionsArg (Some 0) None None None None None None)
                    native_console)))
    as (s1 & s2 & E1 & E2 & Hq & Ho & _); [cbn; lia|done|done|constructor|done|].
  by exists s1, s2.
Defined.

Example rewritten_location_sample :
  rewritten_location "main" "app.ts" 12 5 = VStr "    at main (app.ts:12:5)".
Proof. vm_compute. reflexivity. Qed.

Lemma log_calls_are_queued_in_order_witness :
  run browser sample_match sample_position
    [(EvCall "log" [VStr "a"], cap_a); (EvCall "warn" [VStr "b"], cap_b)]
    (enhance (new_enhancer no_options native_console))
  = Some (set_scheduled 2
            (set_logQueue [mkEntry "log" [VStr "a"] (Some frame_a);
                           mkEntry "warn" [VStr "b"] (Some frame_b)]
               (enhance (new_enhancer no_options native_console)))).
Proof.
  apply (log_calls_are_queued_in_order browser sample_match sample_position
           [(EvCall "log" [VStr "a"], cap_a); (EvCall "warn" [VStr "b"], cap_b)]
           [mkEntry "log" [VStr "a"] (Some frame_a);
            mkEntry "warn" [VStr "b"] (Some frame_b)]
           (enhance (new_enhancer no_options native_console))).
  - repeat constructor.
  - cbn. lia.
  - done.
Defined.

Lemma cleanup_during_drain_flushes_nothing_witness :
  logQueue (cleanup_start sample_match
              (set_isProcessing true
                 (set_logQueue [mkEntry "log" [VStr "a"] None]
                    (new_enhancer no_options native_console))))
  = [mkEntry "log" [VStr "a"] None].
Proof.
  apply (cleanup_during_drain_flushes_nothing browser sample_match
           (set_isProcessing true
              (set_logQueue [mkEntry "log" [VStr "a"] None]
                 (new_enhancer no_options native_console)))); done.
Defined.

Lemma resolved_entry_prints_rewritten_location_witness :
  exists s' loc,
    task_step browser sample_position cap_a 0%nat
      (set_originalMethods native_console
         (set_tasks [mkTask 0%nat (mkEntry "log" [VStr "a"] (Some frame_a))
                       (TConsumer (mkMatch "f" url_a "1" "2") 7%nat)]
            (new_enhancer no_options native_console))) = Some s'
    /\ output s' = [mkEmitted "log" [VStr "a"; location_arg [VStr "a"] loc]]
    /\ loc = rewritten_location "main" "app.ts" 12 5.
Proof.
  destruct (resolved_entry_prints_rewritten_location browser sample_position cap_a 0%nat
              (mkTask 0%nat (mkEntry "log" [VStr "a"] (Some frame_a))
                 (TConsumer (mkMatch "f" url_a "1" "2") 7%nat))
              (mkMatch "f" url_a "1" "2") 7%nat
              (mkPosition (Some "app.ts") 12 5 (Some "main")) "log"
              (set_originalMethods native_console
                 (set_tasks [mkTask 0%nat (mkEntry "log" [VStr "a"] (Some frame_a))
                               (TConsumer (mkMatch "f" url_a "1" "2") 7%nat)]
                    (new_enhancer no_options native_console))))
    as (s' & loc & E & Hout & _ & Hsrc & _); [reflexivity|by left|reflexivity..|].
  exists s', loc. split; [exact E|]. split; [exact Hout|].
  by apply (Hsrc "app.ts").
Defined.

Lemma accepted_entries_keep_their_order_witness :
  exists s',
    run browser sample_match sample_position
      [(EvScheduled, cap_none); (EvCall "warn" [VStr "b"], cap_b)]
      (set_scheduled 1
         (set_logQueue [mkEntry "log" [VStr "a"] (Some frame_a)]
            (enhance (new_enhancer no_source_maps native_console)))) = Some s'
    /\ [mkEntry "log" [VStr "a"] (Some frame_a)] `prefix_of` intake s'.
Proof.
  destruct (run browser sample_match sample_position
              [(EvScheduled, cap_none); (EvCall "warn" [VStr "b"], cap_b)]
              (set_scheduled 1
                 (set_logQueue [mkEntry "log" [VStr "a"] (Some frame_a)]
                    (enhance (new_enhancer no_source_maps native_console)))))
    as [s'|] eqn:H; [|vm_compute in H; discriminate].
  exists s'. split; [reflexivity|].
  exact (accepted_entries_keep_their_order browser sample_match sample_position
           [(EvScheduled, cap_none); (EvCall "warn" [VStr "b"], cap_b)] _ s' H).
Defined.

Lemma second_enhance_requeues_entries_witness :
  exists cid,
    originalMethods (enhance (enhance (new_enhancer no_options native_console))) !! "log"
    = Some (Wrapper cid "log" (Native "log")).
Proof.
  destruct (second_enhance_requeues_entries browser sample_match sample_position
              (new_enhancer no_options native_console) "log" ltac:(constructor))
    as (cid & H & _).
  exists cid. exact H.
Defined.

Example second_enhance_nothing_printed :
  option_map (fun s => (output s, length (logQueue s), scheduled s))
    (run browser sample_match sample_position
       [(EvEnhance, cap_none); (EvEnhance, cap_none);
        (EvCall "log" [VStr "a"], cap_a); (EvScheduled, cap_none);
        (EvTask 0%nat, cap_a); (EvDrain 0%nat, cap_none)]
       (new_enhancer no_source_maps native_console))
  = Some ([], 1%nat, 2%nat).
Proof. vm_compute. reflexivity. Qed.
